(** * FreeDevTools: search-index builder (Go) and search client (TypeScript)

  A shallow embedding of

  - the SVG-icons builder of the search index: [generateIconIDFromPath],
    [formatIconName] and [generateSVGIconsData], together with the parts
    of Go's [strings], [unicode], [unicode/utf8], [regexp] and [sort]
    packages they call;
  - the client in [SearchPage.tsx]: the request built by
    [searchUtilities], and the component's state with its handlers,
    effects, debounce timer and fetches in flight as an event-driven
    transition system; its [updateUrlHash] and [checkHashForSearch] with
    the parts of ECMAScript and of the URL and Encoding standards they
    call;
  - the sitemap of the icon pages in [sitemap.xml.ts].

  Go strings are byte sequences; JavaScript strings are sequences of
  UTF-16 code units. *)

From Stdlib Require Import List ZArith NArith Lia Bool Ascii String.
From Stdlib Require Lists.Finite.
From Stdlib Require Import Strings.Byte.
From Stdlib Require Import Permutation Sorted.
From Stdlib Require Import DecimalString DecimalN.
Import ListNotations.

Set Implicit Arguments.

Local Open Scope Z_scope.

(* ================================================================== *)
(** * Go's standard library, as far as the builder uses it            *)
(* ================================================================== *)

Module Go.

(** A Go [string]: an immutable sequence of bytes. *)
Definition gostring := list byte.

(** A string literal of the source. *)
Definition str (s : string) : gostring := list_byte_of_string s.

Definition byteZ (b : byte) : Z := Z.of_N (Byte.to_N b).

Definition byte_of_Z (z : Z) : byte :=
  match Byte.of_N (Z.to_N (z mod 256)) with
  | Some b => b
  | None => x00
  end.

Definition gostring_eq_dec : forall a b : gostring, {a = b} + {a <> b} :=
  list_eq_dec Byte.byte_eq_dec.

(** ** unicode/utf8 *)

Definition rune := Z.
Definition RuneError : rune := 0xFFFD.
Definition RuneSelf : Z := 0x80.
Definition MaxRune : rune := 0x10FFFF.

(** The [first] table of utf8.go together with [acceptRanges]: what the
    first byte of a sequence announces. *)
Inductive firstInfo :=
| AS                              (* an ASCII byte *)
| XX                              (* an invalid first byte *)
| Lead (sz : nat) (lo hi : Z).    (* size, and the range of the second byte *)

Definition first (x : Z) : firstInfo :=
  if x <? 0x80 then AS
  else if x <? 0xC2 then XX
  else if x <? 0xE0 then Lead 2 0x80 0xBF
  else if x =? 0xE0 then Lead 3 0xA0 0xBF
  else if x <? 0xED then Lead 3 0x80 0xBF
  else if x =? 0xED then Lead 3 0x80 0x9F
  else if x <? 0xF0 then Lead 3 0x80 0xBF
  else if x =? 0xF0 then Lead 4 0x90 0xBF
  else if x <? 0xF4 then Lead 4 0x80 0xBF
  else if x =? 0xF4 then Lead 4 0x80 0x8F
  else XX.

Definition locb : Z := 0x80.
Definition hicb : Z := 0xBF.
Definition maskx : Z := 0x3F.

Definition outside (lo hi x : Z) : bool := (x <? lo) || (hi <? x).

(** [utf8.DecodeRuneInString]: the rune at the front of [s] and its width
    in bytes; [(RuneError, 1)] on an invalid or short encoding and
    [(RuneError, 0)] on the empty string. *)
Definition DecodeRuneInString (s : gostring) : rune * nat :=
  match s with
  | [] => (RuneError, 0%nat)
  | b0 :: t =>
      let s0 := byteZ b0 in
      match first s0 with
      | AS => (s0, 1%nat)
      | XX => (RuneError, 1%nat)
      | Lead sz lo hi =>
          if (List.length s <? sz)%nat then (RuneError, 1%nat) else
          match t with
          | [] => (RuneError, 1%nat)
          | b1 :: t1 =>
              let s1 := byteZ b1 in
              if outside lo hi s1 then (RuneError, 1%nat) else
              if (sz <=? 2)%nat then
                (Z.lor (Z.shiftl (Z.land s0 0x1F) 6) (Z.land s1 maskx), 2%nat)
              else
              match t1 with
              | [] => (RuneError, 1%nat)
              | b2 :: t2 =>
                  let s2 := byteZ b2 in
                  if outside locb hicb s2 then (RuneError, 1%nat) else
                  if (sz <=? 3)%nat then
                    (Z.lor (Z.lor (Z.shiftl (Z.land s0 0x0F) 12)
                                  (Z.shiftl (Z.land s1 maskx) 6))
                           (Z.land s2 maskx), 3%nat)
                  else
                  match t2 with
                  | [] => (RuneError, 1%nat)
                  | b3 :: _ =>
                      let s3 := byteZ b3 in
                      if outside locb hicb s3 then (RuneError, 1%nat) else
                      (Z.lor (Z.lor (Z.lor (Z.shiftl (Z.land s0 0x07) 18)
                                           (Z.shiftl (Z.land s1 maskx) 12))
                                    (Z.shiftl (Z.land s2 maskx) 6))
                             (Z.land s3 maskx), 4%nat)
                  end
              end
          end
      end
  end.

(** [utf8.AppendRune] on an empty buffer (what [Builder.WriteRune]
    appends): the UTF-8 encoding of [r], and that of [RuneError] when [r]
    is out of range or a surrogate half. *)
Definition three (r : rune) : gostring :=
  [ byte_of_Z (Z.lor 0xE0 (Z.shiftr r 12));
    byte_of_Z (Z.lor 0x80 (Z.land (Z.shiftr r 6) maskx));
    byte_of_Z (Z.lor 0x80 (Z.land r maskx)) ].

Definition EncodeRune (r : rune) : gostring :=
  if (0 <=? r) && (r <=? 0x7F) then [byte_of_Z r]
  else if (0 <=? r) && (r <=? 0x7FF) then
    [ byte_of_Z (Z.lor 0xC0 (Z.shiftr r 6));
      byte_of_Z (Z.lor 0x80 (Z.land r maskx)) ]
  else if (r <? 0) || (MaxRune <? r) || ((0xD800 <=? r) && (r <=? 0xDFFF))
  then three RuneError
  else if r <=? 0xFFFF then three r
  else
    [ byte_of_Z (Z.lor 0xF0 (Z.shiftr r 18));
      byte_of_Z (Z.lor 0x80 (Z.land (Z.shiftr r 12) maskx));
      byte_of_Z (Z.lor 0x80 (Z.land (Z.shiftr r 6) maskx));
      byte_of_Z (Z.lor 0x80 (Z.land r maskx)) ].

(** What [for i, c := range s] visits: each rune with the bytes it was
    decoded from (one byte for an invalid encoding). [skip] counts the
    bytes of the current rune still to pass over. *)
Fixpoint runesFrom (skip : nat) (s : gostring) : list (rune * gostring) :=
  match s with
  | [] => []
  | _ :: t =>
      match skip with
      | S k => runesFrom k t
      | O =>
          let (r, w) := DecodeRuneInString s in
          (r, firstn w s) :: runesFrom (w - 1) t
      end
  end.

Definition runes (s : gostring) : list (rune * gostring) := runesFrom 0 s.

Definition isASCII (s : gostring) : bool :=
  forallb (fun b => byteZ b <? RuneSelf) s.

(** ** unicode *)

(** [unicode.CaseRanges], the table behind [unicode.To], is data of Go's
    library: its lookups for runes beyond ASCII are a parameter of the
    model. ([unicode.ToUpper] and [unicode.ToLower] answer for ASCII
    themselves.) *)
Record CaseTables := {
  toUpperTable : rune -> rune;
  toLowerTable : rune -> rune
}.

Definition MaxASCII : rune := 0x7F.

Definition unicode_ToUpper (T : CaseTables) (r : rune) : rune :=
  if r <=? MaxASCII then
    if (0x61 <=? r) && (r <=? 0x7A) then r - 0x20 else r
  else toUpperTable T r.

Definition unicode_ToLower (T : CaseTables) (r : rune) : rune :=
  if r <=? MaxASCII then
    if (0x41 <=? r) && (r <=? 0x5A) then r + 0x20 else r
  else toLowerTable T r.

(** [unicode.IsSpace]: the Latin-1 switch, then the White_Space table. *)
Definition unicode_IsSpace (r : rune) : bool :=
  if (0 <=? r) && (r <=? 0xFF) then
    ((0x09 <=? r) && (r <=? 0x0D)) || (r =? 0x20) || (r =? 0x85) || (r =? 0xA0)
  else
    (r =? 0x1680) || ((0x2000 <=? r) && (r <=? 0x200A))
    || (r =? 0x2028) || (r =? 0x2029) || (r =? 0x202F) || (r =? 0x205F)
    || (r =? 0x3000).

(** ** strings *)

Fixpoint HasPrefix (s prefix : gostring) {struct prefix} : bool :=
  match prefix, s with
  | [], _ => true
  | p :: prefix', c :: s' => Byte.eqb p c && HasPrefix s' prefix'
  | _ :: _, [] => false
  end.

Definition TrimPrefix (s prefix : gostring) : gostring :=
  if HasPrefix s prefix then skipn (List.length prefix) s else s.

Definition HasSuffix (s suffix : gostring) : bool :=
  (List.length suffix <=? List.length s)%nat
  && HasPrefix (skipn (List.length s - List.length suffix) s) suffix.

Definition TrimSuffix (s suffix : gostring) : gostring :=
  if HasSuffix s suffix then firstn (List.length s - List.length suffix) s else s.

(** [strings.Replace(s, old, new, n)] for a non-empty [old], as at each of
    its call sites here: the first [n] non-overlapping occurrences of
    [old], found from the left, are replaced; [None] stands for a
    negative [n] (no limit). *)
Fixpoint replaceFrom (old new : gostring) (n : option nat) (skip : nat)
         (s : gostring) : gostring :=
  match s with
  | [] => []
  | b :: t =>
      match skip with
      | S k => replaceFrom old new n k t
      | O =>
          match n with
          | Some O => s
          | _ =>
              if HasPrefix s old
              then new ++ replaceFrom old new (option_map pred n)
                                      (List.length old - 1) t
              else b :: replaceFrom old new n 0 t
          end
      end
  end.

Definition Replace (s old new : gostring) (n : Z) : gostring :=
  replaceFrom old new (if n <? 0 then None else Some (Z.to_nat n)) 0 s.

(** The splitting loop shared by [Fields] and [FieldsFunc]: [cur] is the
    field being read ([start >= 0] in the source), the chunks are the
    pieces of the string with whether each is a separator. *)
Fixpoint splitFields (cur : option gostring) (chunks : list (bool * gostring))
  : list gostring :=
  match chunks with
  | [] => match cur with Some w => [w] | None => [] end
  | (true, _) :: rest =>
      match cur with
      | Some w => w :: splitFields None rest
      | None => splitFields None rest
      end
  | (false, raw) :: rest =>
      splitFields (Some (match cur with Some w => w ++ raw | None => raw end)) rest
  end.

Definition FieldsFunc (s : gostring) (f : rune -> bool) : list gostring :=
  splitFields None (map (fun c => (f (fst c), snd c)) (runes s)).

(** The [asciiSpace] table of strings.go. *)
Definition asciiSpace (b : byte) : bool :=
  let c := byteZ b in
  ((0x09 <=? c) && (c <=? 0x0D)) || (c =? 0x20).

Definition Fields (s : gostring) : list gostring :=
  if isASCII s
  then splitFields None (map (fun b => (asciiSpace b, [b])) s)
  else FieldsFunc s unicode_IsSpace.

Fixpoint Join (elems : list gostring) (sep : gostring) : gostring :=
  match elems with
  | [] => []
  | [e] => e
  | e :: rest => e ++ sep ++ Join rest sep
  end.

Definition keep (r : rune) : gostring :=
  if 0 <=? r then EncodeRune r else [].

(** The second loop of [strings.Map]: every rune is mapped and written. *)
Definition mapRest (mapping : rune -> rune) (cs : list (rune * gostring))
  : gostring :=
  flat_map (fun c => keep (mapping (fst c))) cs.

(** The first loop of [strings.Map]: the input is passed through up to the
    first rune that the mapping changes, or that is an invalid byte. *)
Fixpoint mapScan (mapping : rune -> rune) (cs : list (rune * gostring))
  : gostring :=
  match cs with
  | [] => []
  | (c, raw) :: rest =>
      let r := mapping c in
      if (r =? c) && negb (c =? RuneError) then raw ++ mapScan mapping rest
      else if (c =? RuneError) && negb (List.length raw =? 1)%nat && (r =? c)
      then raw ++ mapScan mapping rest
      else keep r ++ mapRest mapping rest
  end.

Definition Map (mapping : rune -> rune) (s : gostring) : gostring :=
  mapScan mapping (runes s).

Definition upperByte (b : byte) : byte :=
  let c := byteZ b in
  if (0x61 <=? c) && (c <=? 0x7A) then byte_of_Z (c - 0x20) else b.

Definition lowerByte (b : byte) : byte :=
  let c := byteZ b in
  if (0x41 <=? c) && (c <=? 0x5A) then byte_of_Z (c + 0x20) else b.

Definition ToUpper (T : CaseTables) (s : gostring) : gostring :=
  if isASCII s then map upperByte s else Map (unicode_ToUpper T) s.

Definition ToLower (T : CaseTables) (s : gostring) : gostring :=
  if isASCII s then map lowerByte s else Map (unicode_ToLower T) s.

(** ** regexp *)

(** The class [[^a-zA-Z0-9\-_]] of the two sanitising expressions: a rune
    matches when it is none of the listed characters. *)
Definition idRune (r : rune) : bool :=
  ((0x61 <=? r) && (r <=? 0x7A)) || ((0x41 <=? r) && (r <=? 0x5A))
  || ((0x30 <=? r) && (r <=? 0x39)) || (r =? 0x2D) || (r =? 0x5F).

(** [regexp.MustCompile(`[^a-zA-Z0-9\-_]`).ReplaceAllString(s, repl)] for
    a replacement without [$]: the matcher steps through [s] rune by rune
    (an invalid byte is the rune [RuneError] of width 1), and every match
    is one rune. *)
Definition ReplaceAllInvalid (s repl : gostring) : gostring :=
  flat_map (fun c => if idRune (fst c) then snd c else repl) (runes s).

(** Go's [<] on strings: bytewise lexicographic. *)
Fixpoint string_lt (a b : gostring) : bool :=
  match a, b with
  | _, [] => false
  | [], _ :: _ => true
  | x :: a', y :: b' =>
      if byteZ x <? byteZ y then true
      else if byteZ y <? byteZ x then false
      else string_lt a' b'
  end.

(** ** sort *)

(** What [sort.Slice] asks of [less]: a strict weak order, written on the
    bool function ([a] is not after [b] when [less b a = false]). *)
Definition strictWeak {A : Type} (less : A -> A -> bool) : Prop :=
  (forall a b, less a b = true -> less b a = false)
  /\ (forall a b c, less b a = false -> less c b = false -> less c a = false).

Definition sortedBy {A : Type} (less : A -> A -> bool) : list A -> Prop :=
  StronglySorted (fun a b => less b a = false).

(** [sort.Slice] by its contract: the slice is rearranged, and no element
    is after one that is [less]. The order among elements that are not
    [less] either way is the implementation's choice. *)
Class SliceSorter := {
  sort_Slice : forall A : Type, (A -> A -> bool) -> list A -> list A;
  sort_Slice_perm :
    forall (A : Type) (less : A -> A -> bool) (l : list A),
      Permutation l (sort_Slice less l);
  sort_Slice_sorted :
    forall (A : Type) (less : A -> A -> bool) (l : list A),
      strictWeak less -> sortedBy less (sort_Slice less l)
}.

(** An insertion sort, as an implementation of the contract: each element
    in turn is placed before the first one it is [less] than. *)
Fixpoint insertSorted {A : Type} (less : A -> A -> bool) (x : A) (l : list A)
  : list A :=
  match l with
  | [] => [x]
  | y :: l' => if less x y then x :: l else y :: insertSorted less x l'
  end.

Definition insertionSort {A : Type} (less : A -> A -> bool) (l : list A)
  : list A :=
  fold_right (insertSorted less) [] (rev l).

(** ** Predicates the proofs use *)

(** A byte of a formatted word: ASCII, no space, no underscore or hyphen. *)
Definition plainByte (b : byte) : bool :=
  (byteZ b <? RuneSelf) && negb (asciiSpace b)
  && negb (Byte.eqb "_" b) && negb (Byte.eqb "-" b).

Definition plainWord (w : gostring) : Prop :=
  w <> [] /\ forallb plainByte w = true.

Definition asciiChunks (s : gostring) : list (bool * gostring) :=
  map (fun b => (asciiSpace b, [b])) s.

(** A byte of a name after underscores and hyphens became spaces. *)
Definition nameByte (b : byte) : bool :=
  (byteZ b <? RuneSelf) && negb (Byte.eqb "_" b) && negb (Byte.eqb "-" b).

Definition agreeBeyondASCII (f g : rune -> rune) (s : gostring) : Prop :=
  Forall (fun c => MaxASCII < fst c -> f (fst c) = g (fst c)) (runes s).

(** U+FFFD, as [Map] writes it for a byte that is no valid encoding. *)
Definition replacementChar : gostring := EncodeRune RuneError.

(** ** Facts about the library model *)

Lemma byteZ_range (b : byte) : 0 <= byteZ b < 256.
Proof.
  unfold byteZ. pose proof (Byte.to_N_bounded b) as H.
  split; [apply N2Z.is_nonneg|].
  change 256 with (Z.of_N 256). apply N2Z.inj_lt. lia.
Qed.

Lemma byteZ_inj (a b : byte) : byteZ a = byteZ b -> a = b.
Proof.
  unfold byteZ. intros H. apply N2Z.inj in H.
  pose proof (Byte.of_to_N a) as Ha. pose proof (Byte.of_to_N b) as Hb.
  rewrite H in Ha. congruence.
Qed.

Lemma string_lt_asym (a b : gostring) :
  string_lt a b = true -> string_lt b a = false.
Proof.
  revert b. induction a as [|x a IH]; intros [|y b]; simpl; try congruence.
  destruct (byteZ x <? byteZ y) eqn:Hxy, (byteZ y <? byteZ x) eqn:Hyx;
    try congruence; try lia.
  apply IH.
Qed.

Lemma string_le_trans (a b c : gostring) :
  string_lt b a = false -> string_lt c b = false -> string_lt c a = false.
Proof.
  revert b c. induction a as [|x a IH]; intros [|y b] [|z c]; simpl;
    try congruence.
  destruct (byteZ y <? byteZ x) eqn:Hyx; [congruence|].
  destruct (byteZ z <? byteZ y) eqn:Hzy; [congruence|].
  destruct (byteZ x <? byteZ y) eqn:Hxy;
  destruct (byteZ y <? byteZ z) eqn:Hyz;
  destruct (byteZ z <? byteZ x) eqn:Hzx;
  destruct (byteZ x <? byteZ z) eqn:Hxz; try congruence; try lia.
  apply IH.
Qed.

Lemma string_le_antisym (a b : gostring) :
  string_lt a b = false -> string_lt b a = false -> a = b.
Proof.
  revert b. induction a as [|x a IH]; intros [|y b]; simpl; try congruence.
  destruct (byteZ x <? byteZ y) eqn:Hxy; [congruence|].
  destruct (byteZ y <? byteZ x) eqn:Hyx; [congruence|].
  intros H1 H2. f_equal; [apply byteZ_inj; lia | now apply IH].
Qed.

Lemma insertSorted_perm {A : Type} (less : A -> A -> bool) (x : A) (l : list A) :
  Permutation (x :: l) (insertSorted less x l).
Proof.
  induction l as [|y l IH]; simpl; [reflexivity|].
  destruct (less x y); [reflexivity|].
  rewrite perm_swap. now constructor.
Qed.

Lemma insertionSort_perm {A : Type} (less : A -> A -> bool) (l : list A) :
  Permutation l (insertionSort less l).
Proof.
  unfold insertionSort. rewrite (Permutation_rev l) at 1.
  induction (rev l) as [|x r IH]; simpl; [reflexivity|].
  rewrite <- insertSorted_perm. now constructor.
Qed.

Lemma insertSorted_sorted {A : Type} (less : A -> A -> bool) (x : A) (l : list A) :
  strictWeak less -> sortedBy less l -> sortedBy less (insertSorted less x l).
Proof.
  intros [Hasym Htrans]. unfold sortedBy.
  induction 1 as [|y l Hl IH Hy]; simpl.
  - repeat constructor.
  - destruct (less x y) eqn:Hxy.
    + constructor; [now constructor|].
      constructor; [now apply Hasym|].
      rewrite Forall_forall in *. intros z Hz.
      apply Htrans with y; [now apply Hasym | now apply Hy].
    + constructor; [exact IH|].
      rewrite Forall_forall in *. intros z Hz.
      apply (Permutation_in _ (Permutation_sym (insertSorted_perm less x l))) in Hz.
      destruct Hz as [<-|Hz]; [exact Hxy | now apply Hy].
Qed.

Lemma insertionSort_sorted {A : Type} (less : A -> A -> bool) (l : list A) :
  strictWeak less -> sortedBy less (insertionSort less l).
Proof.
  intros Hsw. unfold insertionSort.
  induction (rev l) as [|x r IH]; simpl; [constructor|].
  now apply insertSorted_sorted.
Qed.

(** An implementation of the contract of [sort.Slice]. *)
Definition insertionSorter : SliceSorter := {|
  sort_Slice := @insertionSort;
  sort_Slice_perm := @insertionSort_perm;
  sort_Slice_sorted := @insertionSort_sorted
|}.

(** Two sorted arrangements of the same elements agree wherever [less]
    tells the elements apart. *)
Lemma sorted_perm_unique {A : Type} (less : A -> A -> bool) (l1 l2 : list A) :
  (forall a b, In a l1 -> In b l1 -> less a b = false -> less b a = false -> a = b) ->
  sortedBy less l1 -> sortedBy less l2 -> Permutation l1 l2 -> l1 = l2.
Proof.
  unfold sortedBy. revert l2.
  induction l1 as [|a l1 IH]; intros l2 Hanti H1 H2 HP.
  - now apply Permutation_nil in HP.
  - destruct l2 as [|b l2].
    + apply Permutation_sym, Permutation_nil in HP. discriminate.
    + inversion H1 as [|? ? H1' Ha]; subst.
      inversion H2 as [|? ? H2' Hb]; subst.
      rewrite Forall_forall in Ha, Hb.
      assert (Hab : a = b).
      { assert (Hina : In a (b :: l2)) by (apply (Permutation_in _ HP); now left).
        assert (Hinb : In b (a :: l1))
          by (apply (Permutation_in _ (Permutation_sym HP)); now left).
        destruct Hina as [->|Hina]; [reflexivity|].
        destruct Hinb as [->|Hinb]; [reflexivity|].
        apply Hanti; [now left | now right | now apply Hb | now apply Ha]. }
      subst b. f_equal.
      apply IH; auto.
      * intros x y Hx Hy. apply Hanti; now right.
      * now apply Permutation_cons_inv in HP.
Qed.

Lemma lor_lower_l (a b : Z) : 0 <= a -> 0 <= b -> a <= Z.lor a b.
Proof.
  intros Ha Hb. pose proof (Z.sub_lor_l_same_r b a) as H.
  rewrite Z.lor_comm in H.
  assert (0 <= Z.land b (Z.lnot a)) by (apply Z.land_nonneg; now left).
  lia.
Qed.

Lemma lor_lower_r (a b : Z) : 0 <= a -> 0 <= b -> b <= Z.lor a b.
Proof. intros. rewrite Z.lor_comm. now apply lor_lower_l. Qed.

Lemma first_AS x : first x = AS -> x < 0x80.
Proof.
  unfold first.
  repeat match goal with |- context [if ?c then _ else _] => destruct c eqn:? end;
    try discriminate; lia.
Qed.

Lemma first_Lead x sz lo hi :
  0 <= x < 256 ->
  first x = Lead sz lo hi ->
  hi <= 0xBF /\
  ((sz = 2%nat /\ 2 <= x mod 32)
  \/ (sz = 3%nat /\ (1 <= x mod 16 \/ 0xA0 <= lo))
  \/ (sz = 4%nat /\ (1 <= x mod 8 \/ 0x90 <= lo))).
Proof.
  unfold first. intros Hx.
  repeat match goal with |- context [if ?c then _ else _] => destruct c eqn:? end;
    intros H; inversion H; subst; clear H; (split; [lia|]); Z.div_mod_to_equations; lia.
Qed.

Lemma DecodeRune_ascii (b0 : byte) (t : gostring) (r : rune) (w : nat) :
  DecodeRuneInString (b0 :: t) = (r, w) -> r < 0x80 ->
  r = byteZ b0 /\ w = 1%nat.
Proof.
  pose proof (byteZ_range b0) as H0.
  unfold DecodeRuneInString; cbv zeta.
  destruct (first (byteZ b0)) as [| |sz lo hi] eqn:Hf.
  - intros H _. now inversion H.
  - intros H Hr. inversion H; subst. discriminate Hr.
  - apply first_Lead in Hf; [|exact H0]. destruct Hf as [Hhi Hf].
    assert (Hm : forall s, 0 <= Z.land s maskx)
      by (intros s; apply Z.land_nonneg; right; discriminate).
    assert (Hs : forall s k, 0 <= k -> 0 <= Z.shiftl (Z.land s maskx) k)
      by (intros s k Hk; apply Z.shiftl_nonneg, Hm).
    destruct (List.length (b0 :: t) <? sz)%nat;
      [intros H Hr; inversion H; subst; discriminate Hr|].
    destruct t as [|b1 t1]; [intros H Hr; inversion H; subst; discriminate Hr|].
    pose proof (byteZ_range b1) as H1.
    destruct (outside lo hi (byteZ b1)) eqn:Ho;
      [intros H Hr; inversion H; subst; discriminate Hr|].
    unfold outside in Ho. apply orb_false_elim in Ho. destruct Ho as [Ho1 Ho2].
    destruct Hf as [[-> Hf]|[[-> Hf]|[-> Hf]]]; unfold Nat.leb.
    + intros H Hr. pose proof (f_equal fst H) as E1. pose proof (f_equal snd H) as E2.
      unfold fst in E1. unfold snd in E2. subst r w. clear H. exfalso.
      change 0x1F with (Z.ones 5) in Hr. rewrite Z.land_ones in Hr by lia.
      rewrite Z.shiftl_mul_pow2 in Hr by lia.
      pose proof (@lor_lower_l (byteZ b0 mod 2 ^ 5 * 2 ^ 6) (Z.land (byteZ b1) maskx)).
      pose proof (Hm (byteZ b1)). change (2^5) with 32 in *. change (2^6) with 64 in *.
      lia.
    + destruct t1 as [|b2 t2]; [intros H Hr; inversion H; subst; discriminate Hr|].
      destruct (outside locb hicb (byteZ b2));
        [intros H Hr; inversion H; subst; discriminate Hr|].
      intros H Hr. pose proof (f_equal fst H) as E1. pose proof (f_equal snd H) as E2.
      unfold fst in E1. unfold snd in E2. subst r w. clear H. exfalso.
      change 0x0F with (Z.ones 4) in Hr. rewrite Z.land_ones in Hr by lia.
      unfold maskx in *. change 0x3F with (Z.ones 6) in *.
      rewrite !Z.land_ones in Hr by lia.
      rewrite !Z.shiftl_mul_pow2 in Hr by lia.
      change (2^4) with 16 in *. change (2^6) with 64 in *. change (2^12) with 4096 in *.
      set (A := byteZ b0 mod 16 * 4096) in *.
      set (B := byteZ b1 mod 64 * 64) in *.
      set (C := byteZ b2 mod 64) in *.
      assert (0 <= A) by (subst A; Z.div_mod_to_equations; lia).
      assert (0 <= B) by (subst B; Z.div_mod_to_equations; lia).
      assert (0 <= C) by (subst C; Z.div_mod_to_equations; lia).
      pose proof (@lor_lower_l A B). pose proof (@lor_lower_r A B).
      pose proof (@lor_lower_l (Z.lor A B) C).
      assert (128 <= A \/ 128 <= B).
      { destruct Hf as [Hf|Hf]; [left; subst A; lia|right].
        apply Z.ltb_ge in Ho1. apply Z.ltb_ge in Ho2. subst B. Z.div_mod_to_equations. lia. }
      assert (0 <= Z.lor A B) by (apply Z.lor_nonneg; lia).
      lia.
    + destruct t1 as [|b2 t2]; [intros H Hr; inversion H; subst; discriminate Hr|].
      destruct (outside locb hicb (byteZ b2));
        [intros H Hr; inversion H; subst; discriminate Hr|].
      destruct t2 as [|b3 t3]; [intros H Hr; inversion H; subst; discriminate Hr|].
      destruct (outside locb hicb (byteZ b3));
        [intros H Hr; inversion H; subst; discriminate Hr|].
      intros H Hr. pose proof (f_equal fst H) as E1. pose proof (f_equal snd H) as E2.
      unfold fst in E1. unfold snd in E2. subst r w. clear H. exfalso.
      change 0x07 with (Z.ones 3) in Hr. rewrite Z.land_ones in Hr by lia.
      unfold maskx in *. change 0x3F with (Z.ones 6) in *.
      rewrite !Z.land_ones in Hr by lia.
      rewrite !Z.shiftl_mul_pow2 in Hr by lia.
      change (2^3) with 8 in *. change (2^6) with 64 in *.
      change (2^12) with 4096 in *. change (2^18) with 262144 in *.
      set (A := byteZ b0 mod 8 * 262144) in *.
      set (B := byteZ b1 mod 64 * 4096) in *.
      set (C := byteZ b2 mod 64 * 64) in *.
      set (D := byteZ b3 mod 64) in *.
      assert (0 <= A) by (subst A; Z.div_mod_to_equations; lia).
      assert (0 <= B) by (subst B; Z.div_mod_to_equations; lia).
      assert (0 <= C) by (subst C; Z.div_mod_to_equations; lia).
      assert (0 <= D) by (subst D; Z.div_mod_to_equations; lia).
      pose proof (@lor_lower_l A B). pose proof (@lor_lower_r A B).
      assert (0 <= Z.lor A B) by (apply Z.lor_nonneg; lia).
      pose proof (@lor_lower_l (Z.lor A B) C).
      assert (0 <= Z.lor (Z.lor A B) C) by (apply Z.lor_nonneg; lia).
      pose proof (@lor_lower_l (Z.lor (Z.lor A B) C) D).
      assert (128 <= A \/ 128 <= B).
      { destruct Hf as [Hf|Hf]; [left; subst A; lia|right].
        apply Z.ltb_ge in Ho1. apply Z.ltb_ge in Ho2. subst B. Z.div_mod_to_equations. lia. }
      lia.
Qed.

(** Every chunk visited by [range] is decoded from a non-empty rest of the string. *)
Lemma runesFrom_chunks (skip : nat) (s : gostring) (c : rune * gostring) :
  In c (runesFrom skip s) ->
  exists b t, c = (fst (DecodeRuneInString (b :: t)),
                   firstn (snd (DecodeRuneInString (b :: t))) (b :: t)).
Proof.
  revert skip. induction s as [|b t IH]; intros skip; [simpl; tauto|].
  cbn [runesFrom]. destruct skip as [|k]; [|apply IH].
  destruct (DecodeRuneInString (b :: t)) as [r w] eqn:Hd.
  intros [<-|Hin]; [|now apply IH in Hin].
  exists b, t. now rewrite Hd.
Qed.

Lemma runes_ascii_chunk (s : gostring) (r : rune) (raw : gostring) :
  In (r, raw) (runes s) -> r < 0x80 -> exists b, raw = [b] /\ byteZ b = r.
Proof.
  intros Hin Hr. apply runesFrom_chunks in Hin. destruct Hin as (b & t & Hc).
  destruct (DecodeRuneInString (b :: t)) as [r' w] eqn:Hd.
  simpl in Hc. inversion Hc; subst r' raw.
  destruct (@DecodeRune_ascii _ _ _ _ Hd Hr) as [-> ->]. now exists b.
Qed.

Lemma idRune_ascii (r : rune) : idRune r = true -> r < 0x80.
Proof.
  unfold idRune. intros H.
  repeat (apply orb_prop in H; destruct H as [H|H]);
    try (apply andb_prop in H; destruct H); lia.
Qed.

Lemma ReplaceAllInvalid_idBytes (s : gostring) :
  forallb (fun b => idRune (byteZ b)) (ReplaceAllInvalid s (str "_")) = true.
Proof.
  unfold ReplaceAllInvalid. apply forallb_forall. intros b Hb.
  apply in_flat_map in Hb. destruct Hb as ([r raw] & Hin & Hb). simpl in Hb.
  destruct (idRune r) eqn:Hr.
  - destruct (@runes_ascii_chunk _ _ _ Hin (@idRune_ascii _ Hr)) as (b' & -> & <-).
    destruct Hb as [<-|[]]. exact Hr.
  - destruct Hb as [<-|[]]. reflexivity.
Qed.

Lemma replaceFrom_done (old new : gostring) (k : nat) (s : gostring) :
  replaceFrom old new (Some 0%nat) k s = skipn k s.
Proof.
  revert k. induction s as [|b t IH]; intros [|k]; simpl; auto.
Qed.

Lemma Replace_byte (c d : byte) (s : gostring) :
  Replace s [c] [d] (-1) = map (fun b => if Byte.eqb c b then d else b) s.
Proof.
  unfold Replace. simpl (if _ <? _ then _ else _).
  induction s as [|b t IH]; simpl; [reflexivity|].
  rewrite andb_true_r. destruct (Byte.eqb c b); simpl; now rewrite IH.
Qed.

Lemma TrimSuffix_byte (c : byte) (s : gostring) :
  TrimSuffix s [c]
  = match rev s with
    | x :: r => if Byte.eqb c x then rev r else s
    | [] => s
    end.
Proof.
  unfold TrimSuffix, HasSuffix.
  destruct (rev s) as [|x r] eqn:Hrev.
  - apply (f_equal (@rev byte)) in Hrev. rewrite rev_involutive in Hrev.
    subst s. reflexivity.
  - apply (f_equal (@rev byte)) in Hrev. rewrite rev_involutive in Hrev.
    simpl in Hrev. subst s.
    rewrite length_app. simpl List.length.
    replace (List.length (rev r) + 1 - 1)%nat with (List.length (rev r) + 0)%nat by lia.
    rewrite Nat.add_0_r, skipn_app, skipn_all, firstn_app, firstn_all.
    rewrite Nat.sub_diag.
    replace (1 <=? List.length (rev r) + 1)%nat with true
      by (symmetry; apply Nat.leb_le; lia).
    simpl. now rewrite andb_true_r, app_nil_r.
Qed.

Lemma DecodeRune_of_ascii (b : byte) (t : gostring) :
  (byteZ b <? RuneSelf) = true -> DecodeRuneInString (b :: t) = (byteZ b, 1%nat).
Proof.
  intros Hb. unfold DecodeRuneInString, first. cbv zeta.
  unfold RuneSelf in Hb. now rewrite Hb.
Qed.

(** On an ASCII string the runes are the bytes. *)
Lemma runes_ascii (s : gostring) :
  isASCII s = true -> runes s = map (fun b => (byteZ b, [b])) s.
Proof.
  unfold runes. induction s as [|b t IH]; [reflexivity|].
  intros H. apply andb_prop in H. destruct H as [Hb Ht].
  cbn [runesFrom map]. rewrite (@DecodeRune_of_ascii b t Hb).
  cbn [firstn Nat.sub]. now rewrite IH.
Qed.

Lemma idBytes_ascii (s : gostring) :
  forallb (fun b => idRune (byteZ b)) s = true -> isASCII s = true.
Proof.
  unfold isASCII. rewrite !forallb_forall. intros H b Hb.
  apply Z.ltb_lt. apply idRune_ascii. now apply H.
Qed.

Lemma ReplaceAllInvalid_clean (s repl : gostring) :
  forallb (fun b => idRune (byteZ b)) s = true -> ReplaceAllInvalid s repl = s.
Proof.
  intros H. unfold ReplaceAllInvalid. rewrite (@runes_ascii s (@idBytes_ascii s H)).
  induction s as [|b t IH]; [reflexivity|].
  apply andb_prop in H. destruct H as [Hb Ht].
  cbn [map flat_map fst snd]. rewrite Hb. cbn [app]. now rewrite IH.
Qed.

(** ** Words of ASCII text *)

Lemma forallb_cons_inv {A : Type} (f : A -> bool) (x : A) (l : list A) :
  forallb f (x :: l) = true -> f x = true /\ forallb f l = true.
Proof. intros H. now apply andb_prop in H. Qed.

Lemma plainByte_ascii (b : byte) : plainByte b = true -> (byteZ b <? RuneSelf) = true.
Proof. unfold plainByte. intros H. repeat (apply andb_prop in H; destruct H as [H ?]). exact H. Qed.

Lemma plainByte_notSpace (b : byte) : plainByte b = true -> asciiSpace b = false.
Proof.
  unfold plainByte. intros H. repeat (apply andb_prop in H; destruct H as [H ?]).
  now destruct (asciiSpace b).
Qed.

Lemma plain_isASCII (w : gostring) : forallb plainByte w = true -> isASCII w = true.
Proof.
  unfold isASCII. rewrite !forallb_forall. intros H b Hb. apply plainByte_ascii. now apply H.
Qed.

Lemma upperByte_plain (b : byte) : plainByte b = true -> plainByte (upperByte b) = true.
Proof. destruct b; intros H; try discriminate H; reflexivity. Qed.

Lemma lowerByte_plain (b : byte) : plainByte b = true -> plainByte (lowerByte b) = true.
Proof. destruct b; intros H; try discriminate H; reflexivity. Qed.

Lemma upperByte_idem (b : byte) : upperByte (upperByte b) = upperByte b.
Proof. destruct b; reflexivity. Qed.

Lemma lowerByte_idem (b : byte) : lowerByte (lowerByte b) = lowerByte b.
Proof. destruct b; reflexivity. Qed.

(** Reading a word: the bytes join the field being read. *)
Lemma splitFields_word (cur : option gostring) (w : gostring) (rest : list (bool * gostring)) :
  w <> [] -> forallb plainByte w = true ->
  splitFields cur (asciiChunks w ++ rest)
  = splitFields (Some (match cur with Some c => c ++ w | None => w end)) rest.
Proof.
  revert cur. induction w as [|b w IH]; intros cur Hne Hw; [congruence|].
  apply andb_prop in Hw. destruct Hw as [Hb Hw].
  cbn [asciiChunks map app splitFields]. rewrite (plainByte_notSpace _ Hb).
  destruct w as [|b' w'].
  - cbn [map app]. destruct cur; reflexivity.
  - fold (asciiChunks (b' :: w')). rewrite IH by (congruence || exact Hw).
    destruct cur; [now rewrite <- app_assoc | reflexivity].
Qed.

Lemma isASCII_app (a b : gostring) : isASCII (a ++ b) = isASCII a && isASCII b.
Proof. apply forallb_app. Qed.

Lemma isASCII_Join (ws : list gostring) :
  Forall plainWord ws -> isASCII (Join ws (str " ")) = true.
Proof.
  induction 1 as [|w ws [_ Hw] Hws IH]; [reflexivity|].
  cbn [Join]. destruct ws as [|w2 ws']; [now apply plain_isASCII|].
  rewrite !isASCII_app, IH, (plain_isASCII _ Hw). reflexivity.
Qed.

(** Splitting what [Join] put together gives the words back. *)
Lemma Fields_Join (ws : list gostring) :
  Forall plainWord ws -> Fields (Join ws (str " ")) = ws.
Proof.
  intros Hws. unfold Fields. rewrite (isASCII_Join Hws).
  fold (asciiChunks (Join ws (str " "))).
  induction Hws as [|w ws [Hne Hw] Hws IH]; [reflexivity|].
  cbn [Join]. destruct ws as [|w2 ws'].
  - rewrite <- (app_nil_r (asciiChunks w)), splitFields_word by assumption.
    reflexivity.
  - unfold asciiChunks at 1. rewrite map_app. fold (asciiChunks w).
    rewrite splitFields_word by assumption.
    change (str " ") with [" "%byte] in *.
    cbn [map app splitFields].
    change (asciiSpace " ") with true. cbn iota. f_equal. exact IH.
Qed.

Lemma nameByte_plain (b : byte) :
  nameByte b = true -> asciiSpace b = false -> plainByte b = true.
Proof.
  unfold nameByte, plainByte. intros H Hs. rewrite Hs.
  repeat (apply andb_prop in H; destruct H as [H ?]).
  repeat (apply andb_true_intro; split); auto.
Qed.

Lemma plainWord_snoc (cur : option gostring) (b : byte) :
  match cur with Some c => plainWord c | None => True end ->
  plainByte b = true ->
  plainWord (match cur with Some c => c ++ [b] | None => [b] end).
Proof.
  intros Hcur Hb. destruct cur as [c|].
  - destruct Hcur as [_ Hc]. split; [now destruct c|].
    rewrite forallb_app, Hc. simpl. now rewrite Hb.
  - split; [discriminate|]. simpl. now rewrite Hb.
Qed.

(** The fields of an ASCII name are plain words. *)
Lemma splitFields_plain (s : gostring) (cur : option gostring) :
  forallb nameByte s = true ->
  match cur with Some c => plainWord c | None => True end ->
  Forall plainWord (splitFields cur (asciiChunks s)).
Proof.
  revert cur. induction s as [|b t IH]; intros cur Hs Hcur.
  - destruct cur; simpl; auto.
  - apply andb_prop in Hs. destruct Hs as [Hb Ht].
    cbn [asciiChunks map splitFields]. destruct (asciiSpace b) eqn:Hsp.
    + destruct cur; [constructor; [exact Hcur|]|]; now apply IH.
    + apply IH; [exact Ht|].
      apply plainWord_snoc; [exact Hcur | now apply nameByte_plain].
Qed.

Lemma Join_bytes (ws : list gostring) :
  Forall plainWord ws ->
  forallb (fun b => plainByte b || Byte.eqb " " b) (Join ws (str " ")) = true.
Proof.
  induction 1 as [|w ws [_ Hw] Hws IH]; [reflexivity|].
  assert (Hw' : forallb (fun b => plainByte b || Byte.eqb " " b) w = true).
  { rewrite forallb_forall in *. intros b Hb. now rewrite (Hw b Hb). }
  cbn [Join]. destruct ws as [|w2 ws']; [exact Hw'|].
  now rewrite !forallb_app, Hw', IH.
Qed.

Lemma Replace_absent (c d : byte) (s : gostring) :
  forallb (fun b => negb (Byte.eqb c b)) s = true -> Replace s [c] [d] (-1) = s.
Proof.
  intros H. rewrite Replace_byte. rewrite <- (map_id s) at 2.
  apply map_ext_in. intros b Hb. rewrite forallb_forall in H.
  specialize (H b Hb). now destruct (Byte.eqb c b).
Qed.

(** ** The case tables matter only on the runes of the text *)

Lemma mapRest_ext (f g : rune -> rune) (cs : list (rune * gostring)) :
  Forall (fun c => f (fst c) = g (fst c)) cs -> mapRest f cs = mapRest g cs.
Proof.
  unfold mapRest. induction 1 as [|c cs Hc Hcs IH]; [reflexivity|].
  cbn [flat_map]. now rewrite Hc, IH.
Qed.

Lemma mapScan_ext (f g : rune -> rune) (cs : list (rune * gostring)) :
  Forall (fun c => f (fst c) = g (fst c)) cs -> mapScan f cs = mapScan g cs.
Proof.
  induction 1 as [|[c raw] cs Hc Hcs IH]; [reflexivity|].
  cbn [mapScan]. cbn [fst] in Hc. rewrite Hc, IH, (@mapRest_ext _ _ _ Hcs). reflexivity.
Qed.

Lemma ToUpper_ext (T T' : CaseTables) (s : gostring) :
  agreeBeyondASCII (toUpperTable T) (toUpperTable T') s -> ToUpper T s = ToUpper T' s.
Proof.
  intros H. unfold ToUpper. destruct (isASCII s); [reflexivity|].
  unfold Map. apply mapScan_ext. revert H. apply Forall_impl. intros c Hc.
  unfold unicode_ToUpper. destruct (fst c <=? MaxASCII) eqn:E; [reflexivity|].
  apply Hc. now apply Z.leb_gt.
Qed.

Lemma ToLower_ext (T T' : CaseTables) (s : gostring) :
  agreeBeyondASCII (toLowerTable T) (toLowerTable T') s -> ToLower T s = ToLower T' s.
Proof.
  intros H. unfold ToLower. destruct (isASCII s); [reflexivity|].
  unfold Map. apply mapScan_ext. revert H. apply Forall_impl. intros c Hc.
  unfold unicode_ToLower. destruct (fst c <=? MaxASCII) eqn:E; [reflexivity|].
  apply Hc. now apply Z.leb_gt.
Qed.


End Go.

(* ================================================================== *)
(** * The SVG-icons builder of the search index                       *)
(* ================================================================== *)

Module SVGIcons.
Import Go.

(** The source structure read from cluster_svg.json. [Clusters] lists the
    entries in the order in which [range cluster.Clusters] visits them. *)
Record SVGFileName := {
  FileName : gostring;
  FileDescription : gostring      (* the field Description *)
}.

Record SVGClusterEntry := {
  SourceFolder : gostring;
  FileNames : list SVGFileName
}.

Record SVGCluster := { Clusters : list SVGClusterEntry }.

Record SVGIconData := {
  ID : gostring;
  Name : gostring;
  Description : gostring;
  Path : gostring;
  Image : gostring;
  Category : gostring
}.

Inductive buildError := ReadFailed | ParseFailed | Cancelled.

Inductive result (A : Type) :=
| Ok (a : A)
| Err (e : buildError).
Arguments Err {A} e.

(** What [ioutil.ReadFile] and [json.Unmarshal] make of cluster_svg.json:
    the file cannot be read, its content cannot be parsed, or it holds a
    source structure. *)
Inductive sourceOutcome :=
| Unreadable
| Unparseable
| Source (cluster : SVGCluster).

(** What one run of the builder meets outside itself: the source file, and
    whether [ctx.Done()] is closed at the i-th poll of the loop. *)
Record Run := {
  source : sourceOutcome;
  ctxDone : nat -> bool
}.

Definition basePath : gostring := str "/freedevtools/svg_icons/".
Definition idPrefix : gostring := str "svg-icons-".

Definition lessID (a b : SVGIconData) : bool := string_lt (ID a) (ID b).

Section Builder.

(** [sanitizeID] is defined in a file of the package that is not among the
    sources: a parameter. *)
Variable sanitizeID : gostring -> gostring.
Variable T : CaseTables.
Context {sorter : SliceSorter}.

Definition generateIconIDFromPath (path : gostring) : gostring :=
  let cleanPath := Replace path basePath [] 1 in
  let cleanPath := TrimSuffix cleanPath (str "/") in
  let cleanPath := Replace cleanPath (str "/") (str "-") (-1) in
  let cleanPath := ReplaceAllInvalid cleanPath (str "_") in
  idPrefix ++ sanitizeID cleanPath.

(** The body of the loop over [words]: [word[:1]] and [word[1:]] cut at
    the first byte. *)
Definition titleWord (word : gostring) : gostring :=
  if (0 <? List.length word)%nat
  then ToUpper T (firstn 1 word) ++ ToLower T (skipn 1 word)
  else word.

Definition formatIconName (iconName : gostring) : gostring :=
  let name := Replace iconName (str "_") (str " ") (-1) in
  let name := Replace name (str "-") (str " ") (-1) in
  let words := Fields name in
  Join (map titleWord words) (str " ").

(** The body of the inner loop: the document of one file of a cluster. *)
Definition iconData (clusterEntry : SVGClusterEntry) (fileName : SVGFileName)
  : SVGIconData :=
  let iconName := TrimPrefix (FileName fileName) (str "_") in
  let iconName := TrimSuffix iconName (str ".svg") in
  let displayName := formatIconName iconName in
  let iconPath :=
    str "/freedevtools/svg_icons/" ++ SourceFolder clusterEntry ++ str "/"
    ++ iconName ++ str "/" in
  let iconID := generateIconIDFromPath iconPath in
  let description :=
    if gostring_eq_dec (FileDescription fileName) []
    then str "SVG icon for " ++ displayName
    else FileDescription fileName in
  {| ID := iconID;
     Name := displayName;
     Description := description;
     Path := iconPath;
     Image := str "/svg_icons/" ++ SourceFolder clusterEntry ++ str "/"
              ++ FileName fileName;
     Category := str "svg_icons" |}.

(** The inner loop: the documents of one cluster, in the order of its
    files. *)
Definition clusterIcons (clusterEntry : SVGClusterEntry) : list SVGIconData :=
  map (iconData clusterEntry) (FileNames clusterEntry).

(** The loop over the clusters: [i] polls so far, [svgIconsData] appended
    to so far. *)
Fixpoint processClusters (done : nat -> bool) (i : nat)
         (clusters : list SVGClusterEntry) (svgIconsData : list SVGIconData)
  : result (list SVGIconData) :=
  match clusters with
  | [] => Ok svgIconsData
  | clusterEntry :: rest =>
      if done i then Err Cancelled
      else processClusters done (S i) rest
             (svgIconsData ++ clusterIcons clusterEntry)
  end.

Definition generateSVGIconsData (run : Run) : result (list SVGIconData) :=
  match source run with
  | Unreadable => Err ReadFailed
  | Unparseable => Err ParseFailed
  | Source cluster =>
      match processClusters (ctxDone run) 0 (Clusters cluster) [] with
      | Err e => Err e
      | Ok svgIconsData => Ok (sort_Slice lessID svgIconsData)
      end
  end.

(** Every document the source structure gives rise to, in visiting order. *)
Definition allIcons (cluster : SVGCluster) : list SVGIconData :=
  flat_map clusterIcons (Clusters cluster).

End Builder.

(** ** The identifier contract in the specification's words *)

Definition stripPrefix (prefix s : gostring) : gostring :=
  if HasPrefix s prefix then skipn (List.length prefix) s else s.

(** Cut the first occurrence of [old] out of [s], wherever it stands. *)
Fixpoint removeFirst (old s : gostring) : gostring :=
  if HasPrefix s old then skipn (List.length old) s
  else match s with
       | [] => []
       | b :: t => b :: removeFirst old t
       end.

Definition trimTrailingSlash (s : gostring) : gostring :=
  match rev s with
  | "/"%byte :: r => rev r
  | _ => s
  end.

Definition slashToHyphen (b : byte) : byte :=
  if Byte.eqb b "/"%byte then "-"%byte else b.

(** Each character (rune) outside [a-zA-Z0-9-_] becomes one underscore. *)
Definition underscoreInvalid (s : gostring) : gostring :=
  flat_map (fun c => if idRune (fst c) then snd c else ["_"%byte]) (runes s).



(** The characters an identifier is made of. *)
Definition idByte (b : byte) : bool := idRune (byteZ b).

(** A sanitiser in the sense of the source's second expression: it can
    stand for the missing [sanitizeID] where a concrete one is needed. *)
Definition regexSanitizeID (s : gostring) : gostring :=
  ReplaceAllInvalid s (str "_").

(** A case table without entries beyond ASCII, for concrete runs on names
    whose runes beyond ASCII have no case. *)
Definition noCaseBeyondASCII : CaseTables :=
  {| toUpperTable := fun r => r; toLowerTable := fun r => r |}.

(** ** Concrete runs *)

Definition neverDone : nat -> bool := fun _ => false.

(** One cluster with two files whose names differ only in the leading
    marker. *)
Definition twinCluster : SVGCluster :=
  {| Clusters :=
       [ {| SourceFolder := str "arrows";
            FileNames := [ {| FileName := str "_left.svg"; FileDescription := [] |};
                           {| FileName := str "left.svg"; FileDescription := [] |} ] |} ] |}.

Definition twinRun : Run := {| source := Source twinCluster; ctxDone := neverDone |}.

Definition arrowsCluster : SVGCluster :=
  {| Clusters :=
       [ {| SourceFolder := str "arrows";
            FileNames := [ {| FileName := str "_right-arrow.svg";
                              FileDescription := str "An arrow to the right" |};
                           {| FileName := str "_left-arrow.svg";
                              FileDescription := [] |} ] |};
         {| SourceFolder := str "1password";
            FileNames := [ {| FileName := str "_1password.svg";
                              FileDescription := [] |} ] |} ] |}.

(** The same clusters, met in the other order. *)
Definition swappedCluster : SVGCluster :=
  {| Clusters := rev (Clusters arrowsCluster) |}.

Definition arrowsOutput : list SVGIconData :=
  Eval vm_compute in
    sort_Slice (SliceSorter := insertionSorter) lessID
               (allIcons regexSanitizeID noCaseBeyondASCII arrowsCluster).

(** Closes a goal [agreeBeyondASCII _ _ s] for a concrete [s] all of whose
    runes beyond ASCII are U+FFFD, from the two facts that U+FFFD has no
    case. *)
Ltac only_RuneError Hup Hlo :=
  unfold agreeBeyondASCII;
  match goal with |- Forall _ (runes ?s) =>
    let cs := eval vm_compute in (runes s) in
    change (runes s) with cs
  end;
  repeat constructor; intros _; cbn [fst noCaseBeyondASCII toUpperTable toLowerTable];
  first [exact Hup | exact Hlo].


(** ** The identifier generator *)

Lemma Replace_first (old s : gostring) :
  old <> [] -> Replace s old [] 1 = removeFirst old s.
Proof.
  intros Hold. destruct old as [|o old']; [congruence|]. clear Hold.
  unfold Replace. change (if 1 <? 0 then None else Some (Z.to_nat 1)) with (Some 1%nat).
  induction s as [|b t IH]; [reflexivity|].
  cbn [replaceFrom removeFirst].
  destruct (HasPrefix (b :: t) (o :: old')).
  - cbn [option_map Nat.pred List.length app skipn].
    rewrite replaceFrom_done.
    cbn [Nat.sub]. now rewrite ?Nat.sub_0_r.
  - now rewrite IH.
Qed.

Lemma removeFirst_prefix (old s : gostring) :
  HasPrefix s old = true -> removeFirst old s = stripPrefix old s.
Proof.
  intros H. unfold stripPrefix. rewrite H.
  destruct s; cbn [removeFirst]; now rewrite H.
Qed.


Lemma TrimSuffix_slash (s : gostring) :
  TrimSuffix s (str "/") = trimTrailingSlash s.
Proof.
  unfold trimTrailingSlash. change (str "/") with ["/"%byte].
  rewrite TrimSuffix_byte. destruct (rev s) as [|x r]; [reflexivity|].
  destruct (Byte.eqb "/" x) eqn:E.
  - apply Byte.byte_dec_bl in E. now subst x.
  - destruct x; try reflexivity. discriminate E.
Qed.

Lemma Replace_slash (s : gostring) :
  Replace s (str "/") (str "-") (-1) = map slashToHyphen s.
Proof.
  change (str "/") with ["/"%byte]. change (str "-") with ["-"%byte].
  rewrite Replace_byte. apply map_ext. intros b. unfold slashToHyphen.
  destruct b; reflexivity.
Qed.

Lemma regexSanitizeID_clean (s : gostring) :
  forallb idByte s = true -> regexSanitizeID s = s.
Proof. apply ReplaceAllInvalid_clean. Qed.





(** ** The display name *)

Section Names.
Variable T : CaseTables.

Lemma titleWord_ascii (b : byte) (w : gostring) :
  isASCII (b :: w) = true ->
  titleWord T (b :: w) = upperByte b :: map lowerByte w.
Proof.
  intros H. unfold titleWord. cbn [List.length Nat.ltb Nat.leb firstn skipn].
  change (isASCII (b :: w)) with ((byteZ b <? RuneSelf) && isASCII w) in H.
  apply andb_prop in H. destruct H as [Hb Hw].
  assert (Hb' : isASCII [b] = true) by (unfold isASCII; cbn [forallb]; now rewrite Hb).
  unfold ToUpper, ToLower. now rewrite Hw, Hb'.
Qed.

Lemma titleWord_plain (w : gostring) :
  plainWord w -> plainWord (titleWord T w) /\ titleWord T (titleWord T w) = titleWord T w.
Proof.
  intros [Hne Hw]. destruct w as [|b w]; [congruence|].
  pose proof (@plain_isASCII _ Hw) as Ha.
  rewrite (@titleWord_ascii _ _ Ha).
  apply forallb_cons_inv in Hw. destruct Hw as [Hb Hw].
  assert (Hp : forallb plainByte (upperByte b :: map lowerByte w) = true).
  { cbn [forallb]. rewrite (@upperByte_plain _ Hb). cbn [andb].
    rewrite forallb_forall in *. intros x Hx. apply in_map_iff in Hx.
    destruct Hx as (y & <- & Hy). apply lowerByte_plain. now apply Hw. }
  split; [split; [discriminate | exact Hp]|].
  rewrite (@titleWord_ascii _ _ (@plain_isASCII _ Hp)).
  rewrite upperByte_idem, map_map. f_equal. apply map_ext. apply lowerByte_idem.
Qed.

Lemma formatIconName_words (iconName : gostring) :
  isASCII iconName = true ->
  exists ws, Forall plainWord ws
             /\ map (titleWord T) ws = ws
             /\ formatIconName T iconName = Join ws (str " ").
Proof.
  intros Ha. unfold formatIconName. cbv zeta.
  change (str "_") with ["_"%byte]. change (str "-") with ["-"%byte].
  change (str " ") with [" "%byte]. rewrite !Replace_byte.
  set (name := map _ (map _ iconName)).
  assert (Hname : forallb nameByte name = true).
  { subst name. rewrite forallb_forall. intros b Hb.
    apply in_map_iff in Hb. destruct Hb as (b1 & <- & Hb1).
    apply in_map_iff in Hb1. destruct Hb1 as (b0 & <- & Hb0).
    unfold isASCII in Ha. rewrite forallb_forall in Ha. specialize (Ha b0 Hb0).
    revert Ha. destruct b0; intros Ha; try discriminate Ha; reflexivity. }
  assert (Hascii : isASCII name = true).
  { unfold isASCII. rewrite forallb_forall in *. intros b Hb. specialize (Hname b Hb).
    unfold nameByte in Hname. repeat (apply andb_prop in Hname; destruct Hname as [Hname ?]).
    exact Hname. }
  unfold Fields. rewrite Hascii. fold (asciiChunks name).
  pose proof (@splitFields_plain name None Hname I) as Hws.
  set (ws := splitFields None (asciiChunks name)) in *.
  exists (map (titleWord T) ws). split; [|split].
  - rewrite Forall_forall in *. intros w Hw. apply in_map_iff in Hw.
    destruct Hw as (w0 & <- & Hw0). now apply titleWord_plain, Hws.
  - rewrite map_map. apply map_ext_in. intros w Hw.
    rewrite Forall_forall in Hws. now apply titleWord_plain, Hws.
  - reflexivity.
Qed.

(** On ASCII names the normaliser is idempotent. *)
Theorem formatIconName_idempotent_ascii (iconName : gostring) :
  isASCII iconName = true ->
  formatIconName T (formatIconName T iconName) = formatIconName T iconName.
Proof.
  intros Ha. destruct (@formatIconName_words _ Ha) as (ws & Hws & Hfix & ->).
  unfold formatIconName. cbv zeta.
  change (str "_") with ["_"%byte]. change (str "-") with ["-"%byte].
  pose proof (@Join_bytes _ Hws) as Hb.
  pose proof (@Fields_Join _ Hws) as Hf.
  change (str " ") with [" "%byte] in *.
  assert (Hno : forall c, plainByte c = false -> Byte.eqb " " c = false ->
                forallb (fun b => negb (Byte.eqb c b)) (Join ws [" "%byte]) = true).
  { intros c Hc1 Hc2. rewrite forallb_forall in *. intros b Hin. specialize (Hb b Hin).
    destruct (Byte.eqb c b) eqn:E; [|reflexivity].
    apply Byte.byte_dec_bl in E. subst b. now rewrite Hc1, Hc2 in Hb. }
  rewrite (@Replace_absent "_" " " _ (Hno "_"%byte eq_refl eq_refl)).
  rewrite (@Replace_absent "-" " " _ (Hno "-"%byte eq_refl eq_refl)).
  now rewrite Hf, Hfix.
Qed.

End Names.

Lemma titleWord_ext (T T' : CaseTables) (word : gostring) :
  agreeBeyondASCII (toUpperTable T) (toUpperTable T') (firstn 1 word) ->
  agreeBeyondASCII (toLowerTable T) (toLowerTable T') (skipn 1 word) ->
  titleWord T word = titleWord T' word.
Proof.
  intros Hu Hl. unfold titleWord. now rewrite (@ToUpper_ext _ _ _ Hu), (@ToLower_ext _ _ _ Hl).
Qed.

(** C4, at a name outside ASCII. [formatIconName] cuts a word after its
    first byte; for the name "e-acute" (bytes C3 A9) each half is an
    invalid encoding, which [ToUpper] and [ToLower] turn into U+FFFD, and
    formatting the result again gives four of them instead of two:
    normalising twice differs from normalising once. (U+FFFD has no case,
    which is all that is asked of the tables.) *)
Theorem formatIconName_not_idempotent (T : CaseTables) :
  toUpperTable T RuneError = RuneError ->
  toLowerTable T RuneError = RuneError ->
  let x := [xc3; xa9] in
  formatIconName T x = replacementChar ++ replacementChar
  /\ formatIconName T (formatIconName T x)
     = replacementChar ++ replacementChar ++ replacementChar ++ replacementChar
  /\ formatIconName T (formatIconName T x) <> formatIconName T x.
Proof.
  intros Hup Hlo x.
  assert (E1 : formatIconName T x = formatIconName noCaseBeyondASCII x).
  { unfold formatIconName. cbv zeta.
    match goal with |- context [Fields ?n] =>
      let ws := eval vm_compute in (Fields n) in change (Fields n) with ws end.
    cbn [map]. f_equal. f_equal.
    apply titleWord_ext; only_RuneError Hup Hlo. }
  assert (V1 : formatIconName noCaseBeyondASCII x = replacementChar ++ replacementChar)
    by (vm_compute; reflexivity).
  rewrite E1, V1.
  assert (E2 : formatIconName T (replacementChar ++ replacementChar)
               = formatIconName noCaseBeyondASCII (replacementChar ++ replacementChar)).
  { unfold formatIconName. cbv zeta.
    match goal with |- context [Fields ?n] =>
      let ws := eval vm_compute in (Fields n) in change (Fields n) with ws end.
    cbn [map]. f_equal. f_equal.
    apply titleWord_ext; only_RuneError Hup Hlo. }
  rewrite E2.
  split; [reflexivity|]. split; [vm_compute; reflexivity|].
  vm_compute. discriminate.
Qed.

Lemma formatIconName_not_idempotent_witness :
  let x := [xc3; xa9] in
  formatIconName noCaseBeyondASCII x = replacementChar ++ replacementChar
  /\ formatIconName noCaseBeyondASCII (formatIconName noCaseBeyondASCII x)
     = replacementChar ++ replacementChar ++ replacementChar ++ replacementChar
  /\ formatIconName noCaseBeyondASCII (formatIconName noCaseBeyondASCII x)
     <> formatIconName noCaseBeyondASCII x.
Proof.
  exact (@formatIconName_not_idempotent noCaseBeyondASCII eq_refl eq_refl).
Defined.

(** ** The builder *)

Lemma lessID_strictWeak : strictWeak lessID.
Proof.
  split; unfold lessID.
  - intros a b. apply string_lt_asym.
  - intros a b c. apply string_le_trans.
Qed.

Section Runs.
Variable sanitizeID : gostring -> gostring.
Variable T : CaseTables.
Variable sorter : SliceSorter.

(** The loop either meets a closed [ctx.Done()] at one of its polls, or
    appends the documents of every cluster in visiting order. *)
Lemma processClusters_outcome (done : nat -> bool) (clusters : list SVGClusterEntry)
      (i : nat) (acc : list SVGIconData) :
  processClusters sanitizeID T done i clusters acc
  = if existsb done (seq i (List.length clusters))
    then Err Cancelled
    else Ok (acc ++ flat_map (clusterIcons sanitizeID T) clusters).
Proof.
  revert i acc. induction clusters as [|e rest IH]; intros i acc.
  - cbn. now rewrite app_nil_r.
  - cbn [processClusters List.length seq existsb flat_map].
    destruct (done i); [reflexivity|]. cbn [orb].
    rewrite IH. now rewrite <- app_assoc.
Qed.

Lemma NoDup_map_inj {A B : Type} (f : A -> B) (l : list A) (a b : A) :
  NoDup (map f l) -> In a l -> In b l -> f a = f b -> a = b.
Proof.
  induction l as [|x l IH]; [intros _ []|].
  cbn [map]. intros Hnd Ha Hb Hf. inversion Hnd as [|? ? Hx Hl]; subst.
  destruct Ha as [->|Ha], Hb as [->|Hb]; auto.
  - exfalso. apply Hx. rewrite Hf. now apply in_map.
  - exfalso. apply Hx. rewrite <- Hf. now apply in_map.
Qed.

(** The builder unfolded: what it returns on each kind of run. *)
Lemma generateSVGIconsData_cases (run : Run) :
  generateSVGIconsData sanitizeID T run
  = match source run with
    | Unreadable => Err ReadFailed
    | Unparseable => Err ParseFailed
    | Source cluster =>
        if existsb (ctxDone run) (seq 0 (List.length (Clusters cluster)))
        then Err Cancelled
        else Ok (sort_Slice lessID (allIcons sanitizeID T cluster))
    end.
Proof.
  unfold generateSVGIconsData.
  destruct (source run) as [| |cluster]; [reflexivity|reflexivity|].
  rewrite processClusters_outcome. now destruct (existsb _ _).
Qed.

(** C1, amended. The builder detects no duplicate id. It fails exactly
    when the source file cannot be read or parsed, or the context is
    cancelled at one of the polls; otherwise it returns every document of
    the source structure once, in ascending order of id, so that the ids of
    its output are pairwise distinct exactly when the records resolve to
    pairwise distinct ids. *)
Theorem generateSVGIconsData_outcome (run : Run) :
  match source run with
  | Unreadable => generateSVGIconsData sanitizeID T run = Err ReadFailed
  | Unparseable => generateSVGIconsData sanitizeID T run = Err ParseFailed
  | Source cluster =>
      if existsb (ctxDone run) (seq 0 (List.length (Clusters cluster)))
      then generateSVGIconsData sanitizeID T run = Err Cancelled
      else exists out,
          generateSVGIconsData sanitizeID T run = Ok out
          /\ Permutation (allIcons sanitizeID T cluster) out
          /\ sortedBy lessID out
          /\ (NoDup (map ID out) <-> NoDup (map ID (allIcons sanitizeID T cluster)))
  end.
Proof.
  rewrite generateSVGIconsData_cases.
  destruct (source run) as [| |cluster]; [reflexivity|reflexivity|].
  destruct (existsb _ _); [reflexivity|].
  exists (sort_Slice lessID (allIcons sanitizeID T cluster)).
  pose proof (sort_Slice_perm lessID (allIcons sanitizeID T cluster)) as HP.
  split; [reflexivity|]. split; [exact HP|].
  split; [apply sort_Slice_sorted, lessID_strictWeak|].
  split; apply Permutation_NoDup, Permutation_map;
    [now apply Permutation_sym | exact HP].
Qed.

End Runs.

Lemma sortedBy_map_ID (l : list SVGIconData) :
  sortedBy lessID l -> sortedBy string_lt (map ID l).
Proof.
  unfold sortedBy. induction 1 as [|a l Hl IH Ha]; cbn [map]; constructor.
  - exact IH.
  - rewrite Forall_forall in *. intros k Hk. apply in_map_iff in Hk.
    destruct Hk as (b & <- & Hb). now apply Ha.
Qed.

(** C7. Two runs of the builder over the same source structure that both
    return a result return the same ids in the same, ascending, order. This
    holds whatever the context did in between, in whatever order [range]
    visited the clusters (in case the structure is keyed) and whatever sort
    the build links. The documents themselves are equal too when the
    clusters were visited in the same order by the same build, and
    whenever the ids are pairwise distinct. *)
Theorem generateSVGIconsData_deterministic
        (sanitizeID : gostring -> gostring) (T : CaseTables)
        (sorter1 sorter2 : SliceSorter) (run1 run2 : Run)
        (cluster1 cluster2 : SVGCluster) (out1 out2 : list SVGIconData) :
  source run1 = Source cluster1 ->
  source run2 = Source cluster2 ->
  Permutation (Clusters cluster1) (Clusters cluster2) ->
  @generateSVGIconsData sanitizeID T sorter1 run1 = Ok out1 ->
  @generateSVGIconsData sanitizeID T sorter2 run2 = Ok out2 ->
  map ID out1 = map ID out2
  /\ sortedBy lessID out1
  /\ (sorter1 = sorter2 -> Clusters cluster1 = Clusters cluster2 -> out1 = out2)
  /\ (NoDup (map ID out1) -> out1 = out2).
Proof.
  intros Hp1 Hp2 Hperm H1 H2.
  rewrite generateSVGIconsData_cases in H1, H2. rewrite Hp1 in H1. rewrite Hp2 in H2.
  destruct (existsb (ctxDone run1) _); [discriminate|].
  destruct (existsb (ctxDone run2) _); [discriminate|].
  injection H1 as <-. injection H2 as <-.
  set (l1 := allIcons sanitizeID T cluster1).
  set (l2 := allIcons sanitizeID T cluster2).
  pose proof (@sort_Slice_perm sorter1 _ lessID l1) as P1.
  pose proof (@sort_Slice_perm sorter2 _ lessID l2) as P2.
  pose proof (@sort_Slice_sorted sorter1 _ lessID l1 lessID_strictWeak) as S1.
  pose proof (@sort_Slice_sorted sorter2 _ lessID l2 lessID_strictWeak) as S2.
  assert (P : Permutation (@sort_Slice sorter1 _ lessID l1)
                          (@sort_Slice sorter2 _ lessID l2)).
  { rewrite <- P1, <- P2. subst l1 l2. unfold allIcons.
    now apply Permutation_flat_map. }
  split; [|split; [exact S1|split]].
  - apply (@sorted_perm_unique _ string_lt).
    + intros a b _ _. apply string_le_antisym.
    + now apply sortedBy_map_ID.
    + now apply sortedBy_map_ID.
    + now apply Permutation_map.
  - intros <- Hsame. subst l1 l2. unfold allIcons. now rewrite Hsame.
  - intros Hnd. apply (@sorted_perm_unique _ lessID); try assumption.
    intros a b Ha Hb Hab Hba.
    apply (@NoDup_map_inj _ _ ID (@sort_Slice sorter1 _ lessID l1)); try assumption.
    unfold lessID in Hab, Hba. now apply string_le_antisym.
Qed.

Lemma generateSVGIconsData_deterministic_witness :
  map ID arrowsOutput = map ID arrowsOutput
  /\ sortedBy lessID arrowsOutput
  /\ (insertionSorter = insertionSorter ->
      Clusters arrowsCluster = Clusters swappedCluster ->
      arrowsOutput = arrowsOutput)
  /\ (NoDup (map ID arrowsOutput) -> arrowsOutput = arrowsOutput).
Proof.
  exact (@generateSVGIconsData_deterministic regexSanitizeID noCaseBeyondASCII
           insertionSorter insertionSorter
           {| source := Source arrowsCluster; ctxDone := neverDone |}
           {| source := Source swappedCluster;
              ctxDone := fun i => (2 <=? i)%nat |}
           arrowsCluster swappedCluster arrowsOutput arrowsOutput
           eq_refl eq_refl (perm_swap _ _ []) eq_refl eq_refl).
Defined.

(** C1 as stated fails: the two files of [twinCluster] resolve to the same
    id, and the build returns both documents instead of an error, whatever
    [sanitizeID] and the sort are. *)
Lemma generateSVGIconsData_keeps_duplicates :
  exists run : Run,
    forall (sanitizeID : gostring -> gostring) (T : CaseTables) (sorter : SliceSorter),
    exists out : list SVGIconData,
      generateSVGIconsData sanitizeID T run = Ok out
      /\ List.length out = 2%nat
      /\ ~ NoDup (map ID out).
Proof.
  exists twinRun. intros sanitizeID T sorter.
  rewrite generateSVGIconsData_cases. cbn [source twinRun].
  change (existsb (ctxDone twinRun) _) with false. cbv iota.
  set (icons := allIcons sanitizeID T twinCluster).
  pose proof (sort_Slice_perm lessID icons) as HP.
  exists (sort_Slice lessID icons). split; [reflexivity|]. split.
  - now rewrite <- (Permutation_length HP).
  - intros Hnd.
    apply (Permutation_NoDup (Permutation_sym (Permutation_map ID HP))) in Hnd.
    subst icons. cbn in Hnd. inversion Hnd as [|? ? Hin _]. apply Hin. now left.
Qed.

End SVGIcons.

(* ================================================================== *)
(** * JavaScript values, as far as the client uses them               *)
(* ================================================================== *)

Module JS.

(** A JavaScript string: a sequence of UTF-16 code units. *)
Definition jsstring := list N.

(** An ASCII string literal of the source. *)
Definition lit (s : string) : jsstring :=
  map N_of_ascii (list_ascii_of_string s).

Definition jsstring_eq_dec : forall a b : jsstring, {a = b} + {a <> b} :=
  list_eq_dec N.eq_dec.

(** [a === b] on strings. *)
Definition streq (a b : jsstring) : bool :=
  if jsstring_eq_dec a b then true else false.

(** WhiteSpace and LineTerminator of ECMAScript, the code units that
    [String.prototype.trim] strips. *)
Definition isWhiteSpace (c : N) : bool :=
  (((9 <=? c) && (c <=? 13)) || (c =? 32) || (c =? 0xA0) || (c =? 0x1680)
   || ((0x2000 <=? c) && (c <=? 0x200A)) || (c =? 0x2028) || (c =? 0x2029)
   || (c =? 0x202F) || (c =? 0x205F) || (c =? 0x3000) || (c =? 0xFEFF))%N.

Fixpoint trimStart (s : jsstring) : jsstring :=
  match s with
  | c :: t => if isWhiteSpace c then trimStart t else s
  | [] => []
  end.

Definition trim (s : jsstring) : jsstring :=
  rev (trimStart (rev (trimStart s))).

(** A string is truthy when it is not empty. *)
Definition truthy (s : jsstring) : bool :=
  match s with [] => false | _ :: _ => true end.

(** [Array.prototype.join]. *)
Fixpoint join (elems : list jsstring) (sep : jsstring) : jsstring :=
  match elems with
  | [] => []
  | [e] => e
  | e :: rest => e ++ sep ++ join rest sep
  end.

(** [Math.ceil(a / b)] for integers [a] and a positive integer [b]. *)
Definition ceilDiv (a b : Z) : Z := - ((- a) / b).

End JS.

(* ================================================================== *)
(** * The search client: SearchPage.tsx                               *)
(* ================================================================== *)

Module Search.
Import JS.

Record SearchResult := {
  id : option jsstring;
  title : option jsstring;
  name : option jsstring;
  description : option jsstring;
  category : option jsstring;
  path : option jsstring;
  code : option jsstring;
  image : option jsstring
}.

(** [facetDistribution?.category]: the counts by category, in key order,
    when the response carries them. Numbers are the integers the service
    counts with. *)
Record SearchResponse := {
  hits : list SearchResult;
  response_query : jsstring;
  processingTimeMs : Z;
  response_limit : Z;
  response_offset : Z;
  estimatedTotalHits : Z;
  facetDistribution_category : option (list (jsstring * Z))
}.

(** The body of the POST request. *)
Record SearchBody := {
  q : jsstring;
  limit : Z;
  offset : Z;
  facets : list jsstring;
  attributesToRetrieve : list jsstring;
  filter : option jsstring
}.

(** ** searchUtilities *)

Definition filterCondition (category : jsstring) : jsstring :=
  if streq category (lit "emoji") then lit "category = 'emojis'"
  else lit "category = '" ++ category ++ lit "'".

Definition searchFilter (categories : list jsstring) : option jsstring :=
  if (0 <? List.length categories)%nat then
    let filterConditions := map filterCondition categories in
    if (List.length filterConditions =? 1)%nat
    then Some (hd [] filterConditions)
    else Some (join filterConditions (lit " OR "))
  else None.

Definition searchBody (query : jsstring) (categories : list jsstring) (page : Z)
  : SearchBody :=
  {| q := query;
     limit := 100;
     offset := (page - 1) * 100;
     facets := [lit "category"];
     attributesToRetrieve :=
       [lit "id"; lit "name"; lit "title"; lit "description"; lit "category";
        lit "path"; lit "image"; lit "code"];
     filter := searchFilter categories |}.

(** How the fetch of a request ends. *)
Inductive fetchOutcome :=
| NetworkError                      (* fetch rejects *)
| NotOk (statusText : jsstring)     (* response.ok is false *)
| BadJson                           (* response.json() rejects *)
| Success (data : SearchResponse).

Definition failed (outcome : fetchOutcome) : bool :=
  match outcome with Success _ => false | _ => true end.

(** The object of the [catch] branch. *)
Definition emptyResponse : SearchResponse :=
  {| hits := [];
     response_query := [];
     processingTimeMs := 0;
     response_limit := 0;
     response_offset := 0;
     estimatedTotalHits := 0;
     facetDistribution_category := None |}.

(** [searchUtilities], with the service it posts to as [fetch]: what the
    returned promise resolves to. It never rejects. *)
Definition searchUtilities (query : jsstring) (categories : list jsstring)
           (page : Z) (fetch : SearchBody -> fetchOutcome) : SearchResponse :=
  match fetch (searchBody query categories page) with
  | Success data => data
  | NetworkError | NotOk _ | BadJson => emptyResponse
  end.

(** ** The component state *)

Record SearchInfo := {
  totalHits : Z;
  processingTime : Z;
  facetTotal : Z
}.

Record State := {
  query : jsstring;
  results : list SearchResult;
  searchInfo : option SearchInfo;
  loading : bool;
  loadingMore : bool;
  activeCategory : jsstring;
  selectedCategories : list jsstring;
  currentPage : Z;
  allResults : list SearchResult;
  availableCategories : list (jsstring * Z)
}.

(** The values of [useState] at the first render. *)
Definition initialState : State :=
  {| query := [];
     results := [];
     searchInfo := None;
     loading := false;
     loadingMore := false;
     activeCategory := lit "all";
     selectedCategories := [];
     currentPage := 1;
     allResults := [];
     availableCategories := [] |}.

(** The setters of [useState]. *)
Definition setQuery (v : jsstring) (s : State) : State :=
  {| query := v; results := results s; searchInfo := searchInfo s;
     loading := loading s; loadingMore := loadingMore s;
     activeCategory := activeCategory s;
     selectedCategories := selectedCategories s;
     currentPage := currentPage s; allResults := allResults s;
     availableCategories := availableCategories s |}.

Definition setResults (v : list SearchResult) (s : State) : State :=
  {| query := query s; results := v; searchInfo := searchInfo s;
     loading := loading s; loadingMore := loadingMore s;
     activeCategory := activeCategory s;
     selectedCategories := selectedCategories s;
     currentPage := currentPage s; allResults := allResults s;
     availableCategories := availableCategories s |}.

Definition setSearchInfo (v : option SearchInfo) (s : State) : State :=
  {| query := query s; results := results s; searchInfo := v;
     loading := loading s; loadingMore := loadingMore s;
     activeCategory := activeCategory s;
     selectedCategories := selectedCategories s;
     currentPage := currentPage s; allResults := allResults s;
     availableCategories := availableCategories s |}.

Definition setLoading (v : bool) (s : State) : State :=
  {| query := query s; results := results s; searchInfo := searchInfo s;
     loading := v; loadingMore := loadingMore s;
     activeCategory := activeCategory s;
     selectedCategories := selectedCategories s;
     currentPage := currentPage s; allResults := allResults s;
     availableCategories := availableCategories s |}.

Definition setLoadingMore (v : bool) (s : State) : State :=
  {| query := query s; results := results s; searchInfo := searchInfo s;
     loading := loading s; loadingMore := v;
     activeCategory := activeCategory s;
     selectedCategories := selectedCategories s;
     currentPage := currentPage s; allResults := allResults s;
     availableCategories := availableCategories s |}.

Definition setActiveCategory (v : jsstring) (s : State) : State :=
  {| query := query s; results := results s; searchInfo := searchInfo s;
     loading := loading s; loadingMore := loadingMore s;
     activeCategory := v;
     selectedCategories := selectedCategories s;
     currentPage := currentPage s; allResults := allResults s;
     availableCategories := availableCategories s |}.

Definition setSelectedCategories (v : list jsstring) (s : State) : State :=
  {| query := query s; results := results s; searchInfo := searchInfo s;
     loading := loading s; loadingMore := loadingMore s;
     activeCategory := activeCategory s;
     selectedCategories := v;
     currentPage := currentPage s; allResults := allResults s;
     availableCategories := availableCategories s |}.

Definition setCurrentPage (v : Z) (s : State) : State :=
  {| query := query s; results := results s; searchInfo := searchInfo s;
     loading := loading s; loadingMore := loadingMore s;
     activeCategory := activeCategory s;
     selectedCategories := selectedCategories s;
     currentPage := v; allResults := allResults s;
     availableCategories := availableCategories s |}.

Definition setAllResults (v : list SearchResult) (s : State) : State :=
  {| query := query s; results := results s; searchInfo := searchInfo s;
     loading := loading s; loadingMore := loadingMore s;
     activeCategory := activeCategory s;
     selectedCategories := selectedCategories s;
     currentPage := currentPage s; allResults := v;
     availableCategories := availableCategories s |}.

Definition setAvailableCategories (v : list (jsstring * Z)) (s : State) : State :=
  {| query := query s; results := results s; searchInfo := searchInfo s;
     loading := loading s; loadingMore := loadingMore s;
     activeCategory := activeCategory s;
     selectedCategories := selectedCategories s;
     currentPage := currentPage s; allResults := allResults s;
     availableCategories := v |}.

(** ** What a render derives from the state *)

Definition getEffectiveCategories (s : State) : list jsstring :=
  if streq (activeCategory s) (lit "all") then []
  else if streq (activeCategory s) (lit "multi") then selectedCategories s
  else [activeCategory s].

Definition totalPages (s : State) : Z :=
  match searchInfo s with
  | Some info => ceilDiv (totalHits info) 100
  | None => 1
  end.

Definition hasMoreResults (s : State) : bool := currentPage s <? totalPages s.

(** ** The handlers *)

Definition handleCategoryClick (category : jsstring) (s : State) : State :=
  if streq category (lit "all")
  then setSelectedCategories [] (setActiveCategory (lit "all") s)
  else setSelectedCategories [category] (setActiveCategory category s).

Definition handleCategoryRightClick (category : jsstring) (s : State) : State :=
  if streq category (lit "all")
  then setSelectedCategories [] (setActiveCategory (lit "all") s)
  else
    let isSelected := existsb (streq category) (selectedCategories s) in
    if isSelected then
      let newSelection :=
        List.filter (fun cat => negb (streq cat category)) (selectedCategories s) in
      let s := setSelectedCategories newSelection s in
      if (List.length newSelection =? 0)%nat
      then setActiveCategory (lit "all") s
      else setActiveCategory (lit "multi") s
    else
      let newSelection := selectedCategories s ++ [category] in
      setActiveCategory (lit "multi") (setSelectedCategories newSelection s).

Definition clearResults (s : State) : State :=
  setSelectedCategories []
    (setActiveCategory (lit "all")
       (setCurrentPage 1 (setAllResults [] (setResults [] (setQuery [] s))))).

(** ** Timer, fetches in flight, and the transitions *)

(** The callback handed to [setTimeout]: it closes over the query and the
    categories of the render that scheduled it. *)
Record Closure := {
  c_query : jsstring;
  c_categories : list jsstring
}.

Inductive Continuation :=
| FirstPage                 (* awaited in the debounced search *)
| NextPage (nextPage : Z).  (* awaited in loadMoreResults *)

(** A call of [searchUtilities] whose fetch has not ended yet. *)
Record Request := {
  r_query : jsstring;
  r_categories : list jsstring;
  r_page : Z;
  r_then : Continuation
}.

(** What the call of [searchUtilities] behind [r] resolves to when its
    fetch ends with [outcome]. *)
Definition resolved (r : Request) (outcome : fetchOutcome) : SearchResponse :=
  searchUtilities (r_query r) (r_categories r) (r_page r) (fun _ => outcome).

Record World := {
  ui : State;
  timer : option Closure;
  inFlight : list Request
}.

Definition initialWorld : World :=
  {| ui := initialState; timer := None; inFlight := [] |}.

Definition withUI (f : State -> State) (w : World) : World :=
  {| ui := f (ui w); timer := timer w; inFlight := inFlight w |}.

Definition blank (s : jsstring) : bool := negb (truthy (trim s)).

(** The effect on [query, activeCategory, selectedCategories]: its cleanup
    clears the timer of the previous run; then a blank query clears the
    results, any other query schedules the search. *)
Definition searchEffect (w : World) : World :=
  if blank (query (ui w))
  then {| ui := setSearchInfo None (setResults [] (ui w));
          timer := None;
          inFlight := inFlight w |}
  else {| ui := ui w;
          timer := Some {| c_query := query (ui w);
                           c_categories := getEffectiveCategories (ui w) |};
          inFlight := inFlight w |}.

(** The effect on [activeCategory, selectedCategories]. *)
Definition resetEffect (w : World) : World :=
  withUI (fun s => setSearchInfo None
                     (setAllResults [] (setResults [] (setCurrentPage 1 s)))) w.

(** The timer callback up to its [await]. *)
Definition timerCallback (c : Closure) (w : World) : World :=
  {| ui := setAvailableCategories [] (setCurrentPage 1 (setLoading true (ui w)));
     timer := None;
     inFlight := inFlight w
                 ++ [ {| r_query := c_query c; r_categories := c_categories c;
                         r_page := 1; r_then := FirstPage |} ] |}.

Definition facetSum (searchResponse : SearchResponse) : Z :=
  match facetDistribution_category searchResponse with
  | Some counts => fold_left (fun sum kv => sum + snd kv) counts 0
  | None => 0
  end.

(** The timer callback after its [await]. *)
Definition afterFirstPage (searchResponse : SearchResponse) (s : State) : State :=
  let s := setResults (hits searchResponse) s in
  let s := setAllResults (hits searchResponse) s in
  let facetTotal := facetSum searchResponse in
  let s := match facetDistribution_category searchResponse with
           | Some counts => setAvailableCategories counts s
           | None => s
           end in
  let s := setSearchInfo
             (Some {| totalHits := if 0 <? facetTotal then facetTotal
                                   else estimatedTotalHits searchResponse;
                      processingTime := processingTimeMs searchResponse;
                      facetTotal := facetTotal |}) s in
  setLoading false s.

(** [loadMoreResults] up to its [await]. *)
Definition loadMoreResults (w : World) : World :=
  if negb (hasMoreResults (ui w)) || loadingMore (ui w) then w
  else
    let nextPage := currentPage (ui w) + 1 in
    {| ui := setLoadingMore true (ui w);
       timer := timer w;
       inFlight := inFlight w
                   ++ [ {| r_query := query (ui w);
                           r_categories := getEffectiveCategories (ui w);
                           r_page := nextPage;
                           r_then := NextPage nextPage |} ] |}.

(** [loadMoreResults] after its [await]. *)
Definition afterNextPage (nextPage : Z) (searchResponse : SearchResponse)
           (s : State) : State :=
  let newResults := hits searchResponse in
  let s := setAllResults (allResults s ++ newResults) s in
  let s := setResults (results s ++ newResults) s in
  let s := setCurrentPage nextPage s in
  setLoadingMore false s.

Fixpoint removeNth {A : Type} (n : nat) (l : list A) : list A :=
  match n, l with
  | _, [] => []
  | O, _ :: t => t
  | S k, x :: t => x :: removeNth k t
  end.

(** The condition under which the "View all results" button is shown. *)
Definition viewAllShown (s : State) : bool :=
  negb (loading s)
  && (0 <? List.length (results s))%nat
  && (List.length (allResults s) =? 0)%nat.

Inductive Event :=
| QueryChanged (newQuery : jsstring)        (* setQuery from the search box or the hash *)
| CategoryClick (category : jsstring)
| CategoryRightClick (category : jsstring)
| ClearResults                              (* Escape, or the button *)
| ViewAllClick
| TimerFires                                (* 300 ms after the last scheduling *)
| LoadMoreClick
| Response (n : nat) (outcome : fetchOutcome).  (* the n-th fetch in flight ends *)

(** One event, with the effects that the render after it runs. Handlers
    and effects read the state of the latest render. A state setter called
    with the present value of a string leaves the state as it is; one
    called with a new array changes it, so the handlers of the category
    buttons always re-run the two effects that depend on
    [selectedCategories]. The events are offered in every state: the
    component hides its buttons while the query is blank, which can only
    take transitions away. *)
Definition step (w : World) (e : Event) : World :=
  match e with
  | QueryChanged newQuery =>
      if streq newQuery (query (ui w)) then w
      else searchEffect (withUI (setQuery newQuery) w)
  | CategoryClick category =>
      resetEffect (searchEffect (withUI (handleCategoryClick category) w))
  | CategoryRightClick category =>
      resetEffect (searchEffect (withUI (handleCategoryRightClick category) w))
  | ClearResults =>
      resetEffect (searchEffect (withUI clearResults w))
  | ViewAllClick =>
      if viewAllShown (ui w) && negb (streq (activeCategory (ui w)) (lit "all"))
      then resetEffect (searchEffect (withUI (setActiveCategory (lit "all")) w))
      else w
  | TimerFires =>
      match timer w with
      | Some c => timerCallback c w
      | None => w
      end
  | LoadMoreClick => loadMoreResults w
  | Response n outcome =>
      match nth_error (inFlight w) n with
      | None => w
      | Some r =>
          let searchResponse := resolved r outcome in
          {| ui := match r_then r with
                   | FirstPage => afterFirstPage searchResponse (ui w)
                   | NextPage nextPage => afterNextPage nextPage searchResponse (ui w)
                   end;
             timer := timer w;
             inFlight := removeNth n (inFlight w) |}
      end
  end.

Definition run (events : list Event) : World := fold_left step events initialWorld.



(** ** The filter in the specification's words *)

(** The literal a category is stored under. *)
Definition categoryLiteral (category : jsstring) : jsstring :=
  if streq category (lit "emoji") then lit "emojis" else category.

Definition equalityPredicate (category : jsstring) : jsstring :=
  lit "category = '" ++ categoryLiteral category ++ lit "'".

(** [p1 OR p2 OR ... OR pn], in the order given. *)
Fixpoint orDisjunction (p : jsstring) (ps : list jsstring) : jsstring :=
  match ps with
  | [] => p
  | p' :: ps' => p ++ lit " OR " ++ orDisjunction p' ps'
  end.

(** ** The category selection *)

(** The operations that set the selection. *)
Inductive SelectionOp :=
| LeftClick (category : jsstring)
| RightClick (category : jsstring)
| Clear.

Definition applySelectionOp (s : State) (op : SelectionOp) : State :=
  match op with
  | LeftClick category => handleCategoryClick category s
  | RightClick category => handleCategoryRightClick category s
  | Clear => clearResults s
  end.

(** No category is selected exactly when the active category is "all". *)
Definition selectionInv (s : State) : Prop :=
  selectedCategories s = [] <-> activeCategory s = lit "all".

(** ** The result lists *)

(** Results are shown only while some are accumulated, so the "View all
    results" button never shows. *)
Definition resultsInv (s : State) : Prop :=
  results s <> [] -> allResults s <> [].

(** ** A search service over a fixed corpus, for concrete sessions *)

Definition doc (i : nat) : SearchResult :=
  {| id := Some (lit "doc-" ++ [N.of_nat i]);
     title := None;
     name := Some (lit "Document");
     description := None;
     category := Some (lit "tools");
     path := None;
     code := None;
     image := None |}.

Definition corpus (n : nat) : list SearchResult := map doc (seq 1 n).

(** The answer of the service to a request body: the page of the corpus at
    the offset, with the totals. *)
Definition serve (documents : list SearchResult) (body : SearchBody)
  : SearchResponse :=
  {| hits := firstn (Z.to_nat (limit body))
                    (skipn (Z.to_nat (offset body)) documents);
     response_query := q body;
     processingTimeMs := 0;
     response_limit := limit body;
     response_offset := offset body;
     estimatedTotalHits := Z.of_nat (List.length documents);
     facetDistribution_category :=
       Some [(lit "tools", Z.of_nat (List.length documents))] |}.

Definition requestBody (r : Request) : SearchBody :=
  searchBody (r_query r) (r_categories r) (r_page r).

(** The oldest fetch in flight is answered by the service. *)
Definition served (documents : list SearchResult) (w : World) : World :=
  match inFlight w with
  | r :: _ => step w (Response 0 (Success (serve documents (requestBody r))))
  | [] => w
  end.

(** ** Pagination *)

(** The total in the specification's words: the sum of the category
    counts when it is positive, else the estimate of the service. *)
Definition sumCounts (counts : list (jsstring * Z)) : Z :=
  fold_right Z.add 0 (map snd counts).

Definition expectedTotal (data : SearchResponse) : Z :=
  let facetTotal :=
    match facetDistribution_category data with
    | Some counts => sumCounts counts
    | None => 0
    end in
  if 0 <? facetTotal then facetTotal else estimatedTotalHits data.

(** The session of the pagination property: 250 matching documents, the
    first page and two more. *)
Definition page1of250 : World :=
  served (corpus 250) (run [QueryChanged (lit "a"); TimerFires]).
Definition page2of250 : World :=
  served (corpus 250) (step page1of250 LoadMoreClick).
Definition page3of250 : World :=
  served (corpus 250) (step page2of250 LoadMoreClick).

(** ** Load more *)

(** The session of the defect: the first page of 250 documents is loaded,
    the fetch of the second page fails, the user asks for more again. *)
Definition page2failed : World :=
  step (step page1of250 LoadMoreClick) (Response 0 NetworkError).
Definition pageAfterFailure : World :=
  served (corpus 250) (step page2failed LoadMoreClick).

(** ** A failed search *)

(** What the service answers when nothing matches the query "a". *)
Definition zeroHits : SearchResponse :=
  {| hits := [];
     response_query := lit "a";
     processingTimeMs := 0;
     response_limit := 100;
     response_offset := 0;
     estimatedTotalHits := 0;
     facetDistribution_category := Some [] |}.

(** The search for "a" is in flight. *)
Definition searching : World := run [QueryChanged (lit "a"); TimerFires].

(** The requirement of an explicit failure state: something the component
    holds tells a failed search from a search without hits. *)
Definition failureIsVisible : Prop :=
  exists searchFailed : World -> bool,
    forall (w : World) (n : nat) (r : Request),
      nth_error (inFlight w) n = Some r ->
      (forall outcome, failed outcome = true ->
                       searchFailed (step w (Response n outcome)) = true)
      /\ (forall data, hits data = [] ->
                       searchFailed (step w (Response n (Success data))) = false).

(** ** Responses that arrive late *)






(** ** The filter *)

Lemma streq_true (a b : jsstring) : streq a b = true <-> a = b.
Proof. unfold streq. destruct (jsstring_eq_dec a b); split; congruence. Qed.

Lemma streq_false (a b : jsstring) : streq a b = false <-> a <> b.
Proof. unfold streq. destruct (jsstring_eq_dec a b); split; congruence. Qed.

Lemma streq_refl (a : jsstring) : streq a a = true.
Proof. now apply streq_true. Qed.

Lemma filterCondition_predicate (category : jsstring) :
  filterCondition category = equalityPredicate category.
Proof.
  unfold filterCondition, equalityPredicate, categoryLiteral.
  destruct (streq category (lit "emoji")); reflexivity.
Qed.

Lemma join_orDisjunction (p : jsstring) (ps : list jsstring) :
  join (p :: ps) (lit " OR ") = orDisjunction p ps.
Proof.
  revert p. induction ps as [|p' ps IH]; intros p; [reflexivity|].
  cbn [orDisjunction]. rewrite <- IH. reflexivity.
Qed.

(** C5. The request carries no filter when no category is selected, the
    equality predicate of the one selected category, or the OR-disjunction
    of the predicates of the selected categories in the order of the list;
    the category "emoji" is written with the literal 'emojis', any other
    with its own label; and a right click on a category that is not
    selected puts it last in the list, so that the list is in selection
    order. *)
Theorem searchFilter_by_selection (query : jsstring) (categories : list jsstring)
        (page : Z) :
  filter (searchBody query categories page)
  = match categories with
    | [] => None
    | [category] => Some (equalityPredicate category)
    | category :: others =>
        Some (orDisjunction (equalityPredicate category)
                            (map equalityPredicate others))
    end
  /\ equalityPredicate (lit "emoji") = lit "category = 'emojis'"
  /\ (forall category, category <> lit "emoji" ->
      equalityPredicate category = lit "category = '" ++ category ++ lit "'")
  /\ (forall (s : State) (category : jsstring),
      category <> lit "all" ->
      existsb (streq category) (selectedCategories s) = false ->
      getEffectiveCategories (handleCategoryRightClick category s)
      = selectedCategories s ++ [category]).
Proof.
  split; [|split; [|split]].
  - cbn [searchBody filter]. unfold searchFilter.
    destruct categories as [|c [|c' cs]]; cbn [List.length Nat.ltb Nat.leb].
    + reflexivity.
    + cbn. now rewrite filterCondition_predicate.
    + cbv zeta. rewrite length_map. cbn [List.length Nat.eqb].
      rewrite (map_ext _ _ filterCondition_predicate).
      cbn [map]. now rewrite join_orDisjunction.
  - reflexivity.
  - intros category Hc. unfold equalityPredicate, categoryLiteral.
    apply streq_false in Hc. now rewrite Hc.
  - intros s category Hc Hnew. unfold handleCategoryRightClick.
    apply streq_false in Hc. rewrite Hc, Hnew. reflexivity.
Qed.

Example searchFilter_multi :
  searchFilter [lit "tools"; lit "emoji"; lit "tldr"]
  = Some (lit "category = 'tools' OR category = 'emojis' OR category = 'tldr'").
Proof. reflexivity. Qed.

(** ** The category selection *)

Lemma multi_not_all : lit "multi" <> lit "all".
Proof. discriminate. Qed.

Lemma selectionInv_initial : selectionInv initialState.
Proof. split; reflexivity. Qed.

Lemma selectionInv_all (s : State) :
  selectionInv (setSelectedCategories [] (setActiveCategory (lit "all") s)).
Proof. split; reflexivity. Qed.

Lemma handleCategoryClick_inv (category : jsstring) (s : State) :
  selectionInv (handleCategoryClick category s).
Proof.
  unfold handleCategoryClick. destruct (streq category (lit "all")) eqn:E.
  - apply selectionInv_all.
  - apply streq_false in E. split; cbn [selectedCategories activeCategory setSelectedCategories setActiveCategory];
      [discriminate | intros H; now elim E].
Qed.

Lemma handleCategoryRightClick_inv (category : jsstring) (s : State) :
  selectionInv (handleCategoryRightClick category s).
Proof.
  unfold handleCategoryRightClick. destruct (streq category (lit "all")).
  - apply selectionInv_all.
  - cbv zeta. destruct (existsb (streq category) (selectedCategories s)).
    + destruct (List.filter _ (selectedCategories s)) as [|c cs] eqn:F; cbn.
      * split; reflexivity.
      * split; [discriminate | intros H; now apply multi_not_all in H].
    + split; cbn; [|intros H; now apply multi_not_all in H].
      intros H. now apply app_eq_nil in H.
Qed.

Lemma clearResults_inv (s : State) : selectionInv (clearResults s).
Proof. split; reflexivity. Qed.

Lemma applySelectionOp_inv (s : State) (op : SelectionOp) :
  selectionInv (applySelectionOp s op).
Proof.
  destruct op; [apply handleCategoryClick_inv | apply handleCategoryRightClick_inv
               | apply clearResults_inv].
Qed.

Lemma getEffectiveCategories_nil (s : State) :
  selectionInv s ->
  (getEffectiveCategories s = [] <-> activeCategory s = lit "all").
Proof.
  intros Hinv. unfold getEffectiveCategories.
  destruct (streq (activeCategory s) (lit "all")) eqn:Eall.
  - apply streq_true in Eall. tauto.
  - apply streq_false in Eall.
    destruct (streq (activeCategory s) (lit "multi")).
    + unfold selectionInv in Hinv. tauto.
    + split; [discriminate | contradiction].
Qed.

(** C10. After any sequence of left clicks, right clicks and clearings from
    the initial state, no category is selected exactly when the active
    category is "all", and the effective categories are empty exactly then
    (so they are non-empty for any other active category). *)
Theorem selection_invariant (ops : list SelectionOp) :
  let s := fold_left applySelectionOp ops initialState in
  (selectedCategories s = [] <-> activeCategory s = lit "all")
  /\ (getEffectiveCategories s = [] <-> activeCategory s = lit "all")
  /\ (activeCategory s <> lit "all" -> getEffectiveCategories s <> []).
Proof.
  cbv zeta.
  assert (Hinv : selectionInv (fold_left applySelectionOp ops initialState)).
  { induction ops as [|op ops IH] using rev_ind.
    - apply selectionInv_initial.
    - rewrite fold_left_app. apply applySelectionOp_inv. }
  pose proof (@getEffectiveCategories_nil _ Hinv) as Heff.
  split; [exact Hinv|]. split; [exact Heff|]. tauto.
Qed.

(** ** The result lists *)

Lemma viewAllShown_false (s : State) : resultsInv s -> viewAllShown s = false.
Proof.
  unfold resultsInv, viewAllShown. intros H.
  destruct (results s) as [|x xs]; [now rewrite andb_false_r|].
  destruct (allResults s) as [|y ys]; [exfalso; now apply H|].
  now rewrite andb_false_r.
Qed.

Lemma step_invariants (w : World) (e : Event) :
  selectionInv (ui w) -> resultsInv (ui w) ->
  selectionInv (ui (step w e)) /\ resultsInv (ui (step w e)).
Proof.
  intros Hsel Hres.
  assert (Heffects : forall w', selectionInv (ui w') ->
            selectionInv (ui (resetEffect (searchEffect w')))
            /\ resultsInv (ui (resetEffect (searchEffect w')))).
  { intros w' H. unfold resetEffect, searchEffect, withUI.
    destruct (blank (query (ui w'))); (split; [exact H | intros C; now elim C]). }
  destruct e as [newQuery|category|category| | | | |n outcome]; cbn [step].
  - destruct (streq newQuery (query (ui w))); [tauto|].
    unfold searchEffect, withUI. cbn [ui].
    destruct (blank _); cbn; split; auto. intros C; now elim C.
  - apply Heffects. apply handleCategoryClick_inv.
  - apply Heffects. apply handleCategoryRightClick_inv.
  - apply Heffects. apply clearResults_inv.
  - rewrite (viewAllShown_false Hres). cbn [andb]. tauto.
  - destruct (timer w); [|tauto]. split; [exact Hsel | exact Hres].
  - unfold loadMoreResults. destruct (_ || _); [tauto|]. split; [exact Hsel | exact Hres].
  - destruct (nth_error (inFlight w) n) as [r|]; [|tauto].
    cbn [ui]. destruct (r_then r) as [|nextPage].
    + split.
      * unfold afterFirstPage. cbv zeta.
        destruct (facetDistribution_category _); exact Hsel.
      * unfold resultsInv, afterFirstPage. cbv zeta.
        destruct (facetDistribution_category _); cbn; auto.
    + split; [exact Hsel|].
      unfold resultsInv, afterNextPage. cbn. intros H C.
      apply app_eq_nil in C. destruct C as [C1 C2]. rewrite C2, app_nil_r in H.
      now apply Hres in H.
Qed.

(** The invariants hold in every state the component can reach, whatever
    the order of events and responses. *)
Lemma run_invariants (events : list Event) :
  selectionInv (ui (run events)) /\ resultsInv (ui (run events)).
Proof.
  unfold run. induction events as [|e events IH] using rev_ind.
  - split; [apply selectionInv_initial | intros C; now elim C].
  - rewrite fold_left_app. cbn [fold_left]. destruct IH. now apply step_invariants.
Qed.

(** ** Pagination *)

Lemma ceilDiv_lt (p t : Z) : (p <? ceilDiv t 100) = (p * 100 <? t).
Proof.
  unfold ceilDiv.
  destruct (p * 100 <? t) eqn:E; [apply Z.ltb_lt in E; apply Z.ltb_lt
                                 |apply Z.ltb_ge in E; apply Z.ltb_ge];
    Z.div_mod_to_equations; lia.
Qed.

Lemma hasMoreResults_loaded (s : State) (info : SearchInfo) :
  searchInfo s = Some info ->
  hasMoreResults s = (currentPage s * 100 <? totalHits info).
Proof.
  intros H. unfold hasMoreResults, totalPages. rewrite H. apply ceilDiv_lt.
Qed.

Lemma fold_left_counts (counts : list (jsstring * Z)) (acc : Z) :
  fold_left (fun sum kv => sum + snd kv) counts acc = acc + sumCounts counts.
Proof.
  revert acc. induction counts as [|kv counts IH]; intros acc; cbn; [lia|].
  rewrite IH. unfold sumCounts. lia.
Qed.

Lemma afterFirstPage_total (data : SearchResponse) (s0 : State) :
  exists info, searchInfo (afterFirstPage data s0) = Some info
               /\ totalHits info = expectedTotal data.
Proof.
  unfold afterFirstPage, expectedTotal, facetSum. cbv zeta.
  destruct (facetDistribution_category data) as [counts|]; cbn [searchInfo setLoading setSearchInfo].
  - eexists. split; [reflexivity|]. cbn [totalHits].
    now rewrite fold_left_counts, Z.add_0_l.
  - eexists. split; reflexivity.
Qed.

Lemma doc_injective (i j : nat) : doc i = doc j -> i = j.
Proof. intros H. injection H as H. now apply Nat2N.inj in H. Qed.

Lemma corpus_NoDup (n : nat) : NoDup (corpus n).
Proof.
  unfold corpus. apply Finite.Injective_map_NoDup; [|apply seq_NoDup].
  intros i j. apply doc_injective.
Qed.

(** C6. In a state loaded from a first page, [hasMoreResults] is
    [currentPage * 100 < total], the total being the sum of the category
    counts of the response when positive and the estimated total of the
    service otherwise; with 250 matching documents it is true after pages
    1 and 2 and false after page 3, when the 250 documents are accumulated
    once each. *)
Theorem hasMoreResults_rule (data : SearchResponse) (s0 s : State) :
  searchInfo s = searchInfo (afterFirstPage data s0) ->
  hasMoreResults s = (currentPage s * 100 <? expectedTotal data)
  /\ (hasMoreResults (ui page1of250) = true
      /\ hasMoreResults (ui page2of250) = true
      /\ hasMoreResults (ui page3of250) = false
      /\ currentPage (ui page3of250) = 3
      /\ allResults (ui page3of250) = corpus 250
      /\ NoDup (allResults (ui page3of250))).
Proof.
  intros H. split.
  - destruct (afterFirstPage_total data s0) as (info & Hinfo & Htotal).
    rewrite Hinfo in H. rewrite (@hasMoreResults_loaded s info H). now rewrite Htotal.
  - assert (E : allResults (ui page3of250) = corpus 250) by (vm_compute; reflexivity).
    repeat split; try (vm_compute; reflexivity).
    rewrite E. apply corpus_NoDup.
Qed.

Lemma hasMoreResults_rule_witness :
  hasMoreResults (ui page2of250)
  = (currentPage (ui page2of250) * 100
     <? expectedTotal (serve (corpus 250) (searchBody (lit "a") [] 1)))
  /\ (hasMoreResults (ui page1of250) = true
      /\ hasMoreResults (ui page2of250) = true
      /\ hasMoreResults (ui page3of250) = false
      /\ currentPage (ui page3of250) = 3
      /\ allResults (ui page3of250) = corpus 250
      /\ NoDup (allResults (ui page3of250))).
Proof.
  apply (@hasMoreResults_rule (serve (corpus 250) (searchBody (lit "a") [] 1))
           initialState (ui page2of250)).
  vm_compute. reflexivity.
Defined.

(** ** Load more *)

(** While a further page is being fetched, or when there is none, the
    load-more operation changes nothing. *)
Lemma loadMoreResults_guard (w : World) :
  loadingMore (ui w) = true \/ hasMoreResults (ui w) = false ->
  step w LoadMoreClick = w.
Proof.
  intros H. cbn [step]. unfold loadMoreResults.
  destruct H as [-> | ->]; [now rewrite orb_true_r | reflexivity].
Qed.

(** A further page whose fetch fails still advances the counter, and adds
    nothing. *)
Lemma afterNextPage_failed (w : World) (n : nat) (r : Request) (nextPage : Z)
      (outcome : fetchOutcome) :
  nth_error (inFlight w) n = Some r -> r_then r = NextPage nextPage ->
  failed outcome = true ->
  let s := ui (step w (Response n outcome)) in
  currentPage s = nextPage /\ allResults s = allResults (ui w)
  /\ results s = results (ui w).
Proof.
  intros Hr Hthen Hfail. cbn [step]. rewrite Hr. cbn [ui]. rewrite Hthen.
  assert (E : resolved r outcome = emptyResponse)
    by (destruct outcome; try reflexivity; discriminate).
  rewrite E. unfold afterNextPage. cbn. now rewrite !app_nil_r.
Qed.

(** C8, at a failing fetch. The counter moves on to 2 although the fetch of
    page 2 failed and nothing was appended; the next request is for page 3,
    and documents 101 to 200 are never accumulated. *)
Theorem loadMore_failure_advances_counter :
  currentPage (ui page1of250) = 1
  /\ currentPage (ui page2failed) = 2
  /\ allResults (ui page2failed) = allResults (ui page1of250)
  /\ map r_page (inFlight (step page2failed LoadMoreClick)) = [3]
  /\ allResults (ui pageAfterFailure)
     = map doc (seq 1 100) ++ map doc (seq 201 50)
  /\ hasMoreResults (ui pageAfterFailure) = false.
Proof. repeat split; vm_compute; reflexivity. Qed.

(** ** A failed search *)

Lemma searchUtilities_failed (r : Request) (outcome : fetchOutcome) :
  failed outcome = true -> resolved r outcome = emptyResponse.
Proof. destruct outcome; try reflexivity; discriminate. Qed.

(** C9, amended. When the fetch fails, [searchUtilities] resolves to the
    empty response instead of rejecting; a first-page fetch that failed
    leaves the component with no results, no accumulated results, a total
    of zero and [loading] off, and a further-page fetch that failed appends
    nothing and turns [loadingMore] off. The component holds nothing else
    about the failure: the state is the one that the empty response would
    have produced as an answer of the service. *)
Theorem failed_search_recovers (w : World) (n : nat) (r : Request)
        (outcome : fetchOutcome) :
  nth_error (inFlight w) n = Some r ->
  failed outcome = true ->
  let w' := step w (Response n outcome) in
  hits (resolved r outcome) = []
  /\ w' = step w (Response n (Success emptyResponse))
  /\ match r_then r with
     | FirstPage =>
         results (ui w') = [] /\ allResults (ui w') = []
         /\ searchInfo (ui w')
            = Some {| totalHits := 0; processingTime := 0; facetTotal := 0 |}
         /\ loading (ui w') = false
     | NextPage _ =>
         results (ui w') = results (ui w)
         /\ allResults (ui w') = allResults (ui w)
         /\ loadingMore (ui w') = false
     end.
Proof.
  intros Hr Hfail. cbv zeta. cbn [step]. rewrite Hr.
  rewrite (@searchUtilities_failed r _ Hfail).
  change (resolved r (Success emptyResponse)) with emptyResponse.
  split; [reflexivity|]. split; [reflexivity|].
  cbn [ui]. destruct (r_then r) as [|nextPage].
  - repeat split.
  - unfold afterNextPage. cbn. now rewrite !app_nil_r.
Qed.

Lemma failed_search_recovers_witness :
  let w' := step searching (Response 0 (NotOk (lit "Bad Gateway"))) in
  hits (searchUtilities (lit "a") [] 1 (fun _ => NotOk (lit "Bad Gateway"))) = []
  /\ w' = step searching (Response 0 (Success emptyResponse))
  /\ (results (ui w') = [] /\ allResults (ui w') = []
      /\ searchInfo (ui w')
         = Some {| totalHits := 0; processingTime := 0; facetTotal := 0 |}
      /\ loading (ui w') = false).
Proof.
  exact (@failed_search_recovers searching 0
           {| r_query := lit "a"; r_categories := []; r_page := 1;
              r_then := FirstPage |}
           (NotOk (lit "Bad Gateway")) eq_refl eq_refl).
Defined.

(** C9 as stated fails: a failed search and a search without hits leave the
    component in the same state, so nothing in it can show "search
    failed". *)
Lemma no_search_failed_state :
  step searching (Response 0 NetworkError)
  = step searching (Response 0 (Success zeroHits))
  /\ ~ failureIsVisible.
Proof.
  assert (E : step searching (Response 0 NetworkError)
              = step searching (Response 0 (Success zeroHits)))
    by (vm_compute; reflexivity).
  split; [exact E|].
  intros [searchFailed H].
  destruct (H searching 0%nat
              {| r_query := lit "a"; r_categories := []; r_page := 1;
                 r_then := FirstPage |} eq_refl) as [Hfail Hzero].
  specialize (Hfail NetworkError eq_refl).
  specialize (Hzero zeroHits eq_refl).
  rewrite E in Hfail. congruence.
Qed.

(** ** Responses that arrive late *)




End Search.

(* ================================================================== *)
(** * The index builder: what its documents look like *)
(* ================================================================== *)

Module IconFacts.
Import Go SVGIcons.

(** The first two statements of the inner loop: the file name without the
    leading marker and without the extension. *)
Definition iconNameOf (fileName : SVGFileName) : gostring :=
  TrimSuffix (TrimPrefix (FileName fileName) (str "_")) (str ".svg").

(** The text an identifier is computed from: folder and icon name, with
    the slash between them. *)
Definition idText (clusterEntry : SVGClusterEntry) (fileName : SVGFileName)
  : gostring :=
  SourceFolder clusterEntry ++ str "/" ++ iconNameOf fileName.

(** The number of file records of a source structure. *)
Definition fileCount (cluster : SVGCluster) : nat :=
  list_sum (map (fun e => List.length (FileNames e)) (Clusters cluster)).

(** A byte that [formatIconName] treats as a gap between words. *)
Definition separator (b : byte) : bool :=
  Byte.eqb "_" b || Byte.eqb "-" b || asciiSpace b.

Definition lowerLetter (b : byte) : bool := (0x61 <=? byteZ b) && (byteZ b <=? 0x7A).
Definition upperLetter (b : byte) : bool := (0x41 <=? byteZ b) && (byteZ b <=? 0x5A).

(** A word in title case: it starts with anything but a lower-case letter
    and goes on without upper-case letters or separators. *)
Definition titleCased (w : gostring) : bool :=
  match w with
  | [] => false
  | b :: r => negb (lowerLetter b) && forallb (fun c => negb (upperLetter c)) r
              && forallb (fun c => negb (separator c)) w
  end.

(** Two records that collide: different folders, different files. *)
Definition folderAB : SVGClusterEntry :=
  {| SourceFolder := str "a-b";
     FileNames := [ {| FileName := str "c d.svg"; FileDescription := [] |} ] |}.
Definition folderA : SVGClusterEntry :=
  {| SourceFolder := str "a";
     FileNames := [ {| FileName := str "_b-c_d.svg"; FileDescription := [] |} ] |}.

(** The two colliding records in one source structure, and the same
    structure with its clusters met in the other order. *)
Definition collidingCluster : SVGCluster := {| Clusters := [folderAB; folderA] |}.
Definition collidingSwapped : SVGCluster := {| Clusters := [folderA; folderAB] |}.

(** What holds of every document the loop builds. *)
Definition wellFormed (sanitizeID : gostring -> gostring) (d : SVGIconData) : Prop :=
  Category d = str "svg_icons"
  /\ Description d <> []
  /\ ID d = generateIconIDFromPath sanitizeID (Path d)
  /\ HasPrefix (Path d) basePath = true
  /\ HasSuffix (Path d) (str "/") = true.

(** What the two replacements of [formatIconName] make of a byte. *)
Definition toSpace (b : byte) : byte :=
  if Byte.eqb "-" (if Byte.eqb "_" b then " "%byte else b) then " "%byte
  else if Byte.eqb "_" b then " "%byte else b.

(** The words of an ASCII name. *)
Definition wordsOf (iconName : gostring) : list gostring :=
  splitFields None (asciiChunks (map toSpace iconName)).

(** ** Identifiers *)

Lemma HasPrefix_app (p s : gostring) : HasPrefix (p ++ s) p = true.
Proof.
  induction p as [|b p IH]; [reflexivity|].
  cbn [app HasPrefix]. rewrite IH, andb_true_r. destruct b; reflexivity.
Qed.

Lemma removeFirst_app (p s : gostring) : removeFirst p (p ++ s) = s.
Proof.
  rewrite removeFirst_prefix by apply HasPrefix_app.
  unfold stripPrefix. rewrite HasPrefix_app. now rewrite skipn_app, skipn_all, Nat.sub_diag.
Qed.

Lemma trimTrailingSlash_snoc (s : gostring) : trimTrailingSlash (s ++ str "/") = s.
Proof.
  unfold trimTrailingSlash. change (str "/") with ["/"%byte].
  rewrite rev_app_distr. cbn [rev app]. apply rev_involutive.
Qed.

Lemma idPrefix_idBytes : forallb idByte idPrefix = true.
Proof. reflexivity. Qed.

(** X1. An identifier is made of the characters of identifiers only: the
    letters and digits of ASCII, the hyphen and the underscore. *)
Theorem generateIconIDFromPath_idBytes
        (sanitizeID : gostring -> gostring) (path : gostring) :
  (forall s, forallb idByte s = true -> sanitizeID s = s) ->
  forallb idByte (generateIconIDFromPath sanitizeID path) = true
  /\ HasPrefix (generateIconIDFromPath sanitizeID path) idPrefix = true.
Proof.
  intros Hclean. unfold generateIconIDFromPath. cbv zeta.
  rewrite Hclean by apply ReplaceAllInvalid_idBytes.
  split; [|apply HasPrefix_app].
  rewrite forallb_app, idPrefix_idBytes. apply ReplaceAllInvalid_idBytes.
Qed.

Lemma generateIconIDFromPath_idBytes_witness :
  forallb idByte (generateIconIDFromPath regexSanitizeID (str "/freedevtools/svg_icons/a b/c.d/")) = true
  /\ HasPrefix (generateIconIDFromPath regexSanitizeID (str "/freedevtools/svg_icons/a b/c.d/")) idPrefix = true.
Proof.
  exact (@generateIconIDFromPath_idBytes regexSanitizeID
           (str "/freedevtools/svg_icons/a b/c.d/") regexSanitizeID_clean).
Defined.

Lemma iconData_ID_text (sanitizeID : gostring -> gostring) (T : CaseTables)
        (clusterEntry : SVGClusterEntry) (fileName : SVGFileName) :
  ID (iconData sanitizeID T clusterEntry fileName)
  = idPrefix
    ++ sanitizeID (underscoreInvalid (map slashToHyphen (idText clusterEntry fileName))).
Proof.
  unfold iconData. cbv zeta. cbn [ID]. unfold generateIconIDFromPath. cbv zeta.
  fold basePath. fold (iconNameOf fileName).
  rewrite Replace_first by discriminate.
  rewrite removeFirst_app.
  replace (SourceFolder clusterEntry ++ str "/" ++ iconNameOf fileName ++ str "/")
    with (idText clusterEntry fileName ++ str "/")
    by (unfold idText; now rewrite <- !app_assoc).
  rewrite TrimSuffix_slash, trimTrailingSlash_snoc, Replace_slash.
  reflexivity.
Qed.

(** X2. The identifier of a document is computed from the folder and the icon
    name alone: the base path the loop puts in front and the slash it puts
    behind are taken off again, whatever the folder and the name hold. *)
Theorem iconData_ID (sanitizeID : gostring -> gostring) (T : CaseTables)
        (clusterEntry : SVGClusterEntry) (fileName : SVGFileName) :
  ID (iconData sanitizeID T clusterEntry fileName)
  = idPrefix
    ++ sanitizeID (underscoreInvalid (map slashToHyphen (idText clusterEntry fileName))).
Proof. apply iconData_ID_text. Qed.

(** X3. Two records get the same identifier exactly when their
    folder-and-name texts agree once slashes are hyphens and every other
    character outside [a-zA-Z0-9-_] is an underscore (for a [sanitizeID]
    that leaves identifier text unchanged); so records of different
    folders can collide. *)
Theorem iconData_ID_collision (sanitizeID : gostring -> gostring) (T : CaseTables)
        (e1 e2 : SVGClusterEntry) (f1 f2 : SVGFileName) :
  (forall s, forallb idByte s = true -> sanitizeID s = s) ->
  (ID (iconData sanitizeID T e1 f1) = ID (iconData sanitizeID T e2 f2)
   <-> underscoreInvalid (map slashToHyphen (idText e1 f1))
       = underscoreInvalid (map slashToHyphen (idText e2 f2))).
Proof.
  intros Hclean. rewrite !iconData_ID_text.
  rewrite !Hclean by apply ReplaceAllInvalid_idBytes.
  split; [apply app_inv_head | now intros ->].
Qed.

Lemma iconData_ID_collision_witness :
  SourceFolder folderAB <> SourceFolder folderA
  /\ (ID (iconData regexSanitizeID noCaseBeyondASCII folderAB
                   {| FileName := str "c d.svg"; FileDescription := [] |})
      = ID (iconData regexSanitizeID noCaseBeyondASCII folderA
                     {| FileName := str "_b-c_d.svg"; FileDescription := [] |})
      <-> underscoreInvalid
            (map slashToHyphen
                 (idText folderAB {| FileName := str "c d.svg"; FileDescription := [] |}))
          = underscoreInvalid
              (map slashToHyphen
                   (idText folderA {| FileName := str "_b-c_d.svg"; FileDescription := [] |}))).
Proof.
  split; [discriminate|].
  exact (@iconData_ID_collision regexSanitizeID noCaseBeyondASCII folderAB folderA
           {| FileName := str "c d.svg"; FileDescription := [] |}
           {| FileName := str "_b-c_d.svg"; FileDescription := [] |}
           regexSanitizeID_clean).
Defined.

(** ** Documents *)

Section Documents.
Variable sanitizeID : gostring -> gostring.
Variable T : CaseTables.
Variable sorter : SliceSorter.

Lemma HasSuffix_snoc (s : gostring) (c : byte) : HasSuffix (s ++ [c]) [c] = true.
Proof.
  unfold HasSuffix. rewrite length_app. cbn [List.length].
  replace (List.length s + 1 - 1)%nat with (List.length s + 0)%nat by lia.
  rewrite Nat.add_0_r, skipn_app, skipn_all, Nat.sub_diag. cbn [app skipn HasPrefix].
  replace (1 <=? List.length s + 1)%nat with true by (symmetry; apply Nat.leb_le; lia).
  destruct c; reflexivity.
Qed.

Lemma iconData_wellFormed (clusterEntry : SVGClusterEntry) (fileName : SVGFileName) :
  wellFormed sanitizeID (iconData sanitizeID T clusterEntry fileName).
Proof.
  unfold wellFormed, iconData. cbv zeta. cbn [Category Description ID Path].
  split; [reflexivity|]. split; [|split; [reflexivity|split]].
  - destruct (gostring_eq_dec (FileDescription fileName) []) as [E|E]; [discriminate|exact E].
  - fold basePath. apply HasPrefix_app.
  - change (str "/") with ["/"%byte]. rewrite !app_assoc. apply HasSuffix_snoc.
Qed.

Lemma allIcons_length (cluster : SVGCluster) :
  List.length (allIcons sanitizeID T cluster) = fileCount cluster.
Proof.
  unfold allIcons, fileCount. induction (Clusters cluster) as [|e rest IH]; [reflexivity|].
  cbn [flat_map map list_sum]. rewrite length_app, IH. unfold clusterIcons.
  now rewrite length_map.
Qed.

(** X5. A build that succeeds returns one document for each file record of
    the source, and each of them has the category "svg_icons", a
    description that is not empty, the identifier of its own path, and a
    path from the base path to a closing slash. *)
Theorem generateSVGIconsData_documents (run : Run) (out : list SVGIconData) :
  generateSVGIconsData sanitizeID T run = Ok out ->
  exists cluster,
    source run = Source cluster
    /\ List.length out = fileCount cluster
    /\ Forall (wellFormed sanitizeID) out.
Proof.
  rewrite generateSVGIconsData_cases.
  destruct (source run) as [| |cluster]; [discriminate|discriminate|].
  destruct (existsb _ _); [discriminate|].
  intros [= <-]. exists cluster. split; [reflexivity|].
  pose proof (sort_Slice_perm lessID (allIcons sanitizeID T cluster)) as HP.
  split.
  - rewrite <- (Permutation_length HP). apply allIcons_length.
  - apply (Permutation_Forall HP). unfold allIcons. apply Forall_flat_map.
    apply Forall_forall. intros e _. unfold clusterIcons.
    apply Forall_map. apply Forall_forall. intros f _. apply iconData_wellFormed.
Qed.

End Documents.

Lemma generateSVGIconsData_documents_witness :
  exists cluster,
    source {| source := Source arrowsCluster; ctxDone := neverDone |} = Source cluster
    /\ List.length arrowsOutput = fileCount cluster
    /\ Forall (wellFormed regexSanitizeID) arrowsOutput.
Proof.
  exact (@generateSVGIconsData_documents regexSanitizeID noCaseBeyondASCII
           insertionSorter
           {| source := Source arrowsCluster; ctxDone := neverDone |}
           arrowsOutput eq_refl).
Defined.

(** ** Display names *)

Section DisplayNames.
Variable T : CaseTables.

Lemma toSpace_nameByte (s : gostring) :
  isASCII s = true -> forallb nameByte (map toSpace s) = true.
Proof.
  intros Ha. rewrite forallb_forall. intros b Hb.
  apply in_map_iff in Hb. destruct Hb as (b0 & <- & Hb0).
  unfold isASCII in Ha. rewrite forallb_forall in Ha. specialize (Ha b0 Hb0).
  revert Ha. destruct b0; intros Ha; try discriminate Ha; reflexivity.
Qed.

Lemma nameByte_isASCII (s : gostring) : forallb nameByte s = true -> isASCII s = true.
Proof.
  unfold isASCII. rewrite !forallb_forall. intros H b Hb. specialize (H b Hb).
  unfold nameByte in H. repeat (apply andb_prop in H; destruct H as [H ?]). exact H.
Qed.

Lemma formatIconName_spaces (iconName : gostring) :
  formatIconName T iconName
  = Join (map (titleWord T) (Fields (map toSpace iconName))) (str " ").
Proof.
  unfold formatIconName. cbv zeta.
  change (str "_") with ["_"%byte]. change (str "-") with ["-"%byte].
  change (str " ") with [" "%byte]. rewrite !Replace_byte, map_map. reflexivity.
Qed.

(** On an ASCII name the display name is made of its words. *)
Lemma formatIconName_wordsOf (iconName : gostring) :
  isASCII iconName = true ->
  formatIconName T iconName = Join (map (titleWord T) (wordsOf iconName)) (str " ").
Proof.
  intros Ha. rewrite formatIconName_spaces. unfold Fields.
  now rewrite (nameByte_isASCII _ (toSpace_nameByte _ Ha)).
Qed.

Lemma wordsOf_plain (iconName : gostring) :
  isASCII iconName = true -> Forall plainWord (wordsOf iconName).
Proof.
  intros Ha. apply (@splitFields_plain _ None (toSpace_nameByte _ Ha) I).
Qed.

(** X6. Underscore, hyphen and space are interchangeable in a name: replacing
    one by another changes nothing in the display name, for a name of any
    bytes. *)
Theorem formatIconName_separators (iconName : gostring) :
  formatIconName T (Replace iconName (str "_") (str "-") (-1)) = formatIconName T iconName
  /\ formatIconName T (Replace iconName (str "-") (str "_") (-1)) = formatIconName T iconName
  /\ formatIconName T (Replace iconName (str "_") (str " ") (-1)) = formatIconName T iconName
  /\ formatIconName T (Replace iconName (str "-") (str " ") (-1)) = formatIconName T iconName
  /\ formatIconName T (Replace iconName (str " ") (str "_") (-1)) = formatIconName T iconName.
Proof.
  change (str "_") with ["_"%byte]. change (str "-") with ["-"%byte].
  change (str " ") with [" "%byte]. rewrite !Replace_byte.
  repeat split; rewrite (formatIconName_spaces iconName), formatIconName_spaces, map_map;
    do 3 f_equal; apply map_ext; intros b; destruct b; reflexivity.
Qed.

Lemma splitFields_map (h : byte -> byte) (s : gostring) (cur : option gostring) :
  (forall b, asciiSpace (h b) = asciiSpace b) ->
  splitFields (option_map (map h) cur) (asciiChunks (map h s))
  = map (map h) (splitFields cur (asciiChunks s)).
Proof.
  intros Hh. revert cur. induction s as [|b t IH]; intros cur.
  - destruct cur; reflexivity.
  - cbn [map asciiChunks splitFields]. fold (asciiChunks t). fold (asciiChunks (map h t)).
    rewrite Hh. destruct (asciiSpace b).
    + destruct cur; cbn [option_map map]; [f_equal|]; apply (IH None).
    + rewrite <- IH. f_equal. destruct cur; cbn [option_map]; [|reflexivity].
      now rewrite map_app.
Qed.

Lemma wordsOf_map (h : byte -> byte) (s : gostring) :
  (forall b, asciiSpace (h b) = asciiSpace b) ->
  (forall b, toSpace (h b) = h (toSpace b)) ->
  wordsOf (map h s) = map (map h) (wordsOf s).
Proof.
  intros Hs Hc. unfold wordsOf. rewrite map_map.
  rewrite (map_ext _ _ Hc), <- map_map. apply (@splitFields_map h _ None Hs).
Qed.

Lemma isASCII_map (h : byte -> byte) (s : gostring) :
  (forall b, (byteZ b <? RuneSelf) = true -> (byteZ (h b) <? RuneSelf) = true) ->
  isASCII s = true -> isASCII (map h s) = true.
Proof.
  intros Hh. unfold isASCII. rewrite !forallb_forall. intros H b Hb.
  apply in_map_iff in Hb. destruct Hb as (b0 & <- & Hb0). auto.
Qed.

Lemma lowerByte_ascii (b : byte) :
  (byteZ b <? RuneSelf) = true -> (byteZ (lowerByte b) <? RuneSelf) = true.
Proof. destruct b; intros H; try discriminate H; reflexivity. Qed.

Lemma upperByte_ascii (b : byte) :
  (byteZ b <? RuneSelf) = true -> (byteZ (upperByte b) <? RuneSelf) = true.
Proof. destruct b; intros H; try discriminate H; reflexivity. Qed.

Lemma titleWord_map (h : byte -> byte) (w : gostring) :
  (forall b, (byteZ b <? RuneSelf) = true -> (byteZ (h b) <? RuneSelf) = true) ->
  (forall b, upperByte (h b) = upperByte b) ->
  (forall b, lowerByte (h b) = lowerByte b) ->
  plainWord w -> titleWord T (map h w) = titleWord T w.
Proof.
  intros Ha Hu Hl [Hne Hw]. destruct w as [|b r]; [congruence|].
  pose proof (@plain_isASCII _ Hw) as Hascii.
  cbn [map]. rewrite (@titleWord_ascii T b r Hascii).
  rewrite (@titleWord_ascii T (h b) (map h r) (@isASCII_map h (b :: r) Ha Hascii)).
  rewrite Hu, map_map. f_equal. apply map_ext. exact Hl.
Qed.

(** X7. The display name of an ASCII name does not depend on the case the
    name is written in. *)
Theorem formatIconName_case_insensitive (iconName : gostring) :
  isASCII iconName = true ->
  formatIconName T (ToLower T iconName) = formatIconName T iconName
  /\ formatIconName T (ToUpper T iconName) = formatIconName T iconName.
Proof.
  intros Ha. unfold ToLower, ToUpper. rewrite Ha.
  pose proof (@wordsOf_plain _ Ha) as Hws.
  split.
  - rewrite (@formatIconName_wordsOf _ Ha).
    rewrite (@formatIconName_wordsOf _ (@isASCII_map lowerByte _ lowerByte_ascii Ha)).
    rewrite wordsOf_map by (intros b; destruct b; reflexivity).
    rewrite map_map. f_equal. apply map_ext_in. intros w Hw.
    rewrite Forall_forall in Hws.
    apply titleWord_map; [exact lowerByte_ascii | | | now apply Hws];
      intros b; destruct b; reflexivity.
  - rewrite (@formatIconName_wordsOf _ Ha).
    rewrite (@formatIconName_wordsOf _ (@isASCII_map upperByte _ upperByte_ascii Ha)).
    rewrite wordsOf_map by (intros b; destruct b; reflexivity).
    rewrite map_map. f_equal. apply map_ext_in. intros w Hw.
    rewrite Forall_forall in Hws.
    apply titleWord_map; [exact upperByte_ascii | | | now apply Hws];
      intros b; destruct b; reflexivity.
Qed.

Lemma titleWord_titleCased (w : gostring) :
  plainWord w -> plainWord (titleWord T w) /\ titleCased (titleWord T w) = true.
Proof.
  intros Hp. split; [now apply titleWord_plain|].
  destruct Hp as [Hne Hw]. destruct w as [|b r]; [congruence|].
  rewrite (@titleWord_ascii T b r (@plain_isASCII _ Hw)).
  apply forallb_cons_inv in Hw. destruct Hw as [Hb Hr].
  unfold titleCased. apply andb_true_intro; split; [apply andb_true_intro; split|].
  - destruct b; reflexivity.
  - rewrite forallb_forall. intros c Hc. apply in_map_iff in Hc.
    destruct Hc as (c0 & <- & _). destruct c0; reflexivity.
  - cbn [forallb]. apply andb_true_intro. split.
    + revert Hb. destruct b; intros Hb; try discriminate Hb; reflexivity.
    + rewrite forallb_forall in *. intros c Hc. apply in_map_iff in Hc.
      destruct Hc as (c0 & <- & Hc0). specialize (Hr c0 Hc0).
      revert Hr. destruct c0; intros Hr; try discriminate Hr; reflexivity.
Qed.

(** X8. The display name of an ASCII name is a line of words in title case
    with one space between them: splitting it at white space and joining
    the words with single spaces gives it back, and every word starts with
    anything but a lower-case letter and goes on without upper-case letters,
    underscores or hyphens. *)
Theorem formatIconName_titleCase (iconName : gostring) :
  isASCII iconName = true ->
  let name := formatIconName T iconName in
  Join (Fields name) (str " ") = name
  /\ Forall (fun w => titleCased w = true) (Fields name)
  /\ List.length (Fields name) = List.length (wordsOf iconName).
Proof.
  intros Ha. cbv zeta. rewrite (@formatIconName_wordsOf _ Ha).
  pose proof (@wordsOf_plain _ Ha) as Hws.
  assert (Hplain : Forall plainWord (map (titleWord T) (wordsOf iconName))).
  { apply Forall_map. revert Hws. apply Forall_impl. intros w Hw.
    now apply titleWord_titleCased. }
  rewrite (@Fields_Join _ Hplain). split; [reflexivity|]. split.
  - apply Forall_map. revert Hws. apply Forall_impl. intros w Hw.
    now apply titleWord_titleCased.
  - apply length_map.
Qed.

Lemma splitFields_nil (s : gostring) (cur : option gostring) :
  splitFields cur (asciiChunks s) = [] <-> cur = None /\ forallb asciiSpace s = true.
Proof.
  revert cur. induction s as [|b t IH]; intros cur.
  - destruct cur; cbn; split; try tauto; try discriminate. intros [C _]. discriminate.
  - cbn [asciiChunks map splitFields forallb]. fold (asciiChunks t).
    destruct (asciiSpace b); cbn [andb].
    + destruct cur.
      * split; [discriminate | intros [C _]; discriminate].
      * apply IH.
    + rewrite IH. split; [intros [C _]; discriminate | intros [_ C]; discriminate].
Qed.

Lemma Join_nil (ws : list gostring) :
  Forall plainWord ws -> (Join ws (str " ") = [] <-> ws = []).
Proof.
  intros H. split; [|now intros ->].
  destruct H as [|w ws [Hne _] _]; [reflexivity|].
  cbn [Join]. destruct ws; intros C; [congruence|].
  apply app_eq_nil in C. destruct C. congruence.
Qed.

(** X9. The display name of an ASCII name is empty exactly when the name holds
    nothing but underscores, hyphens and white space (or nothing at all). *)
Theorem formatIconName_empty (iconName : gostring) :
  isASCII iconName = true ->
  (formatIconName T iconName = [] <-> forallb separator iconName = true).
Proof.
  intros Ha. rewrite (@formatIconName_wordsOf _ Ha).
  pose proof (@wordsOf_plain _ Ha) as Hws.
  assert (Hplain : Forall plainWord (map (titleWord T) (wordsOf iconName))).
  { apply Forall_map. revert Hws. apply Forall_impl. intros w Hw.
    now apply titleWord_titleCased. }
  rewrite (@Join_nil _ Hplain). unfold wordsOf.
  split.
  - intros H. apply map_eq_nil in H. apply splitFields_nil in H. destruct H as [_ H].
    rewrite forallb_forall in *. intros b Hb.
    specialize (H (toSpace b) (in_map _ _ _ Hb)). revert H.
    destruct b; intros H; try discriminate H; reflexivity.
  - intros H.
    assert (E : splitFields None (asciiChunks (map toSpace iconName)) = []).
    { apply splitFields_nil. split; [reflexivity|].
      rewrite forallb_forall in *. intros b Hb. apply in_map_iff in Hb.
      destruct Hb as (b0 & <- & Hb0). specialize (H b0 Hb0). revert H.
      destruct b0; intros H; try discriminate H; reflexivity. }
    now rewrite E.
Qed.

End DisplayNames.

Lemma formatIconName_case_insensitive_witness :
  formatIconName noCaseBeyondASCII (ToLower noCaseBeyondASCII (str "Left_ARROW-2"))
  = formatIconName noCaseBeyondASCII (str "Left_ARROW-2")
  /\ formatIconName noCaseBeyondASCII (ToUpper noCaseBeyondASCII (str "Left_ARROW-2"))
     = formatIconName noCaseBeyondASCII (str "Left_ARROW-2").
Proof.
  exact (@formatIconName_case_insensitive noCaseBeyondASCII (str "Left_ARROW-2") eq_refl).
Defined.

Lemma formatIconName_titleCase_witness :
  let name := formatIconName noCaseBeyondASCII (str "_left--ARROW 2_") in
  Join (Fields name) (str " ") = name
  /\ Forall (fun w => titleCased w = true) (Fields name)
  /\ List.length (Fields name) = List.length (wordsOf (str "_left--ARROW 2_")).
Proof.
  exact (@formatIconName_titleCase noCaseBeyondASCII (str "_left--ARROW 2_") eq_refl).
Defined.

Lemma formatIconName_empty_witness :
  formatIconName noCaseBeyondASCII (str "_- _") = []
  <-> forallb separator (str "_- _") = true.
Proof.
  exact (@formatIconName_empty noCaseBeyondASCII (str "_- _") eq_refl).
Defined.

Lemma HasPrefix_refl (s : gostring) : HasPrefix s s = true.
Proof. pose proof (HasPrefix_app s []) as H. now rewrite app_nil_r in H. Qed.

Lemma TrimSuffix_app (s suffix : gostring) : TrimSuffix (s ++ suffix) suffix = s.
Proof.
  unfold TrimSuffix, HasSuffix. rewrite length_app.
  replace (List.length s + List.length suffix - List.length suffix)%nat
    with (List.length s) by lia.
  rewrite skipn_app, skipn_all, Nat.sub_diag. cbn [skipn app].
  rewrite HasPrefix_refl.
  replace (List.length suffix <=? List.length s + List.length suffix)%nat with true
    by (symmetry; apply Nat.leb_le; lia).
  cbn [andb]. rewrite firstn_app, firstn_all, Nat.sub_diag. cbn [firstn].
  apply app_nil_r.
Qed.

(** X4. The marker in front of a file name shows in the image path only: a
    file and its twin with a leading underscore get the same identifier,
    name and path, whatever their descriptions, and different image
    paths. The description is taken from each record: the twins have the
    same description when their records do (the default included), and
    each keeps its own when it has one. *)
Theorem iconData_marker (sanitizeID : gostring -> gostring) (T : CaseTables)
        (clusterEntry : SVGClusterEntry) (name description1 description2 : gostring) :
  HasPrefix name (str "_") = false ->
  let marked := iconData sanitizeID T clusterEntry
                  {| FileName := str "_" ++ name ++ str ".svg";
                     FileDescription := description1 |} in
  let plain := iconData sanitizeID T clusterEntry
                 {| FileName := name ++ str ".svg";
                    FileDescription := description2 |} in
  ID marked = ID plain /\ Name marked = Name plain /\ Path marked = Path plain
  /\ Image marked <> Image plain
  /\ (description1 = description2 -> Description marked = Description plain)
  /\ (description1 <> [] -> Description marked = description1)
  /\ (description2 <> [] -> Description plain = description2).
Proof.
  intros Hname. cbv zeta.
  assert (E1 : TrimSuffix (TrimPrefix (str "_" ++ name ++ str ".svg") (str "_")) (str ".svg")
               = name).
  { unfold TrimPrefix. rewrite HasPrefix_app. rewrite skipn_app, skipn_all, Nat.sub_diag.
    cbn [skipn app]. apply TrimSuffix_app. }
  assert (E2 : TrimSuffix (TrimPrefix (name ++ str ".svg") (str "_")) (str ".svg") = name).
  { unfold TrimPrefix.
    replace (HasPrefix (name ++ str ".svg") (str "_")) with false;
      [apply TrimSuffix_app|].
    destruct name as [|b r]; [reflexivity|]. symmetry. exact Hname. }
  unfold iconData. cbv zeta. cbn [ID Name Description Path Image FileName FileDescription].
  rewrite E1, E2. split; [reflexivity|]. split; [reflexivity|]. split; [reflexivity|].
  split; [|split; [|split]].
  - intros E. do 2 apply app_inv_head in E.
    destruct name as [|b r]; [discriminate E|].
    change (str "_" ++ (b :: r) ++ str ".svg") with ("_"%byte :: b :: r ++ str ".svg") in E.
    cbn [app] in E. injection E as E _. subst b. discriminate Hname.
  - now intros ->.
  - intros H. now destruct (gostring_eq_dec description1 []).
  - intros H. now destruct (gostring_eq_dec description2 []).
Qed.

Lemma iconData_marker_witness :
  let marked := iconData regexSanitizeID noCaseBeyondASCII folderA
                  {| FileName := str "_" ++ str "left" ++ str ".svg";
                     FileDescription := str "An arrow" |} in
  let plain := iconData regexSanitizeID noCaseBeyondASCII folderA
                 {| FileName := str "left" ++ str ".svg";
                    FileDescription := [] |} in
  ID marked = ID plain /\ Name marked = Name plain /\ Path marked = Path plain
  /\ Image marked <> Image plain
  /\ (str "An arrow" = [] -> Description marked = Description plain)
  /\ (str "An arrow" <> [] -> Description marked = str "An arrow")
  /\ (([] : gostring) <> [] -> Description plain = []).
Proof.
  exact (@iconData_marker regexSanitizeID noCaseBeyondASCII folderA (str "left")
           (str "An arrow") [] eq_refl).
Defined.

(** ** The order of documents that share an identifier *)

(** C7 as stated fails: the records of [collidingCluster] resolve to one
    identifier, and two builds that visit its clusters in different
    orders, with the same sort, return the same identifiers and different
    sequences of documents. *)
Lemma generateSVGIconsData_order_of_twins :
  Permutation (Clusters collidingCluster) (Clusters collidingSwapped)
  /\ exists out1 out2 : list SVGIconData,
      @generateSVGIconsData regexSanitizeID noCaseBeyondASCII insertionSorter
        {| source := Source collidingCluster; ctxDone := neverDone |} = Ok out1
      /\ @generateSVGIconsData regexSanitizeID noCaseBeyondASCII insertionSorter
           {| source := Source collidingSwapped; ctxDone := neverDone |} = Ok out2
      /\ map ID out1 = map ID out2
      /\ map Path out1 <> map Path out2
      /\ out1 <> out2.
Proof.
  split; [apply perm_swap|].
  eexists. eexists. split; [vm_compute; reflexivity|]. split; [vm_compute; reflexivity|].
  split; [reflexivity|]. split; [discriminate|]. discriminate.
Qed.

Lemma formatIconName_idempotent_ascii_witness :
  formatIconName noCaseBeyondASCII (formatIconName noCaseBeyondASCII (str "left_arrow-2"))
  = formatIconName noCaseBeyondASCII (str "left_arrow-2").
Proof.
  exact (@formatIconName_idempotent_ascii noCaseBeyondASCII (str "left_arrow-2") eq_refl).
Defined.

End IconFacts.

(* ================================================================== *)
(** * The search page: what holds in every state it can reach *)
(* ================================================================== *)

Module SearchFacts.
Import JS Search.

Definition isNextPage (r : Request) : bool :=
  match r_then r with NextPage _ => true | FirstPage => false end.

Definition isFirstPage (r : Request) : bool :=
  match r_then r with FirstPage => true | NextPage _ => false end.

(** The fetches of further pages in flight. *)
Definition pendingNextPages (w : World) : list Request :=
  List.filter isNextPage (inFlight w).

(** The request the debounced search sends for the state [s]. *)
Definition firstPageRequest (s : State) : Request :=
  {| r_query := query s;
     r_categories := getEffectiveCategories s;
     r_page := 1;
     r_then := FirstPage |}.

(** A pending timer was scheduled by the latest render: it holds the
    present query, which is not blank, and the present categories. *)
Definition timerInv (w : World) : Prop :=
  match timer w with
  | Some c => c_query c = query (ui w)
              /\ c_categories c = getEffectiveCategories (ui w)
              /\ blank (query (ui w)) = false
  | None => True
  end.

(** The flag [loadingMore] counts the fetches of further pages. *)
Definition loadMoreInv (w : World) : Prop :=
  List.length (pendingNextPages w) = if loadingMore (ui w) then 1%nat else 0%nat.

(** While [loading] is set, the fetch of a first page is in flight. *)
Definition loadingInv (w : World) : Prop :=
  loading (ui w) = true -> existsb isFirstPage (inFlight w) = true.

(** A first page is page 1; a further page is the page its continuation
    will set, and at least page 2. *)
Definition pageOf (r : Request) : Prop :=
  match r_then r with
  | FirstPage => r_page r = 1
  | NextPage nextPage => r_page r = nextPage /\ 2 <= nextPage
  end.

Definition pageInv (w : World) : Prop :=
  1 <= currentPage (ui w) /\ Forall pageOf (inFlight w).

(** The categories a search filters on are the selected ones, each once,
    and "all" is none of them. *)
Definition filterInv (s : State) : Prop :=
  getEffectiveCategories s = selectedCategories s
  /\ NoDup (selectedCategories s)
  /\ ~ In (lit "all") (selectedCategories s).

Record Inv (w : World) : Prop := {
  inv_selection : selectionInv (ui w);
  inv_results : resultsInv (ui w);
  inv_timer : timerInv w;
  inv_loadMore : loadMoreInv w;
  inv_loading : loadingInv w;
  inv_page : pageInv w;
  inv_filter : filterInv (ui w)
}.

(** Events that send nothing and answer nothing leave the fetches and
    their flags alone; the page counter stays or goes back to 1. *)
Definition sameFetches (w w' : World) : Prop :=
  inFlight w' = inFlight w
  /\ loadingMore (ui w') = loadingMore (ui w)
  /\ loading (ui w') = loading (ui w)
  /\ (currentPage (ui w') = currentPage (ui w) \/ currentPage (ui w') = 1).

(** An event of the user at the search box or the category buttons. *)
Definition isInput (e : Event) : bool :=
  match e with
  | QueryChanged _ | CategoryClick _ | CategoryRightClick _ | ClearResults
  | ViewAllClick => true
  | TimerFires | LoadMoreClick | Response _ _ => false
  end.

(** What a right click on [category] makes of the selection. *)
Definition toggled (category : jsstring) (selection : list jsstring) : list jsstring :=
  if existsb (streq category) selection
  then List.filter (fun cat => negb (streq cat category)) selection
  else selection ++ [category].



(** The query is typed, the timer fires, the service answers. *)
Definition firstPageServed (q : jsstring) (documents : list SearchResult) : World :=
  served documents (run [QueryChanged q; TimerFires]).


(** The condition under which the button of [category] is drawn as
    selected. *)
Definition buttonSelected (category : jsstring) (s : State) : bool :=
  streq (activeCategory s) category
  || existsb (streq category) (selectedCategories s).

(** The request [loadMoreResults] sends from the render [rendered]. *)
Definition nextPageRequest (rendered : State) : Request :=
  {| r_query := query rendered;
     r_categories := getEffectiveCategories rendered;
     r_page := currentPage rendered + 1;
     r_then := NextPage (currentPage rendered + 1) |}.

(** [loadMoreResults] up to its [await], as the handler built by the
    render [rendered]: the guard, the page, the query and the categories
    are those of that render; [setLoadingMore] acts on the state of the
    moment. *)
Definition loadMoreFrom (rendered : State) (w : World) : World :=
  if negb (hasMoreResults rendered) || loadingMore rendered then w
  else {| ui := setLoadingMore true (ui w);
          timer := timer w;
          inFlight := inFlight w ++ [nextPageRequest rendered] |}.

(** ** Lists of fetches *)

Lemma removeNth_filter (f : Request -> bool) (n : nat) (l : list Request) (r : Request) :
  nth_error l n = Some r ->
  List.length (List.filter f l)
  = (List.length (List.filter f (removeNth n l)) + if f r then 1 else 0)%nat.
Proof.
  revert n. induction l as [|x l IH]; intros [|n] H; try discriminate.
  - injection H as ->. cbn [removeNth List.filter]. destruct (f r); cbn [List.length]; lia.
  - cbn [nth_error] in H. cbn [removeNth List.filter]. specialize (IH n H).
    destruct (f x); cbn [List.length]; lia.
Qed.

Lemma removeNth_Forall (P : Request -> Prop) (n : nat) (l : list Request) :
  Forall P l -> Forall P (removeNth n l).
Proof.
  intros H. revert n. induction H as [|x l Hx Hl IH]; intros [|n]; cbn [removeNth];
    try constructor; auto.
Qed.

Lemma removeNth_existsb (f : Request -> bool) (n : nat) (l : list Request) (r : Request) :
  nth_error l n = Some r -> f r = false ->
  existsb f (removeNth n l) = existsb f l.
Proof.
  revert n. induction l as [|x l IH]; intros [|n] H Hr; try discriminate.
  - injection H as ->. cbn [removeNth existsb]. now rewrite Hr.
  - cbn [nth_error] in H. cbn [removeNth existsb]. now rewrite (IH n H Hr).
Qed.

Lemma filter_snoc (f : Request -> bool) (l : list Request) (r : Request) :
  List.filter f (l ++ [r]) = List.filter f l ++ (if f r then [r] else []).
Proof. rewrite filter_app. reflexivity. Qed.

(** ** The filter and the selection *)

Lemma filterInv_all (s : State) :
  filterInv (setSelectedCategories [] (setActiveCategory (lit "all") s)).
Proof. split; [reflexivity|]. split; [constructor | intros []]. Qed.

Lemma handleCategoryClick_filterInv (category : jsstring) (s : State) :
  filterInv (handleCategoryClick category s).
Proof.
  unfold handleCategoryClick. destruct (streq category (lit "all")) eqn:E.
  - apply filterInv_all.
  - unfold filterInv, getEffectiveCategories.
    cbn [activeCategory selectedCategories setSelectedCategories setActiveCategory].
    rewrite E. apply streq_false in E. split; [|split].
    + now destruct (streq category (lit "multi")).
    + constructor; [intros [] | constructor].
    + intros [H|[]]. now elim E.
Qed.

Lemma NoDup_filter (f : jsstring -> bool) (l : list jsstring) :
  NoDup l -> NoDup (List.filter f l).
Proof.
  induction 1 as [|x l Hx Hl IH]; cbn [List.filter]; [constructor|].
  destruct (f x); [constructor|]; auto.
  intros Hin. apply filter_In in Hin. tauto.
Qed.

Lemma existsb_streq (c : jsstring) (l : list jsstring) :
  existsb (streq c) l = true <-> In c l.
Proof.
  rewrite existsb_exists. split.
  - intros (x & Hx & E). apply streq_true in E. now subst x.
  - intros H. exists c. split; [exact H | apply streq_refl].
Qed.

Lemma handleCategoryRightClick_filterInv (category : jsstring) (s : State) :
  filterInv s -> filterInv (handleCategoryRightClick category s).
Proof.
  intros (Heff & Hnd & Hall). unfold handleCategoryRightClick.
  destruct (streq category (lit "all")) eqn:E; [apply filterInv_all|].
  apply streq_false in E. cbv zeta.
  destruct (existsb (streq category) (selectedCategories s)) eqn:Hsel.
  - destruct (List.filter _ (selectedCategories s)) as [|c cs] eqn:F.
    + split; [reflexivity|]. split; [constructor | intros []].
    + cbn [List.length Nat.eqb]. unfold filterInv, getEffectiveCategories.
      cbn [activeCategory selectedCategories setSelectedCategories setActiveCategory].
      change (streq (lit "multi") (lit "all")) with false.
      change (streq (lit "multi") (lit "multi")) with true. cbv iota.
      split; [reflexivity|]. rewrite <- F. split; [now apply NoDup_filter|].
      intros Hin. apply filter_In in Hin. tauto.
  - unfold filterInv, getEffectiveCategories.
    cbn [activeCategory selectedCategories setSelectedCategories setActiveCategory].
    change (streq (lit "multi") (lit "all")) with false.
    change (streq (lit "multi") (lit "multi")) with true. cbv iota.
    split; [reflexivity|]. split.
    + apply NoDup_app; [exact Hnd | constructor; [intros []|constructor] |].
      intros x Hx [<-|[]]. apply existsb_streq in Hx. congruence.
    + intros Hin. apply in_app_or in Hin. destruct Hin as [Hin|[Hin|[]]]; [tauto|].
      now elim E.
Qed.

(** ** One event *)

Lemma sameFetches_inv (w w' : World) :
  sameFetches w w' -> loadMoreInv w -> loadingInv w -> pageInv w ->
  loadMoreInv w' /\ loadingInv w' /\ pageInv w'.
Proof.
  intros (Hf & Hm & Hl & Hp) Hmore Hload [Hpage Hreq].
  unfold loadMoreInv, loadingInv, pageInv, pendingNextPages in *.
  rewrite Hf, Hm, Hl. repeat split; auto. destruct Hp as [-> | ->]; [exact Hpage|lia].
Qed.

Lemma sameFetches_effects (f : State -> State) (w : World) :
  loadingMore (f (ui w)) = loadingMore (ui w) ->
  loading (f (ui w)) = loading (ui w) ->
  sameFetches w (resetEffect (searchEffect (withUI f w))).
Proof.
  intros Hm Hl. unfold resetEffect, searchEffect, withUI. cbn [ui timer inFlight].
  destruct (blank (query (f (ui w)))); cbn; repeat split; auto.
Qed.

Lemma timerInv_searchEffect (w : World) : timerInv (searchEffect w).
Proof.
  unfold timerInv, searchEffect. destruct (blank (query (ui w))) eqn:E; cbn; auto.
Qed.

Lemma timerInv_effects (w : World) : timerInv (resetEffect (searchEffect w)).
Proof.
  unfold timerInv, resetEffect, searchEffect, withUI.
  destruct (blank (query (ui w))) eqn:E; cbn; auto.
Qed.

Lemma filterInv_effects (w : World) :
  filterInv (ui w) -> filterInv (ui (resetEffect (searchEffect w))).
Proof.
  unfold resetEffect, searchEffect, withUI. destruct (blank (query (ui w))); cbn; auto.
Qed.

Lemma handleCategoryClick_flags (category : jsstring) (s : State) :
  loadingMore (handleCategoryClick category s) = loadingMore s
  /\ loading (handleCategoryClick category s) = loading s.
Proof. unfold handleCategoryClick. destruct (streq _ _); split; reflexivity. Qed.

Lemma handleCategoryRightClick_flags (category : jsstring) (s : State) :
  loadingMore (handleCategoryRightClick category s) = loadingMore s
  /\ loading (handleCategoryRightClick category s) = loading s.
Proof.
  unfold handleCategoryRightClick. destruct (streq _ _); [split; reflexivity|].
  cbv zeta. destruct (existsb _ _); [|split; reflexivity].
  destruct (List.length _ =? 0)%nat; split; reflexivity.
Qed.

Lemma afterFirstPage_keeps (data : SearchResponse) (s : State) :
  query (afterFirstPage data s) = query s
  /\ activeCategory (afterFirstPage data s) = activeCategory s
  /\ selectedCategories (afterFirstPage data s) = selectedCategories s
  /\ currentPage (afterFirstPage data s) = currentPage s
  /\ loadingMore (afterFirstPage data s) = loadingMore s
  /\ loading (afterFirstPage data s) = false.
Proof.
  unfold afterFirstPage. cbv zeta.
  destruct (facetDistribution_category data); repeat split; reflexivity.
Qed.

Lemma getEffectiveCategories_ext (s s' : State) :
  activeCategory s' = activeCategory s -> selectedCategories s' = selectedCategories s ->
  getEffectiveCategories s' = getEffectiveCategories s.
Proof. unfold getEffectiveCategories. now intros -> ->. Qed.

Lemma step_Inv (w : World) (e : Event) : Inv w -> Inv (step w e).
Proof.
  intros [Hsel Hres Htimer Hmore Hload Hpage Hfilter].
  destruct (@step_invariants w e Hsel Hres) as [Hsel' Hres'].
  assert (Hrest : timerInv (step w e) /\ (loadMoreInv (step w e) /\ loadingInv (step w e)
                  /\ pageInv (step w e)) /\ filterInv (ui (step w e))).
  { clear Hsel' Hres'.
    destruct e as [newQuery|category|category| | | | |n outcome]; cbn [step].
    - (* the query changes *)
      destruct (streq newQuery (query (ui w))); [now auto|].
      split; [apply timerInv_searchEffect|]. split.
      + apply (@sameFetches_inv w); auto.
        unfold sameFetches, searchEffect, withUI. cbn [ui].
        destruct (blank _); cbn; auto.
      + unfold searchEffect, withUI. cbn [ui]. destruct (blank _); exact Hfilter.
    - split; [apply timerInv_effects|]. split.
      + apply (@sameFetches_inv w); auto.
        apply sameFetches_effects; apply handleCategoryClick_flags.
      + apply filterInv_effects. apply handleCategoryClick_filterInv.
    - split; [apply timerInv_effects|]. split.
      + apply (@sameFetches_inv w); auto.
        apply sameFetches_effects; apply handleCategoryRightClick_flags.
      + apply filterInv_effects. now apply handleCategoryRightClick_filterInv.
    - split; [apply timerInv_effects|]. split.
      + apply (@sameFetches_inv w); auto. now apply sameFetches_effects.
      + apply filterInv_effects. cbn [withUI ui]. apply filterInv_all.
    - rewrite (@viewAllShown_false _ Hres). cbn [andb]. auto.
    - (* the timer fires *)
      destruct (timer w) as [c|] eqn:Ht; [|now auto].
      unfold timerCallback. split; [exact I|]. split; [|exact Hfilter].
      destruct Hpage as [Hp Hreq].
      unfold loadMoreInv, loadingInv, pageInv, pendingNextPages in *. cbn [ui inFlight].
      rewrite filter_snoc. cbn [isNextPage r_then]. rewrite app_nil_r.
      cbn [loadingMore loading currentPage setAvailableCategories setCurrentPage setLoading].
      split; [exact Hmore|]. split.
      * intros _. rewrite existsb_app. cbn. apply orb_true_r.
      * split; [lia|]. apply Forall_app. split; [exact Hreq|].
        constructor; [reflexivity|constructor].
    - (* load more *)
      unfold loadMoreResults.
      destruct (negb (hasMoreResults (ui w)) || loadingMore (ui w)) eqn:G; [now auto|].
      apply orb_false_elim in G. destruct G as [_ G].
      split; [exact Htimer|]. split; [|exact Hfilter].
      destruct Hpage as [Hp Hreq].
      unfold loadMoreInv, loadingInv, pageInv, pendingNextPages in *. cbn [ui inFlight].
      rewrite filter_snoc. cbn [isNextPage r_then]. rewrite length_app, Hmore, G.
      cbn [loadingMore loading currentPage setLoadingMore List.length].
      split; [reflexivity|]. split.
      * intros H. rewrite existsb_app, (Hload H). reflexivity.
      * split; [exact Hp|]. apply Forall_app. split; [exact Hreq|].
        constructor; [|constructor]. unfold pageOf. cbn [r_then r_page]. split; [reflexivity|lia].
    - (* a fetch ends *)
      destruct (nth_error (inFlight w) n) as [r|] eqn:Hr; [|now auto].
      destruct Hpage as [Hp Hreq].
      assert (Hpr : pageOf r).
      { rewrite Forall_forall in Hreq. apply Hreq. eapply nth_error_In. exact Hr. }
      pose proof (@removeNth_filter isNextPage n _ r Hr) as Hcount.
      unfold timerInv, loadMoreInv, loadingInv, pageInv, pendingNextPages, filterInv in *.
      cbn [ui timer inFlight]. unfold pageOf in Hpr. unfold isNextPage in Hcount at 3.
      destruct (r_then r) as [|nextPage] eqn:Hthen.
      + destruct (afterFirstPage_keeps (resolved r outcome) (ui w))
          as (Eq & Ea & Es & Ep & Em & El).
        rewrite Eq, Es, Ep, Em, El,
          (@getEffectiveCategories_ext (ui w) _ Ea Es).
        split; [exact Htimer|]. split; [|exact Hfilter].
        split; [lia|]. split; [discriminate|].
        split; [exact Hp | now apply removeNth_Forall].
      + unfold afterNextPage. cbv zeta. cbn.
        split; [exact Htimer|]. split; [|exact Hfilter].
        split; [|split].
        * cbn [List.length] in *. destruct (loadingMore (ui w)); lia.
        * intros H. rewrite (@removeNth_existsb isFirstPage n _ r Hr); [now apply Hload|].
          unfold isFirstPage. now rewrite Hthen.
        * split; [lia | now apply removeNth_Forall]. }
  destruct Hrest as (Ht & (Hm & Hl & Hp) & Hf).
  constructor; assumption.
Qed.

(** The invariants hold in every state the page can reach. *)
Lemma run_Inv (events : list Event) : Inv (run events).
Proof.
  unfold run. induction events as [|e events IH] using rev_ind.
  - constructor.
    + apply selectionInv_initial.
    + intros C. now elim C.
    + exact I.
    + reflexivity.
    + discriminate.
    + split; [cbn; lia | constructor].
    + split; [reflexivity|]. split; [constructor | intros []].
  - rewrite fold_left_app. cbn [fold_left]. now apply step_Inv.
Qed.

(** ** The debounced search *)

Lemma timer_fires_current (events : list Event) :
  let w := run events in
  match timer w with
  | Some _ => blank (query (ui w)) = false
              /\ inFlight (step w TimerFires) = inFlight w ++ [firstPageRequest (ui w)]
  | None => step w TimerFires = w
  end.
Proof.
  cbv zeta. pose proof (inv_timer (run_Inv events)) as H. unfold timerInv in H.
  cbn [step]. destruct (timer (run events)) as [c|]; [|reflexivity].
  destruct H as (Hq & Hc & Hb). split; [exact Hb|].
  unfold timerCallback, firstPageRequest. cbn [inFlight]. now rewrite Hq, Hc.
Qed.

(** X11. In every state the page can reach, a pending search is the search for
    what the page shows now: when the timer fires, exactly one request is
    sent, for page 1 of the present query with the present categories, and
    the query is not blank; without a pending timer nothing happens. *)
Theorem pending_search_is_current (events : list Event) :
  let w := run events in
  match timer w with
  | Some _ => blank (query (ui w)) = false
              /\ inFlight (step w TimerFires) = inFlight w ++ [firstPageRequest (ui w)]
  | None => step w TimerFires = w
  end.
Proof. apply timer_fires_current. Qed.

Lemma input_sends_nothing (w : World) (e : Event) :
  resultsInv (ui w) -> isInput e = true -> inFlight (step w e) = inFlight w.
Proof.
  intros Hres He. destruct e; try discriminate He; cbn [step].
  - destruct (streq _ _); [reflexivity|]. unfold searchEffect, withUI. cbn [ui].
    now destruct (blank _).
  - unfold resetEffect, searchEffect, withUI. cbn [ui]. now destruct (blank _).
  - unfold resetEffect, searchEffect, withUI. cbn [ui]. now destruct (blank _).
  - reflexivity.
  - now rewrite (@viewAllShown_false _ Hres).
Qed.

(** X12. However many times the query and the categories change before the
    timer fires, nothing is sent in the meantime, and the timer then sends
    at most one request: the one for the state the changes ended in. *)
Theorem input_burst_sends_once (events burst : list Event) :
  forallb isInput burst = true ->
  let w := run events in
  let w' := run (events ++ burst) in
  inFlight w' = inFlight w
  /\ (inFlight (step w' TimerFires) = inFlight w
      \/ inFlight (step w' TimerFires) = inFlight w ++ [firstPageRequest (ui w')]).
Proof.
  intros Hb. cbv zeta.
  assert (Hsame : inFlight (run (events ++ burst)) = inFlight (run events)).
  { induction burst as [|e burst IH] using rev_ind.
    - now rewrite app_nil_r.
    - rewrite forallb_app in Hb. apply andb_prop in Hb. destruct Hb as [Hb He].
      cbn [forallb] in He. rewrite andb_true_r in He.
      rewrite app_assoc. unfold run at 1. rewrite fold_left_app. cbn [fold_left].
      fold (run (events ++ burst)).
      rewrite input_sends_nothing; [now apply IH | | exact He].
      apply (inv_results (run_Inv (events ++ burst))). }
  split; [exact Hsame|].
  pose proof (timer_fires_current (events ++ burst)) as H. cbv zeta in H.
  destruct (timer (run (events ++ burst))).
  - right. destruct H as [_ ->]. now rewrite Hsame.
  - left. now rewrite H.
Qed.

Lemma input_burst_sends_once_witness :
  let events := [QueryChanged (lit "a"); TimerFires] in
  let burst := [QueryChanged (lit "ab"); CategoryClick (lit "tools");
                QueryChanged (lit "abc")] in
  let w := run events in
  let w' := run (events ++ burst) in
  inFlight w' = inFlight w
  /\ (inFlight (step w' TimerFires) = inFlight w
      \/ inFlight (step w' TimerFires) = inFlight w ++ [firstPageRequest (ui w')]).
Proof.
  exact (@input_burst_sends_once [QueryChanged (lit "a"); TimerFires]
           [QueryChanged (lit "ab"); CategoryClick (lit "tools");
            QueryChanged (lit "abc")] eq_refl).
Defined.

(** ** Fetches and their indicators *)

Lemma nth_error_snoc (l : list Request) (r : Request) (t : list Request) :
  nth_error (l ++ r :: t) (List.length l) = Some r.
Proof. rewrite nth_error_app2 by lia. now rewrite Nat.sub_diag. Qed.

Lemma removeNth_snoc (l : list Request) (r : Request) (t : list Request) :
  removeNth (List.length l) (l ++ r :: t) = l ++ t.
Proof. induction l as [|x l IH]; [reflexivity|]. cbn [List.length app removeNth]. now rewrite IH. Qed.

(** X13. The guard of [loadMoreResults] reads the flags of the render that
    built the handler. While more is on offer and nothing is being
    loaded, a first trigger sends the fetch of the next page; a second
    trigger after the re-render changes nothing; but a second trigger
    from the same render passes the guard again and sends a second fetch
    of the same page, and when both are answered the hits of both are
    appended, with the counter one page on. *)
Theorem loadMore_guard_per_render (w : World) (data1 data2 : SearchResponse) :
  hasMoreResults (ui w) = true -> loadingMore (ui w) = false ->
  let rendered := ui w in
  let n := List.length (inFlight w) in
  let once := loadMoreFrom rendered w in
  let twice := loadMoreFrom rendered once in
  let answered := step (step twice (Response n (Success data1)))
                       (Response n (Success data2)) in
  once = step w LoadMoreClick
  /\ inFlight once = inFlight w ++ [nextPageRequest rendered]
  /\ loadMoreFrom (ui once) once = once
  /\ inFlight twice = inFlight w ++ [nextPageRequest rendered; nextPageRequest rendered]
  /\ allResults (ui answered) = allResults (ui w) ++ hits data1 ++ hits data2
  /\ currentPage (ui answered) = currentPage (ui w) + 1
  /\ inFlight answered = inFlight w.
Proof.
  intros Hmore Hflag. cbv zeta.
  assert (E1 : loadMoreFrom (ui w) w
               = {| ui := setLoadingMore true (ui w); timer := timer w;
                    inFlight := inFlight w ++ [nextPageRequest (ui w)] |}).
  { unfold loadMoreFrom. now rewrite Hmore, Hflag. }
  assert (E2 : loadMoreFrom (ui w) (loadMoreFrom (ui w) w)
               = {| ui := setLoadingMore true (setLoadingMore true (ui w));
                    timer := timer w;
                    inFlight := inFlight w
                                ++ [nextPageRequest (ui w); nextPageRequest (ui w)] |}).
  { rewrite E1. unfold loadMoreFrom. rewrite Hmore, Hflag. cbn [negb orb ui timer inFlight].
    now rewrite <- app_assoc. }
  split; [|split; [|split; [|split]]].
  - rewrite E1. cbn [step]. unfold loadMoreResults, nextPageRequest.
    now rewrite Hmore, Hflag.
  - now rewrite E1.
  - rewrite E1. unfold loadMoreFrom. cbn [ui loadingMore setLoadingMore].
    now rewrite orb_true_r.
  - now rewrite E2.
  - rewrite E2. cbn [step inFlight]. rewrite nth_error_snoc, removeNth_snoc.
    cbn [ui timer inFlight nextPageRequest r_then].
    rewrite nth_error_snoc, removeNth_snoc.
    cbn [ui timer inFlight nextPageRequest r_then].
    unfold resolved, searchUtilities, afterNextPage. cbv zeta.
    cbn [allResults currentPage setLoadingMore setCurrentPage setResults setAllResults ui].
    rewrite <- app_assoc, app_nil_r. repeat split.
Qed.

Lemma loadMore_guard_per_render_witness :
  let w := firstPageServed (lit "a") (corpus 150) in
  let data := serve (corpus 150) (searchBody (lit "a") [] 2) in
  let rendered := ui w in
  let n := List.length (inFlight w) in
  let once := loadMoreFrom rendered w in
  let twice := loadMoreFrom rendered once in
  let answered := step (step twice (Response n (Success data)))
                       (Response n (Success data)) in
  once = step w LoadMoreClick
  /\ inFlight once = inFlight w ++ [nextPageRequest rendered]
  /\ loadMoreFrom (ui once) once = once
  /\ inFlight twice = inFlight w ++ [nextPageRequest rendered; nextPageRequest rendered]
  /\ allResults (ui answered) = allResults (ui w) ++ hits data ++ hits data
  /\ currentPage (ui answered) = currentPage (ui w) + 1
  /\ inFlight answered = inFlight w.
Proof.
  apply (@loadMore_guard_per_render (firstPageServed (lit "a") (corpus 150))
           (serve (corpus 150) (searchBody (lit "a") [] 2))
           (serve (corpus 150) (searchBody (lit "a") [] 2)));
    vm_compute; reflexivity.
Defined.

(** X14. In every state the page can reach, the loading indicator shows only
    while the fetch of a first page is in flight; so when no fetch is in
    flight, neither indicator shows. *)
Theorem indicators_end_with_fetches (events : list Event) :
  let w := run events in
  implb (loading (ui w)) (existsb isFirstPage (inFlight w)) = true
  /\ match inFlight w with
     | [] => loading (ui w) = false /\ loadingMore (ui w) = false
     | _ :: _ => True
     end.
Proof.
  cbv zeta. pose proof (inv_loading (run_Inv events)) as Hl.
  pose proof (inv_loadMore (run_Inv events)) as Hm.
  unfold loadingInv in Hl. unfold loadMoreInv, pendingNextPages in Hm.
  split.
  - destruct (loading (ui (run events))); [cbn; now apply Hl | reflexivity].
  - destruct (inFlight (run events)); [|exact I]. split.
    + destruct (loading (ui (run events))); [|reflexivity]. now specialize (Hl eq_refl).
    + destruct (loadingMore (ui (run events))); [discriminate Hm | reflexivity].
Qed.

(** X15. In every state the page can reach, the page counter is at least 1,
    and every request in flight asks for a whole page at a whole multiple
    of the page size: a first page at offset 0, a further page at an offset
    of 100 or more. *)
Theorem requests_ask_whole_pages (events : list Event) :
  let w := run events in
  1 <= currentPage (ui w)
  /\ Forall (fun r => limit (requestBody r) = 100
                      /\ offset (requestBody r) = 100 * (r_page r - 1)
                      /\ (if isFirstPage r then r_page r = 1 else 2 <= r_page r))
            (inFlight w).
Proof.
  cbv zeta. destruct (inv_page (run_Inv events)) as [Hp Hreq]. split; [exact Hp|].
  revert Hreq. apply Forall_impl. intros r Hr. unfold requestBody, searchBody.
  cbn [limit offset]. split; [reflexivity|]. split; [lia|].
  unfold pageOf in Hr. unfold isFirstPage. destruct (r_then r); lia.
Qed.

(** ** The selection *)

(** X16. In every state the page can reach, the categories a search filters on
    are the selected categories, no category is selected twice, and "all"
    is never one of them. *)
Theorem filter_is_selection (events : list Event) :
  let s := ui (run events) in
  getEffectiveCategories s = selectedCategories s
  /\ NoDup (selectedCategories s)
  /\ ~ In (lit "all") (selectedCategories s).
Proof. exact (inv_filter (run_Inv events)). Qed.

(** X17. In every state the page can reach, the results shown are among the
    accumulated ones, so the "View all results" button is never shown and
    its handler changes nothing. *)
Theorem viewAll_never_shown (events : list Event) :
  viewAllShown (ui (run events)) = false
  /\ step (run events) ViewAllClick = run events.
Proof.
  pose proof (@viewAllShown_false _ (inv_results (run_Inv events))) as H.
  split; [exact H|]. cbn [step]. now rewrite H.
Qed.

(** ** Right clicks *)

Lemma effects_keep_selection (w : World) :
  activeCategory (ui (resetEffect (searchEffect w))) = activeCategory (ui w)
  /\ selectedCategories (ui (resetEffect (searchEffect w))) = selectedCategories (ui w).
Proof. unfold resetEffect, searchEffect, withUI. now destruct (blank _). Qed.

Lemma rightClick_selection (category : jsstring) (w : World) :
  category <> lit "all" ->
  selectedCategories (ui (step w (CategoryRightClick category)))
  = toggled category (selectedCategories (ui w)).
Proof.
  intros Hc. apply streq_false in Hc. cbn [step].
  rewrite (proj2 (effects_keep_selection _)). cbn [withUI ui]. unfold handleCategoryRightClick, toggled. rewrite Hc.
  cbv zeta. destruct (existsb _ _); [|reflexivity].
  now destruct (List.length _ =? 0)%nat.
Qed.

Lemma filter_out_absent (c : jsstring) (l : list jsstring) :
  ~ In c l -> List.filter (fun cat => negb (streq cat c)) l = l.
Proof.
  induction l as [|x l IH]; [reflexivity|]. intros H. cbn [List.filter].
  destruct (streq x c) eqn:E.
  - apply streq_true in E. subst x. elim H. now left.
  - cbn [negb]. f_equal. apply IH. intros Hin. apply H. now right.
Qed.

Lemma filter_out_In (c a : jsstring) (l : list jsstring) :
  In a (List.filter (fun cat => negb (streq cat c)) l) <-> In a l /\ a <> c.
Proof.
  rewrite filter_In. split; intros [H1 H2]; split; auto.
  - apply streq_false. now destruct (streq a c).
  - apply streq_false in H2. now rewrite H2.
Qed.

Lemma toggled_In (c a : jsstring) (l : list jsstring) :
  a <> c -> (In a (toggled c l) <-> In a l).
Proof.
  intros Hac. unfold toggled. destruct (existsb (streq c) l).
  - rewrite filter_out_In. tauto.
  - rewrite in_app_iff. cbn [In]. split; [intros [H|[H|[]]]; [exact H|congruence] | tauto].
Qed.

Lemma existsb_In_iff (c : jsstring) (l l' : list jsstring) :
  (In c l <-> In c l') -> existsb (streq c) l = existsb (streq c) l'.
Proof.
  intros H. destruct (existsb (streq c) l') eqn:E.
  - apply existsb_streq. apply H. now apply existsb_streq.
  - apply Bool.not_true_iff_false. intros C. apply existsb_streq in C.
    apply H in C. apply existsb_streq in C. congruence.
Qed.

Lemma filter_out_comm (a b : jsstring) (l : list jsstring) :
  List.filter (fun cat => negb (streq cat a)) (List.filter (fun cat => negb (streq cat b)) l)
  = List.filter (fun cat => negb (streq cat b)) (List.filter (fun cat => negb (streq cat a)) l).
Proof.
  induction l as [|x l IH]; [reflexivity|]. cbn [List.filter].
  destruct (streq x a) eqn:Ea, (streq x b) eqn:Eb; cbn [negb List.filter];
    rewrite ?Ea, ?Eb; cbn [negb]; now rewrite IH.
Qed.

Lemma toggled_comm (a b : jsstring) (l : list jsstring) :
  Permutation (toggled b (toggled a l)) (toggled a (toggled b l)).
Proof.
  destruct (jsstring_eq_dec a b) as [->|Hab]; [reflexivity|].
  assert (Hba : b <> a) by congruence.
  unfold toggled at 1 3.
  rewrite (@existsb_In_iff _ _ _ (@toggled_In a b l Hba)), (@existsb_In_iff _ _ _ (@toggled_In b a l Hab)).
  unfold toggled.
  destruct (existsb (streq a) l) eqn:Ea, (existsb (streq b) l) eqn:Eb.
  - now rewrite filter_out_comm.
  - rewrite filter_app. cbn [List.filter]. apply streq_false in Hba. now rewrite Hba.
  - rewrite filter_app. cbn [List.filter]. apply streq_false in Hab. now rewrite Hab.
  - rewrite <- !app_assoc. apply Permutation_app_head. apply perm_swap.
Qed.

Lemma filter_out_perm (c : jsstring) (l : list jsstring) :
  NoDup l -> In c l ->
  Permutation (List.filter (fun cat => negb (streq cat c)) l ++ [c]) l.
Proof.
  induction 1 as [|x l Hx Hl IH]; intros Hin; [destruct Hin|].
  cbn [List.filter]. destruct (streq x c) eqn:E.
  - apply streq_true in E. subst x. cbn [negb].
    rewrite (@filter_out_absent _ _ Hx). apply Permutation_sym, Permutation_cons_append.
  - apply streq_false in E. destruct Hin as [->|Hin]; [congruence|].
    cbn [negb app]. constructor. now apply IH.
Qed.

Lemma toggled_twice (c : jsstring) (l : list jsstring) :
  NoDup l ->
  Permutation (toggled c (toggled c l)) l
  /\ (~ In c l -> toggled c (toggled c l) = l).
Proof.
  intros Hnd.
  destruct (existsb (streq c) l) eqn:E.
  - assert (Hin : In c l) by now apply existsb_streq.
    split; [|tauto]. unfold toggled at 2. rewrite E. unfold toggled.
    replace (existsb (streq c) (List.filter (fun cat => negb (streq cat c)) l)) with false.
    + now apply filter_out_perm.
    + symmetry. apply Bool.not_true_iff_false. intros C. apply existsb_streq in C.
      apply filter_out_In in C. tauto.
  - assert (Hout : ~ In c l).
    { intros C. apply existsb_streq in C. congruence. }
    assert (Eq : toggled c (toggled c l) = l).
    { unfold toggled at 2. rewrite E. unfold toggled.
      rewrite existsb_app. cbn [existsb]. rewrite streq_refl, orb_true_r.
      rewrite filter_app. cbn [List.filter]. rewrite streq_refl. cbn [negb].
      now rewrite app_nil_r, filter_out_absent. }
    split; [now rewrite Eq | auto].
Qed.

Lemma run_snoc2 (events : list Event) (e1 e2 : Event) :
  run (events ++ [e1; e2]) = step (step (run events) e1) e2.
Proof. unfold run. now rewrite fold_left_app. Qed.

(** X18. Right clicks on two categories select the same categories in either
    order: from every state the page can reach, the categories filtered on
    afterwards are the same up to their order, and so is the active
    category. *)
Theorem rightClick_order (events : list Event) (a b : jsstring) :
  a <> lit "all" -> b <> lit "all" ->
  let s1 := ui (run (events ++ [CategoryRightClick a; CategoryRightClick b])) in
  let s2 := ui (run (events ++ [CategoryRightClick b; CategoryRightClick a])) in
  Permutation (getEffectiveCategories s1) (getEffectiveCategories s2)
  /\ activeCategory s1 = activeCategory s2.
Proof.
  intros Ha Hb. cbv zeta.
  destruct (inv_filter (run_Inv (events ++ [CategoryRightClick a; CategoryRightClick b])))
    as (E1 & _ & _).
  destruct (inv_filter (run_Inv (events ++ [CategoryRightClick b; CategoryRightClick a])))
    as (E2 & _ & _).
  assert (P : Permutation
                (selectedCategories (ui (run (events ++ [CategoryRightClick a; CategoryRightClick b]))))
                (selectedCategories (ui (run (events ++ [CategoryRightClick b; CategoryRightClick a]))))).
  { rewrite !run_snoc2, !rightClick_selection by assumption. apply toggled_comm. }
  split; [now rewrite E1, E2|].
  assert (Hact : forall w c, c <> lit "all" ->
            activeCategory (ui (step w (CategoryRightClick c)))
            = if (List.length (selectedCategories (ui (step w (CategoryRightClick c)))) =? 0)%nat
              then lit "all" else lit "multi").
  { intros w c Hc. apply streq_false in Hc. cbn [step].
    rewrite (proj1 (effects_keep_selection _)), (proj2 (effects_keep_selection _)).
    cbn [withUI ui].
    unfold handleCategoryRightClick. rewrite Hc. cbv zeta.
    destruct (existsb _ _).
    - destruct (List.filter _ _); reflexivity.
    - cbn [activeCategory selectedCategories setActiveCategory setSelectedCategories].
      rewrite length_app. cbn [List.length].
      now replace (List.length (selectedCategories (ui w)) + 1 =? 0)%nat with false
        by (symmetry; apply Nat.eqb_neq; lia). }
  rewrite !run_snoc2, (Hact _ b Hb), (Hact _ a Ha), <- !run_snoc2.
  now rewrite (Permutation_length P).
Qed.

Lemma rightClick_order_witness :
  let events := [QueryChanged (lit "a"); CategoryClick (lit "tools")] in
  let s1 := ui (run (events ++ [CategoryRightClick (lit "tldr");
                                CategoryRightClick (lit "emoji")])) in
  let s2 := ui (run (events ++ [CategoryRightClick (lit "emoji");
                                CategoryRightClick (lit "tldr")])) in
  Permutation (getEffectiveCategories s1) (getEffectiveCategories s2)
  /\ activeCategory s1 = activeCategory s2.
Proof.
  apply (@rightClick_order [QueryChanged (lit "a"); CategoryClick (lit "tools")]
           (lit "tldr") (lit "emoji")); discriminate.
Defined.

(** X19. A second right click on a category takes back the first: from every
    state the page can reach, the selection afterwards holds the
    categories it held before, and when the category was not selected it
    is the very same list. *)
Theorem rightClick_twice (events : list Event) (category : jsstring) :
  category <> lit "all" ->
  let s := ui (run events) in
  let s2 := ui (run (events ++ [CategoryRightClick category;
                                CategoryRightClick category])) in
  Permutation (selectedCategories s2) (selectedCategories s)
  /\ (existsb (streq category) (selectedCategories s) = false ->
      selectedCategories s2 = selectedCategories s).
Proof.
  intros Hc. cbv zeta. rewrite run_snoc2, !rightClick_selection by assumption.
  destruct (inv_filter (run_Inv events)) as (_ & Hnd & _).
  destruct (@toggled_twice category _ Hnd) as [HP Heq]. split; [exact HP|].
  intros E. apply Heq. intros C. apply existsb_streq in C. congruence.
Qed.

Lemma rightClick_twice_witness :
  let events := [CategoryClick (lit "tools"); CategoryRightClick (lit "tldr")] in
  let s := ui (run events) in
  let s2 := ui (run (events ++ [CategoryRightClick (lit "emoji");
                                CategoryRightClick (lit "emoji")])) in
  Permutation (selectedCategories s2) (selectedCategories s)
  /\ (existsb (streq (lit "emoji")) (selectedCategories s) = false ->
      selectedCategories s2 = selectedCategories s).
Proof.
  apply (@rightClick_twice [CategoryClick (lit "tools"); CategoryRightClick (lit "tldr")]
           (lit "emoji")). discriminate.
Defined.

(** ** Paging through a result *)


Lemma blank_nonempty (q : jsstring) : blank q = false -> q <> [].
Proof. intros H ->. discriminate H. Qed.






(** ** The category buttons *)

(** X20. In every state the page can reach, the buttons drawn as selected are
    the categories the search filters on. *)
Theorem selected_buttons_are_filter (events : list Event) (category : jsstring) :
  category <> lit "all" -> category <> lit "multi" ->
  let s := ui (run events) in
  buttonSelected category s = existsb (streq category) (getEffectiveCategories s).
Proof.
  intros Hall Hmulti. cbv zeta.
  destruct (inv_filter (run_Inv events)) as (Heff & _ & _).
  unfold buttonSelected. rewrite Heff.
  destruct (streq (activeCategory (ui (run events))) category) eqn:E; [|reflexivity].
  apply streq_true in E. cbn [orb]. symmetry.
  unfold getEffectiveCategories in Heff. rewrite E in Heff.
  apply streq_false in Hall, Hmulti. rewrite Hall, Hmulti in Heff.
  rewrite <- Heff. cbn [existsb]. now rewrite streq_refl.
Qed.

Lemma selected_buttons_are_filter_witness :
  let s := ui (run [CategoryClick (lit "tools"); CategoryRightClick (lit "tldr")]) in
  buttonSelected (lit "tools") s
  = existsb (streq (lit "tools")) (getEffectiveCategories s).
Proof.
  apply (@selected_buttons_are_filter
           [CategoryClick (lit "tools"); CategoryRightClick (lit "tldr")] (lit "tools"));
    discriminate.
Defined.


End SearchFacts.

(* ================================================================== *)
(** * The search page: the query in the URL hash                      *)
(* ================================================================== *)

Module UrlHash.
Import JS Search.
Local Open Scope N_scope.

(** ** Code points, UTF-16 and UTF-8 *)

Definition isLeadingSurrogate (u : N) : bool := (0xD800 <=? u) && (u <=? 0xDBFF).
Definition isTrailingSurrogate (u : N) : bool := (0xDC00 <=? u) && (u <=? 0xDFFF).

(** UTF16SurrogatePairToCodePoint of ECMAScript. *)
Definition surrogatePair (lead trail : N) : N :=
  (lead - 0xD800) * 0x400 + (trail - 0xDC00) + 0x10000.

(** CodePointToUTF16CodeUnits of ECMAScript. *)
Definition utf16Encode (cp : N) : jsstring :=
  if cp <=? 0xFFFF then [cp]
  else [(cp - 0x10000) / 0x400 + 0xD800; (cp - 0x10000) mod 0x400 + 0xDC00].

(** The UTF-8 transformation of a code point: its octets. *)
Definition utf8Encode (cp : N) : list N :=
  if cp <? 0x80 then [cp]
  else if cp <? 0x800 then [0xC0 + cp / 64; 0x80 + cp mod 64]
  else if cp <? 0x10000
  then [0xE0 + cp / 4096; 0x80 + (cp / 64) mod 64; 0x80 + cp mod 64]
  else [0xF0 + cp / 262144; 0x80 + (cp / 4096) mod 64; 0x80 + (cp / 64) mod 64;
        0x80 + cp mod 64].

(** The conversion of a string to scalar values (USVString of Web IDL):
    a surrogate without its partner becomes U+FFFD. *)
Fixpoint toScalarValues (s : jsstring) : list N :=
  match s with
  | [] => []
  | c :: rest =>
      if isLeadingSurrogate c then
        match rest with
        | d :: rest' =>
            if isTrailingSurrogate d
            then surrogatePair c d :: toScalarValues rest'
            else 0xFFFD :: toScalarValues rest
        | [] => [0xFFFD]
        end
      else if isTrailingSurrogate c then 0xFFFD :: toScalarValues rest
      else c :: toScalarValues rest
  end.

(** [UTF-8 encode] of the Encoding standard, on a string. *)
Definition utf8EncodeString (s : jsstring) : list N :=
  flat_map utf8Encode (toScalarValues s).

(** The UTF-8 decoder of the Encoding standard. *)
Record Utf8Decoder := {
  codePoint : N;
  bytesNeeded : N;
  bytesSeen : N;
  lowerBoundary : N;
  upperBoundary : N
}.

Definition utf8Start : Utf8Decoder :=
  {| codePoint := 0; bytesNeeded := 0; bytesSeen := 0;
     lowerBoundary := 0x80; upperBoundary := 0xBF |}.

(** The handler on a byte while no bytes are needed. *)
Definition utf8Lead (byte : N) : Utf8Decoder * list N :=
  if byte <=? 0x7F then (utf8Start, [byte])
  else if (0xC2 <=? byte) && (byte <=? 0xDF)
  then ({| codePoint := N.land byte 0x1F; bytesNeeded := 1; bytesSeen := 0;
           lowerBoundary := 0x80; upperBoundary := 0xBF |}, [])
  else if (0xE0 <=? byte) && (byte <=? 0xEF)
  then ({| codePoint := N.land byte 0xF; bytesNeeded := 2; bytesSeen := 0;
           lowerBoundary := if byte =? 0xE0 then 0xA0 else 0x80;
           upperBoundary := if byte =? 0xED then 0x9F else 0xBF |}, [])
  else if (0xF0 <=? byte) && (byte <=? 0xF4)
  then ({| codePoint := N.land byte 0x7; bytesNeeded := 3; bytesSeen := 0;
           lowerBoundary := if byte =? 0xF0 then 0x90 else 0x80;
           upperBoundary := if byte =? 0xF4 then 0x8F else 0xBF |}, [])
  else (utf8Start, [0xFFFD]).

(** The handler on a byte: the decoder after it and the code points it
    emits. A byte outside the boundaries is an error, and is then handled
    again with no bytes needed. *)
Definition utf8Handler (d : Utf8Decoder) (byte : N) : Utf8Decoder * list N :=
  if bytesNeeded d =? 0 then utf8Lead byte
  else if negb ((lowerBoundary d <=? byte) && (byte <=? upperBoundary d))
  then let (d', out) := utf8Lead byte in (d', 0xFFFD :: out)
  else
    let cp := N.lor (N.shiftl (codePoint d) 6) (N.land byte 0x3F) in
    if bytesSeen d + 1 =? bytesNeeded d then (utf8Start, [cp])
    else ({| codePoint := cp; bytesNeeded := bytesNeeded d;
             bytesSeen := bytesSeen d + 1;
             lowerBoundary := 0x80; upperBoundary := 0xBF |}, []).

Fixpoint utf8DecodeFrom (d : Utf8Decoder) (bytes : list N) : list N :=
  match bytes with
  | [] => if bytesNeeded d =? 0 then [] else [0xFFFD]
  | byte :: rest =>
      let (d', out) := utf8Handler d byte in out ++ utf8DecodeFrom d' rest
  end.

(** [UTF-8 decode without BOM], as a string. *)
Definition utf8DecodeString (bytes : list N) : jsstring :=
  flat_map utf16Encode (utf8DecodeFrom utf8Start bytes).

(** ** encodeURIComponent *)

Definition isAlpha (c : N) : bool :=
  ((0x41 <=? c) && (c <=? 0x5A)) || ((0x61 <=? c) && (c <=? 0x7A)).
Definition isDigit (c : N) : bool := (0x30 <=? c) && (c <=? 0x39).

(** uriUnreserved: letters, digits and the marks [-_.!~*'()]. *)
Definition uriUnreserved (c : N) : bool :=
  isAlpha c || isDigit c
  || existsb (N.eqb c) [0x2D; 0x5F; 0x2E; 0x21; 0x7E; 0x2A; 0x27; 0x28; 0x29].

Definition upperHexDigit (n : N) : N := if n <? 10 then 0x30 + n else 0x41 + (n - 10).

(** An octet as "%XX". *)
Definition escapeOctet (octet : N) : jsstring :=
  [0x25; upperHexDigit (octet / 16); upperHexDigit (octet mod 16)].

(** Encode of ECMAScript with the unescaped set [unescaped]; [None] is
    the URIError thrown at an unpaired surrogate. *)
Fixpoint Encode (unescaped : N -> bool) (s : jsstring) : option jsstring :=
  match s with
  | [] => Some []
  | C :: rest =>
      if unescaped C then option_map (cons C) (Encode unescaped rest)
      else if isLeadingSurrogate C then
        match rest with
        | second :: rest' =>
            if isTrailingSurrogate second
            then option_map
                   (app (flat_map escapeOctet (utf8Encode (surrogatePair C second))))
                   (Encode unescaped rest')
            else None
        | [] => None
        end
      else if isTrailingSurrogate C then None
      else option_map (app (flat_map escapeOctet (utf8Encode C)))
                      (Encode unescaped rest)
  end.

Definition encodeURIComponent (s : jsstring) : option jsstring :=
  Encode uriUnreserved s.

(** ** URLSearchParams *)

Definition isHexDigit (b : N) : bool :=
  isDigit b || ((0x41 <=? b) && (b <=? 0x46)) || ((0x61 <=? b) && (b <=? 0x66)).

Definition hexValue (b : N) : N :=
  if isDigit b then b - 0x30
  else if (0x41 <=? b) && (b <=? 0x46) then b - 0x37
  else b - 0x57.

(** [percent-decode] of the URL standard. *)
Fixpoint percentDecode (input : list N) : list N :=
  match input with
  | [] => []
  | byte :: rest =>
      if negb (byte =? 0x25) then byte :: percentDecode rest
      else
        match rest with
        | h1 :: h2 :: rest' =>
            if isHexDigit h1 && isHexDigit h2
            then (hexValue h1 * 16 + hexValue h2) :: percentDecode rest'
            else byte :: percentDecode rest
        | _ => byte :: percentDecode rest
        end
  end.

(** The pieces of [input] between the bytes [sep]. *)
Fixpoint splitOn (sep : N) (input : list N) : list (list N) :=
  match input with
  | [] => [[]]
  | b :: rest =>
      match splitOn sep rest with
      | piece :: pieces => if b =? sep then [] :: piece :: pieces
                           else (b :: piece) :: pieces
      | [] => []
      end
  end.

(** Name and value of a piece: cut at its first "=". *)
Fixpoint nameValue (bytes : list N) : list N * list N :=
  match bytes with
  | [] => ([], [])
  | b :: rest => if b =? 0x3D then ([], rest)
                 else let (name, value) := nameValue rest in (b :: name, value)
  end.

Definition plusToSpace (b : N) : N := if b =? 0x2B then 0x20 else b.

Definition decodeComponent (bytes : list N) : jsstring :=
  utf8DecodeString (percentDecode (map plusToSpace bytes)).

(** The application/x-www-form-urlencoded parser of the URL standard. *)
Definition parseUrlencoded (input : list N) : list (jsstring * jsstring) :=
  flat_map (fun bytes =>
              match bytes with
              | [] => []
              | _ :: _ => let (name, value) := nameValue bytes in
                          [(decodeComponent name, decodeComponent value)]
              end)
           (splitOn 0x26 input).

(** [new URLSearchParams(init)] for a string. *)
Definition URLSearchParams (init : jsstring) : list (jsstring * jsstring) :=
  let init := match init with
              | 0x3F :: rest => rest
              | _ => init
              end in
  parseUrlencoded (utf8EncodeString init).

(** [params.get(name)]: the value of the first pair of that name. *)
Fixpoint get (name : jsstring) (params : list (jsstring * jsstring))
  : option jsstring :=
  match params with
  | [] => None
  | (n, v) :: rest => if streq n name then Some v else get name rest
  end.

(** ** window.location.hash *)

(** The fragment percent-encode set of the URL standard. *)
Definition inFragmentSet (c : N) : bool :=
  (c <=? 0x1F) || (0x7E <? c)
  || existsb (N.eqb c) [0x20; 0x22; 0x3C; 0x3E; 0x60].

Definition isTabOrNewline (c : N) : bool := existsb (N.eqb c) [0x09; 0x0A; 0x0D].

(** The fragment of the URL after [location.hash = value]: one leading
    "#" is dropped, tabs and newlines are removed, and the code points of
    the fragment percent-encode set are escaped. *)
Definition setHash (value : jsstring) : jsstring :=
  let input := match value with
               | 0x23 :: rest => rest
               | _ => value
               end in
  flat_map (fun c => if inFragmentSet c
                     then flat_map escapeOctet (utf8Encode c)
                     else [c])
           (List.filter (fun c => negb (isTabOrNewline c)) (toScalarValues input)).

(** [location.hash] for a URL with the fragment [fragment]. *)
Definition hash (fragment : jsstring) : jsstring :=
  match fragment with
  | [] => []
  | _ :: _ => 0x23 :: fragment
  end.

Fixpoint startsWith (s prefix : jsstring) {struct prefix} : bool :=
  match prefix, s with
  | [], _ => true
  | p :: prefix', c :: s' => (c =? p) && startsWith s' prefix'
  | _ :: _, [] => false
  end.

(** ** The two functions of the page *)

(** [updateUrlHash(searchQuery)] on a URL with the fragment [fragment]:
    the fragment afterwards, or [None] when it throws. *)
Definition updateUrlHash (searchQuery : jsstring) (fragment : jsstring)
  : option jsstring :=
  if truthy (trim searchQuery) then
    option_map (fun encoded => setHash (lit "search?q=" ++ encoded))
               (encodeURIComponent searchQuery)
  else if startsWith (hash fragment) (lit "#search") then Some []
  else Some fragment.

(** [checkHashForSearch] on [location.hash]: the query it sets, if any. *)
Definition checkHashForSearch (locationHash : jsstring) : option jsstring :=
  if startsWith locationHash (lit "#search?q=") then
    let hashParams := URLSearchParams (skipn 8 locationHash) in
    match get (lit "q") hashParams with
    | Some searchParam => if truthy searchParam then Some searchParam else None
    | None => None
    end
  else None.

(** ** Strings *)

(** The code units of a string are 16 bits wide. *)
Definition isString (s : jsstring) : bool := forallb (fun u => u <? 0x10000) s.

(** [String.prototype.isWellFormed]: no surrogate without its partner. *)
Fixpoint isWellFormed (s : jsstring) : bool :=
  match s with
  | [] => true
  | c :: rest =>
      if isLeadingSurrogate c then
        match rest with
        | d :: rest' => isTrailingSurrogate d && isWellFormed rest'
        | [] => false
        end
      else negb (isTrailingSurrogate c) && isWellFormed rest
  end.


(** What [encodeURIComponent] writes: unreserved characters and "%". *)
Definition escaped (c : N) : bool := uriUnreserved c || (c =? 0x25).

(** A code unit that passes through the hash and the parser as it is. *)
Definition passes (c : N) : bool :=
  (c <? 0x80) && negb (inFragmentSet c) && negb (isTabOrNewline c)
  && negb (c =? 0x26) && negb (c =? 0x2B).

(** The value of a parameter, decoded, without the replacement of "+". *)
Definition decoded (bytes : list N) : jsstring :=
  utf8DecodeString (percentDecode bytes).

(** A scalar value: a code point that is no surrogate. *)
Definition isScalar (cp : N) : bool :=
  (cp <? 0x110000) && negb ((0xD800 <=? cp) && (cp <=? 0xDFFF)).

(** ** Arithmetic of the encodings *)

Ltac nlia := zify; Z.to_euclidean_division_equations; lia.

(** Decides the comparisons of the goal that the hypotheses settle. *)
Ltac cmp :=
  match goal with
  | |- context [(?a <=? ?b)] =>
      first [ replace (a <=? b) with true by (symmetry; apply N.leb_le; lia)
            | replace (a <=? b) with false by (symmetry; apply N.leb_gt; lia) ]
  | |- context [(?a <? ?b)] =>
      first [ replace (a <? b) with true by (symmetry; apply N.ltb_lt; lia)
            | replace (a <? b) with false by (symmetry; apply N.ltb_ge; lia) ]
  | |- context [(?a =? ?b)] =>
      first [ replace (a =? b) with true by (symmetry; apply N.eqb_eq; lia)
            | replace (a =? b) with false by (symmetry; apply N.eqb_neq; lia) ]
  end.

(** Runs the decoder over the bytes at the head of the goal. *)
Ltac decode_bytes :=
  cbn [app utf8DecodeFrom]; unfold utf8Handler, utf8Lead;
  repeat (repeat cmp;
          cbn [andb negb bytesNeeded bytesSeen codePoint lowerBoundary
               upperBoundary utf8Start app]).

Lemma land_ones5 (b : N) : N.land b 0x1F = b mod 32.
Proof. change 0x1F with (N.ones 5). now rewrite N.land_ones. Qed.

Lemma land_ones4 (b : N) : N.land b 0xF = b mod 16.
Proof. change 0xF with (N.ones 4). now rewrite N.land_ones. Qed.

Lemma land_ones3 (b : N) : N.land b 0x7 = b mod 8.
Proof. change 0x7 with (N.ones 3). now rewrite N.land_ones. Qed.

Lemma land_ones6 (b : N) : N.land b 0x3F = b mod 64.
Proof. change 0x3F with (N.ones 6). now rewrite N.land_ones. Qed.

Lemma lor_shiftl6 (c m : N) : N.lor (N.shiftl c 6) (m mod 64) = c * 64 + m mod 64.
Proof.
  assert (H : m mod 64 < 64) by (apply N.mod_lt; discriminate).
  generalize dependent (m mod 64). intros k H.
  rewrite N.shiftl_mul_pow2. change (2 ^ 6) with 64.
  rewrite <- N.lxor_lor, <- N.add_nocarry_lxor; try reflexivity.
  all: apply N.bits_inj_0; intros i; rewrite N.land_spec;
    destruct (N.lt_ge_cases i 6) as [Hi|Hi].
  all: try (change 64 with (2 ^ 6); rewrite N.mul_pow2_bits_low by exact Hi; reflexivity).
  all: rewrite (N.bits_above_log2 k i), andb_false_r; try reflexivity.
  all: destruct (N.eq_dec k 0) as [->|Hk]; [simpl; lia|];
    apply N.lt_le_trans with 6; [|exact Hi]; apply N.log2_lt_pow2; lia.
Qed.

Lemma isScalar_range (cp : N) :
  isScalar cp = true -> cp < 0x110000 /\ (cp < 0xD800 \/ 0xDFFF < cp).
Proof.
  unfold isScalar. intros H. apply andb_prop in H. destruct H as [H1 H2].
  apply N.ltb_lt in H1. split; [exact H1|].
  destruct (0xD800 <=? cp) eqn:E1; [|apply N.leb_gt in E1; now left].
  destruct (cp <=? 0xDFFF) eqn:E2; [discriminate|]. apply N.leb_gt in E2. now right.
Qed.

Lemma utf8Encode_octets (cp : N) :
  cp < 0x110000 -> Forall (fun o => o < 256) (utf8Encode cp).
Proof.
  intros H. unfold utf8Encode.
  destruct (N.ltb_spec cp 0x80); [repeat constructor; nlia|].
  destruct (N.ltb_spec cp 0x800); [repeat constructor; nlia|].
  destruct (N.ltb_spec cp 0x10000); repeat constructor; nlia.
Qed.

(** Decoding what was encoded gives the scalar value back, and leaves the
    decoder where it started. *)
Lemma utf8Decode_encode (cp : N) (rest : list N) :
  isScalar cp = true ->
  utf8DecodeFrom utf8Start (utf8Encode cp ++ rest) = cp :: utf8DecodeFrom utf8Start rest.
Proof.
  intros H. apply isScalar_range in H. destruct H as [Hmax Hsur].
  unfold utf8Encode.
  destruct (N.ltb_spec cp 0x80) as [H1|H1]; [decode_bytes; reflexivity|].
  destruct (N.ltb_spec cp 0x800) as [H2|H2].
  { assert (F : cp = 64 * (cp / 64) + cp mod 64 /\ cp mod 64 < 64) by nlia.
    revert F. generalize (cp / 64) (cp mod 64). intros a c [F Hc].
    decode_bytes. rewrite land_ones5, land_ones6, lor_shiftl6. f_equal. nlia. }
  destruct (N.ltb_spec cp 0x10000) as [H3|H3].
  { assert (F : cp = 4096 * (cp / 4096) + 64 * ((cp / 64) mod 64) + cp mod 64
                /\ (cp / 64) mod 64 < 64 /\ cp mod 64 < 64) by nlia.
    revert F. generalize (cp / 4096) ((cp / 64) mod 64) (cp mod 64).
    intros a b c (F & Hb & Hc).
    destruct (N.eq_dec a 0) as [E0|E0]; destruct (N.eq_dec a 13) as [E13|E13];
      try (exfalso; lia); decode_bytes;
      rewrite land_ones4, !land_ones6, !lor_shiftl6; f_equal; nlia. }
  assert (F : cp = 262144 * (cp / 262144) + 4096 * ((cp / 4096) mod 64)
                   + 64 * ((cp / 64) mod 64) + cp mod 64
              /\ (cp / 4096) mod 64 < 64 /\ (cp / 64) mod 64 < 64 /\ cp mod 64 < 64)
    by nlia.
  revert F. generalize (cp / 262144) ((cp / 4096) mod 64) ((cp / 64) mod 64) (cp mod 64).
  intros a b c d (F & Hb & Hc & Hd).
  destruct (N.eq_dec a 0) as [E0|E0]; destruct (N.eq_dec a 4) as [E4|E4];
    try (exfalso; lia); decode_bytes;
    rewrite land_ones3, !land_ones6, !lor_shiftl6; f_equal; nlia.
Qed.


(** ** ASCII by cases *)

Lemma ascii_forall (P : N -> bool) :
  forallb P (map N.of_nat (seq 0 128)) = true -> forall c, c < 128 -> P c = true.
Proof.
  intros H c Hc. rewrite forallb_forall in H. apply H.
  apply in_map_iff. exists (N.to_nat c). split; [apply N2Nat.id|].
  apply in_seq. lia.
Qed.

Lemma uriUnreserved_ascii (c : N) : uriUnreserved c = true -> c < 128.
Proof.
  unfold uriUnreserved, isAlpha, isDigit. cbn [existsb]. intros H.
  repeat (apply orb_prop in H; destruct H as [H|H]);
    try (apply andb_prop in H; destruct H as [H H']; apply N.leb_le in H, H'; lia);
    try (apply N.eqb_eq in H; lia); discriminate.
Qed.

Lemma escaped_passes (c : N) :
  escaped c = true -> passes c = true /\ c <> 0x3D /\ c <> 0x23 /\ c <> 0x3F.
Proof.
  intros H.
  assert (Hc : c < 128).
  { unfold escaped in H. apply orb_prop in H. destruct H as [H|H];
      [now apply uriUnreserved_ascii | apply N.eqb_eq in H; lia]. }
  pose proof (@ascii_forall
                (fun c => implb (escaped c)
                            (passes c && negb (c =? 0x3D) && negb (c =? 0x23)
                             && negb (c =? 0x3F)))
                eq_refl c Hc) as A.
  cbv beta in A. rewrite H in A. cbn [implb] in A.
  apply andb_prop in A. destruct A as [A A3].
  apply andb_prop in A. destruct A as [A A2].
  apply andb_prop in A. destruct A as [A A1].
  split; [exact A|]. repeat split; intros E; subst c; discriminate.
Qed.

Lemma uriUnreserved_plain (c : N) :
  uriUnreserved c = true -> c < 128 /\ (c =? 0x25) = false.
Proof.
  intros H. pose proof (uriUnreserved_ascii _ H) as Hc. split; [exact Hc|].
  pose proof (@ascii_forall (fun c => implb (uriUnreserved c) (negb (c =? 0x25)))
                eq_refl c Hc) as A.
  cbv beta in A. rewrite H in A. cbn [implb] in A. now destruct (c =? 0x25).
Qed.

Lemma upperHexDigit_hex (n : N) :
  n < 16 ->
  isHexDigit (upperHexDigit n) = true /\ hexValue (upperHexDigit n) = n
  /\ uriUnreserved (upperHexDigit n) = true.
Proof.
  intros Hn.
  assert (Hc : n < 128) by lia.
  pose proof (@ascii_forall
                (fun n => implb (n <? 16)
                            (isHexDigit (upperHexDigit n)
                             && (hexValue (upperHexDigit n) =? n)
                             && uriUnreserved (upperHexDigit n)))
                eq_refl n Hc) as A.
  cbv beta in A. apply N.ltb_lt in Hn. rewrite Hn in A. cbn [implb] in A.
  apply andb_prop in A. destruct A as [A A2].
  apply andb_prop in A. destruct A as [A A1].
  split; [exact A|]. split; [now apply N.eqb_eq | exact A2].
Qed.

(** ** Escapes *)

Lemma percentDecode_escapeOctet (octet : N) (rest : list N) :
  octet < 256 -> percentDecode (escapeOctet octet ++ rest) = octet :: percentDecode rest.
Proof.
  intros H. unfold escapeOctet. cbn [app percentDecode].
  change (0x25 =? 0x25) with true. cbn [negb].
  destruct (@upperHexDigit_hex (octet / 16)) as (H1 & V1 & _); [nlia|].
  destruct (@upperHexDigit_hex (octet mod 16)) as (H2 & V2 & _); [nlia|].
  rewrite H1, H2, V1, V2. cbn [andb]. f_equal. nlia.
Qed.

Lemma percentDecode_escapes (octets rest : list N) :
  Forall (fun o => o < 256) octets ->
  percentDecode (flat_map escapeOctet octets ++ rest) = octets ++ percentDecode rest.
Proof.
  induction 1 as [|o os Ho Hos IH]; [reflexivity|].
  cbn [flat_map]. rewrite <- app_assoc, percentDecode_escapeOctet by exact Ho.
  cbn [app]. now rewrite IH.
Qed.

Lemma escapeOctet_escaped (octet : N) :
  octet < 256 -> Forall (fun c => escaped c = true) (escapeOctet octet).
Proof.
  intros H. unfold escapeOctet.
  destruct (@upperHexDigit_hex (octet / 16)) as (_ & _ & U1); [nlia|].
  destruct (@upperHexDigit_hex (octet mod 16)) as (_ & _ & U2); [nlia|].
  constructor; [reflexivity|]. constructor; [unfold escaped; now rewrite U1|].
  constructor; [unfold escaped; now rewrite U2 | constructor].
Qed.

Lemma escapes_escaped (octets : list N) :
  Forall (fun o => o < 256) octets ->
  Forall (fun c => escaped c = true) (flat_map escapeOctet octets).
Proof.
  induction 1 as [|o os Ho Hos IH]; [constructor|].
  cbn [flat_map]. apply Forall_app. split; [now apply escapeOctet_escaped | exact IH].
Qed.

(** A code point, escaped and decoded again. *)
Lemma decoded_escapes (cp : N) (rest : list N) :
  isScalar cp = true ->
  decoded (flat_map escapeOctet (utf8Encode cp) ++ rest) = utf16Encode cp ++ decoded rest.
Proof.
  intros H. unfold decoded, utf8DecodeString.
  rewrite percentDecode_escapes
    by (apply utf8Encode_octets; now apply isScalar_range in H).
  now rewrite utf8Decode_encode.
Qed.

Lemma decoded_plain (c : N) (rest : list N) :
  c < 128 -> (c =? 0x25) = false -> decoded (c :: rest) = c :: decoded rest.
Proof.
  intros Hc Hp. unfold decoded, utf8DecodeString. cbn [percentDecode]. rewrite Hp.
  cbn [negb].
  assert (S : isScalar c = true).
  { unfold isScalar. repeat cmp. reflexivity. }
  pose proof (@utf8Decode_encode c (percentDecode rest) S) as E.
  unfold utf8Encode in E. replace (c <? 0x80) with true in E
    by (symmetry; apply N.ltb_lt; lia).
  cbn [app] in E. rewrite E. cbn [flat_map]. unfold utf16Encode.
  now replace (c <=? 0xFFFF) with true by (symmetry; apply N.leb_le; lia).
Qed.

Lemma surrogatePair_scalar (lead trail : N) :
  isLeadingSurrogate lead = true -> isTrailingSurrogate trail = true ->
  isScalar (surrogatePair lead trail) = true
  /\ utf16Encode (surrogatePair lead trail) = [lead; trail].
Proof.
  unfold isLeadingSurrogate, isTrailingSurrogate, isScalar, surrogatePair, utf16Encode.
  intros H1 H2. apply andb_prop in H1, H2. destruct H1 as [L1 L2], H2 as [T1 T2].
  apply N.leb_le in L1, L2, T1, T2. split.
  - repeat cmp. reflexivity.
  - repeat cmp. f_equal; [nlia | f_equal; nlia].
Qed.

Lemma notSurrogate (c : N) :
  isLeadingSurrogate c = false -> isTrailingSurrogate c = false ->
  c < 0xD800 \/ 0xDFFF < c.
Proof.
  unfold isLeadingSurrogate, isTrailingSurrogate.
  destruct (N.leb_spec 0xD800 c), (N.leb_spec c 0xDBFF), (N.leb_spec 0xDC00 c),
    (N.leb_spec c 0xDFFF); cbn [andb]; intros; try discriminate; lia.
Qed.

(** ** encodeURIComponent and back *)

Lemma Encode_decoded (n : nat) :
  forall (s encoded : jsstring),
    (List.length s <= n)%nat -> isString s = true ->
    encodeURIComponent s = Some encoded ->
    Forall (fun c => escaped c = true) encoded /\ decoded encoded = s.
Proof.
  unfold encodeURIComponent.
  induction n as [|n IH]; intros s encoded Hlen Hs He.
  - destruct s; [|cbn in Hlen; lia]. injection He as <-. split; [constructor|reflexivity].
  - destruct s as [|C rest]; [injection He as <-; split; [constructor|reflexivity]|].
    cbn [List.length] in Hlen. apply andb_prop in Hs. destruct Hs as [HC Hrest].
    apply N.ltb_lt in HC. fold (isString rest) in Hrest.
    cbn [Encode] in He.
    destruct (uriUnreserved C) eqn:Hu.
    { destruct (Encode uriUnreserved rest) as [e'|] eqn:E'; [|discriminate].
      injection He as <-.
      destruct (IH rest e') as [Hsafe Hdec]; [lia|exact Hrest|exact E'|].
      destruct (uriUnreserved_plain _ Hu) as [Hc Hp].
      split; [constructor; [unfold escaped; now rewrite Hu | exact Hsafe]|].
      rewrite decoded_plain by assumption. now rewrite Hdec. }
    destruct (isLeadingSurrogate C) eqn:Hl.
    { destruct rest as [|second rest']; [discriminate|].
      destruct (isTrailingSurrogate second) eqn:Ht; [|discriminate].
      destruct (Encode uriUnreserved rest') as [e'|] eqn:E'; [|discriminate].
      injection He as <-.
      apply andb_prop in Hrest. destruct Hrest as [_ Hrest'].
      destruct (IH rest' e') as [Hsafe Hdec];
        [cbn [List.length] in Hlen; lia | exact Hrest' | exact E' |].
      destruct (surrogatePair_scalar _ _ Hl Ht) as [Hsc H16].
      split.
      - apply Forall_app. split; [|exact Hsafe]. apply escapes_escaped.
        apply utf8Encode_octets. now apply isScalar_range in Hsc.
      - rewrite decoded_escapes by exact Hsc. rewrite H16, Hdec. reflexivity. }
    destruct (isTrailingSurrogate C) eqn:Ht; [discriminate|].
    destruct (Encode uriUnreserved rest) as [e'|] eqn:E'; [|discriminate].
    injection He as <-.
    destruct (IH rest e') as [Hsafe Hdec]; [lia|exact Hrest|exact E'|].
    assert (Hsc : isScalar C = true).
    { destruct (notSurrogate _ Hl Ht); unfold isScalar; repeat cmp; reflexivity. }
    split.
    + apply Forall_app. split; [|exact Hsafe]. apply escapes_escaped.
      apply utf8Encode_octets. lia.
    + rewrite decoded_escapes by exact Hsc. rewrite Hdec. unfold utf16Encode.
      now replace (C <=? 0xFFFF) with true by (symmetry; apply N.leb_le; lia).
Qed.

(** [encodeURIComponent] throws exactly on a string that is not well
    formed. *)
Lemma Encode_wellFormed (n : nat) :
  forall s : jsstring,
    (List.length s <= n)%nat ->
    (encodeURIComponent s = None <-> isWellFormed s = false).
Proof.
  unfold encodeURIComponent.
  induction n as [|n IH]; intros s Hlen.
  - destruct s; [|cbn in Hlen; lia]. split; discriminate.
  - destruct s as [|C rest]; [split; discriminate|].
    cbn [List.length] in Hlen. cbn [Encode isWellFormed].
    assert (Hopt : forall (f : jsstring -> jsstring) (t : jsstring),
               (List.length t <= n)%nat ->
               (option_map f (Encode uriUnreserved t) = None <-> isWellFormed t = false)).
    { intros f t Ht. rewrite <- (IH t Ht).
      destruct (Encode uriUnreserved t); split; discriminate || reflexivity. }
    destruct (uriUnreserved C) eqn:Hu.
    { assert (Hc : C < 128) by now apply uriUnreserved_ascii.
      unfold isLeadingSurrogate, isTrailingSurrogate. repeat cmp.
      cbn [andb negb]. apply Hopt. lia. }
    destruct (isLeadingSurrogate C) eqn:Hl.
    { destruct rest as [|second rest']; [tauto|].
      destruct (isTrailingSurrogate second); [|tauto].
      cbn [andb]. apply Hopt. cbn [List.length] in Hlen. lia. }
    destruct (isTrailingSurrogate C); [tauto|]. cbn [negb andb]. apply Hopt. lia.
Qed.


(** ** Text that passes unchanged *)

Lemma passes_facts (c : N) :
  passes c = true ->
  c < 128 /\ inFragmentSet c = false /\ isTabOrNewline c = false
  /\ (c =? 0x26) = false /\ plusToSpace c = c.
Proof.
  unfold passes, plusToSpace. intros H.
  repeat (apply andb_prop in H; destruct H as [H ?]).
  apply N.ltb_lt in H.
  destruct (inFragmentSet c), (isTabOrNewline c), (c =? 0x26), (c =? 0x2B);
    try discriminate. auto.
Qed.

Lemma toScalarValues_ascii (s : jsstring) :
  Forall (fun c => c < 128) s -> toScalarValues s = s.
Proof.
  induction 1 as [|c s Hc Hs IH]; [reflexivity|].
  cbn [toScalarValues]. unfold isLeadingSurrogate, isTrailingSurrogate.
  repeat cmp. cbn [andb]. now rewrite IH.
Qed.

Lemma utf8EncodeString_ascii (s : jsstring) :
  Forall (fun c => c < 128) s -> utf8EncodeString s = s.
Proof.
  intros H. unfold utf8EncodeString. rewrite (@toScalarValues_ascii _ H).
  induction H as [|c s Hc Hs IH]; [reflexivity|].
  cbn [flat_map]. unfold utf8Encode at 1. repeat cmp. cbn [app]. now rewrite IH.
Qed.

Lemma passes_ascii (s : jsstring) :
  Forall (fun c => passes c = true) s -> Forall (fun c => c < 128) s.
Proof. apply Forall_impl. intros c H. now apply passes_facts in H. Qed.

Lemma fragment_passes (s : jsstring) :
  Forall (fun c => passes c = true) s ->
  flat_map (fun c => if inFragmentSet c
                     then flat_map escapeOctet (utf8Encode c)
                     else [c])
           (List.filter (fun c => negb (isTabOrNewline c)) s) = s.
Proof.
  induction 1 as [|c s Hc Hs IH]; [reflexivity|].
  destruct (passes_facts _ Hc) as (_ & Hf & Ht & _).
  cbn [List.filter]. rewrite Ht. cbn [negb flat_map]. rewrite Hf.
  cbn [app]. now rewrite IH.
Qed.

Lemma setHash_passes (value : jsstring) :
  Forall (fun c => passes c = true) value -> hd 0 value <> 0x23 ->
  setHash value = value.
Proof.
  intros H Hhd. unfold setHash.
  replace (match value with 0x23 :: rest => rest | _ => value end) with value.
  2:{ destruct value as [|c rest]; [reflexivity|]. cbn [hd] in Hhd.
      destruct c as [|p]; [reflexivity|].
      do 6 (destruct p as [p|p|]; try reflexivity). now elim Hhd. }
  rewrite (@toScalarValues_ascii _ (@passes_ascii _ H)). now apply fragment_passes.
Qed.

Lemma splitOn_none (sep : N) (s : list N) :
  Forall (fun c => (c =? sep) = false) s -> splitOn sep s = [s].
Proof.
  induction 1 as [|c s Hc Hs IH]; [reflexivity|].
  cbn [splitOn]. now rewrite IH, Hc.
Qed.

Lemma startsWith_app (p s : jsstring) : startsWith (p ++ s) p = true.
Proof.
  induction p as [|c p IH]; [reflexivity|]. cbn [app startsWith].
  now rewrite N.eqb_refl, IH.
Qed.

Lemma startsWith_shorter (p p' s : jsstring) :
  startsWith s (p ++ p') = true -> startsWith s p = true.
Proof.
  revert s. induction p as [|c p IH]; intros s; [reflexivity|].
  cbn [app startsWith]. destruct s as [|x s]; [discriminate|].
  intros H. apply andb_prop in H. destruct H as [-> H]. now rewrite (IH s H).
Qed.

Lemma truthy_of_nonempty (s : jsstring) : s <> [] -> truthy s = true.
Proof. destruct s; [congruence | reflexivity]. Qed.

Lemma truthy_trim (s : jsstring) : truthy (trim s) = true -> s <> [].
Proof. intros H ->. discriminate H. Qed.

(** ** The hash and the query *)

(** X23. The query written to the hash is the query read from it: for a query
    that is not blank and is well formed, [updateUrlHash] sets a hash from
    which [checkHashForSearch] sets the very same query, whatever
    characters it holds and whatever the hash was before. *)
Theorem hash_round_trip (searchQuery fragment : jsstring) :
  isString searchQuery = true ->
  isWellFormed searchQuery = true ->
  truthy (trim searchQuery) = true ->
  exists fragment',
    updateUrlHash searchQuery fragment = Some fragment'
    /\ checkHashForSearch (hash fragment') = Some searchQuery.
Proof.
  intros Hs Hw Ht. unfold updateUrlHash. rewrite Ht.
  destruct (encodeURIComponent searchQuery) as [encoded|] eqn:He.
  2:{ apply (@Encode_wellFormed _ searchQuery (Nat.le_refl _)) in He. congruence. }
  destruct (@Encode_decoded _ searchQuery encoded (Nat.le_refl _) Hs He) as [Hesc Hdec].
  assert (Hpass : Forall (fun c => passes c = true) encoded).
  { revert Hesc. apply Forall_impl. intros c Hc. now apply escaped_passes in Hc. }
  exists (lit "search?q=" ++ encoded). cbn [option_map]. split.
  { f_equal. apply setHash_passes; [|intros E; cbv in E; discriminate E].
    apply Forall_app. split; [|exact Hpass]. repeat constructor. }
  unfold checkHashForSearch.
  change (hash (lit "search?q=" ++ encoded)) with (lit "#search?q=" ++ encoded).
  rewrite startsWith_app.
  change (skipn 8 (lit "#search?q=" ++ encoded)) with (lit "q=" ++ encoded).
  change (URLSearchParams (lit "q=" ++ encoded))
    with (parseUrlencoded (utf8EncodeString (lit "q=" ++ encoded))).
  assert (Hq : Forall (fun c => passes c = true) (lit "q=" ++ encoded)).
  { apply Forall_app. split; [|exact Hpass]. repeat constructor. }
  rewrite (@utf8EncodeString_ascii _ (@passes_ascii _ Hq)).
  unfold parseUrlencoded. rewrite splitOn_none.
  2:{ revert Hq. apply Forall_impl. intros c Hc. now apply passes_facts in Hc. }
  cbn [flat_map].
  change (lit "q=" ++ encoded) with (0x71 :: 0x3D :: encoded).
  cbn [nameValue]. change (0x71 =? 0x3D) with false. change (0x3D =? 0x3D) with true.
  cbv iota. cbn [app get].
  replace (decodeComponent [0x71]) with (lit "q") by (vm_compute; reflexivity).
  rewrite streq_refl.
  replace (decodeComponent encoded) with searchQuery.
  - now rewrite (@truthy_of_nonempty _ (@truthy_trim _ Ht)).
  - unfold decodeComponent. fold (decoded (map plusToSpace encoded)).
    rewrite <- Hdec at 1. f_equal. symmetry.
    rewrite <- (map_id encoded) at 2. apply map_ext_in. intros c Hc.
    rewrite Forall_forall in Hpass. now apply passes_facts, Hpass.
Qed.


Lemma hash_round_trip_witness :
  exists fragment',
    updateUrlHash [0x63; 0xE9; 0x20; 0x26; 0xD83D; 0xDE00] (lit "about") = Some fragment'
    /\ checkHashForSearch (hash fragment') = Some [0x63; 0xE9; 0x20; 0x26; 0xD83D; 0xDE00].
Proof.
  exact (@hash_round_trip [0x63; 0xE9; 0x20; 0x26; 0xD83D; 0xDE00] (lit "about")
           eq_refl eq_refl eq_refl).
Defined.

(** X24. [updateUrlHash] throws exactly for a query that is not blank and
    holds a surrogate without its partner: [encodeURIComponent] raises a
    URIError there, and nothing in the page catches it. *)
Theorem updateUrlHash_throws (searchQuery fragment : jsstring) :
  updateUrlHash searchQuery fragment = None
  <-> truthy (trim searchQuery) = true /\ isWellFormed searchQuery = false.
Proof.
  unfold updateUrlHash.
  pose proof (@Encode_wellFormed _ searchQuery (Nat.le_refl _)) as H.
  destruct (truthy (trim searchQuery)).
  - destruct (encodeURIComponent searchQuery) as [e|]; cbn [option_map].
    + split; [discriminate|]. intros [_ C]. apply H in C. discriminate.
    + split; [|reflexivity]. intros _. split; [reflexivity|]. now apply H.
  - destruct (startsWith _ _); split; try discriminate; intros [C _]; discriminate.
Qed.

(** X25. A blank query leaves no search in the hash: after [updateUrlHash],
    [checkHashForSearch] sets no query, and a hash that was not a search
    is left as it was. *)
Theorem blank_query_clears_hash (searchQuery fragment : jsstring) :
  truthy (trim searchQuery) = false ->
  exists fragment',
    updateUrlHash searchQuery fragment = Some fragment'
    /\ checkHashForSearch (hash fragment') = None
    /\ (if startsWith (hash fragment) (lit "#search") then fragment' = []
        else fragment' = fragment).
Proof.
  intros Hb. unfold updateUrlHash. rewrite Hb.
  destruct (startsWith (hash fragment) (lit "#search")) eqn:E.
  - exists []. repeat split.
  - exists fragment. split; [reflexivity|]. split; [|reflexivity].
    unfold checkHashForSearch.
    destruct (startsWith (hash fragment) (lit "#search?q=")) eqn:E2; [|reflexivity].
    change (lit "#search?q=") with (lit "#search" ++ lit "?q=") in E2.
    apply startsWith_shorter in E2. congruence.
Qed.

Lemma blank_query_clears_hash_witness :
  exists fragment',
    updateUrlHash (lit "  ") (lit "search?q=svg") = Some fragment'
    /\ checkHashForSearch (hash fragment') = None
    /\ (if startsWith (hash (lit "search?q=svg")) (lit "#search") then fragment' = []
        else fragment' = lit "search?q=svg").
Proof.
  exact (@blank_query_clears_hash (lit "  ") (lit "search?q=svg") eq_refl).
Defined.

End UrlHash.

(* ================================================================== *)
(** * The search page with its URL: the effect on the query          *)
(* ================================================================== *)

Module Page.
Import JS Search SearchFacts UrlHash.

(** The page and the fragment of the URL it is shown under. *)
Record Page := {
  world : World;
  fragment : jsstring
}.

(** The last statement of [clearResults]: a hash that starts with
    "#search" is taken out of the URL. *)
Definition clearHash (fragment : jsstring) : jsstring :=
  if startsWith (hash fragment) (lit "#search") then [] else fragment.

(** The effect on [query]: [updateUrlHash(query)]. It runs after the
    debounce effect, in the order of their declaration. [None]: it throws,
    nothing catches it, and React takes the page down. *)
Definition urlEffect (p : Page) : option Page :=
  option_map (fun fragment' => {| world := world p; fragment := fragment' |})
             (updateUrlHash (query (ui (world p))) (fragment p)).

(** One event with every effect of the render after it: the transition
    of the component, the hash that [clearResults] clears, and, when the
    query has changed, the effect on [query]. *)
Definition stepPage (p : Page) (e : Event) : option Page :=
  let p' := {| world := step (world p) e;
               fragment := match e with
                           | ClearResults => clearHash (fragment p)
                           | _ => fragment p
                           end |} in
  if streq (query (ui (world p'))) (query (ui (world p))) then Some p'
  else urlEffect p'.

Fixpoint runPage (p : Page) (events : list Event) : option Page :=
  match events with
  | [] => Some p
  | e :: rest => match stepPage p e with
                 | Some p' => runPage p' rest
                 | None => None
                 end
  end.

(** The message that nothing was found is drawn. *)
Definition noResultsMessage (s : State) : bool :=
  negb (loading s) && (List.length (results s) =? 0)%nat.

(** The grid of result cards is drawn: [filteredResults] is [allResults]. *)
Definition resultsGrid (s : State) : bool :=
  negb (loading s) && (0 <? List.length (allResults s))%nat.

(** ** Erasing the query *)

Lemma updateUrlHash_returns (searchQuery fragment : jsstring) :
  truthy (trim searchQuery) = false \/ isWellFormed searchQuery = true ->
  exists fragment', updateUrlHash searchQuery fragment = Some fragment'.
Proof.
  intros H. unfold updateUrlHash.
  destruct (truthy (trim searchQuery)) eqn:Ht.
  - destruct H as [H|H]; [discriminate H|].
    destruct (encodeURIComponent searchQuery) as [encoded|] eqn:E;
      [eexists; reflexivity|].
    apply (@Encode_wellFormed _ searchQuery (Nat.le_refl _)) in E. congruence.
  - destruct (startsWith _ _); eexists; reflexivity.
Qed.

(** X22. Erasing the text of the query empties the results shown but not the
    accumulated ones. From every state the page can reach with a query,
    accumulated results and no search loading, when the query is erased
    and another one typed that is well formed, the page stays up: the
    effect on the URL returns both times, the accumulated results of the
    old query are drawn again, beside the message that nothing was found,
    and stay while the search for the new query is pending. *)
Theorem erased_query_keeps_results (events : list Event) (typed urlFragment : jsstring) :
  let w := run events in
  blank (query (ui w)) = false -> blank typed = false ->
  isWellFormed typed = true ->
  loading (ui w) = false -> allResults (ui w) <> [] ->
  exists p' : Page,
    runPage {| world := w; fragment := urlFragment |}
            [QueryChanged []; QueryChanged typed] = Some p'
    /\ query (ui (world p')) = typed
    /\ allResults (ui (world p')) = allResults (ui w)
    /\ noResultsMessage (ui (world p')) = true
    /\ resultsGrid (ui (world p')) = true
    /\ timer (world p') = Some {| c_query := typed;
                                  c_categories := getEffectiveCategories (ui w) |}.
Proof.
  cbv zeta. intros Hq Ht Hw Hl Ha. set (w := run events) in *.
  assert (Hne : streq [] (query (ui w)) = false).
  { apply streq_false. intros E. rewrite <- E in Hq. discriminate Hq. }
  assert (E1 : step w (QueryChanged [])
               = {| ui := setSearchInfo None (setResults [] (setQuery [] (ui w)));
                    timer := None; inFlight := inFlight w |}).
  { cbn [step]. now rewrite Hne. }
  destruct (@updateUrlHash_returns [] urlFragment (or_introl eq_refl)) as [f1 Hf1].
  destruct (@updateUrlHash_returns typed f1 (or_intror Hw)) as [f2 Hf2].
  assert (Htyped : streq typed [] = false)
    by (apply streq_false; now apply blank_nonempty).
  exists {| world := step (step w (QueryChanged [])) (QueryChanged typed);
            fragment := f2 |}.
  split.
  - cbn [runPage]. unfold stepPage at 1. cbn [world fragment]. rewrite E1.
    cbn [ui query setSearchInfo setResults setQuery]. rewrite Hne.
    unfold urlEffect. cbn [world fragment ui query setSearchInfo setResults setQuery].
    rewrite Hf1. cbn [option_map]. unfold stepPage. cbn [world fragment].
    assert (Q : query (ui (step {| ui := setSearchInfo None (setResults [] (setQuery [] (ui w)));
                                   timer := None; inFlight := inFlight w |}
                                (QueryChanged typed))) = typed).
    { cbn [step ui query setSearchInfo setResults setQuery]. rewrite Htyped.
      unfold searchEffect, withUI. cbn [ui query setQuery]. now rewrite Ht. }
    rewrite Q. cbn [ui query setSearchInfo setResults setQuery]. rewrite Htyped.
    unfold urlEffect. cbn [world fragment]. rewrite Q, Hf2. reflexivity.
  - cbn [world]. rewrite E1. cbn [step ui query setSearchInfo setResults setQuery].
    rewrite Htyped. unfold searchEffect, withUI.
    cbn [ui query setQuery setSearchInfo setResults]. rewrite Ht. cbn [ui timer query allResults].
    unfold noResultsMessage, resultsGrid, getEffectiveCategories,
      setQuery, setSearchInfo, setResults.
    cbn [query loading results allResults activeCategory selectedCategories List.length].
    rewrite Hl. repeat split.
    destruct (allResults (ui w)); [congruence|reflexivity].
Qed.

Lemma erased_query_keeps_results_witness :
  let w := firstPageServed (lit "a") (corpus 3) in
  exists p' : Page,
    runPage {| world := w; fragment := lit "search?q=a" |}
            [QueryChanged []; QueryChanged (lit "b")] = Some p'
    /\ query (ui (world p')) = lit "b"
    /\ allResults (ui (world p')) = allResults (ui w)
    /\ noResultsMessage (ui (world p')) = true
    /\ resultsGrid (ui (world p')) = true
    /\ timer (world p') = Some {| c_query := lit "b";
                                  c_categories := getEffectiveCategories (ui w) |}.
Proof.
  apply (@erased_query_keeps_results
           [QueryChanged (lit "a"); TimerFires;
            Response 0 (Success (serve (corpus 3) (searchBody (lit "a") [] 1)))]
           (lit "b") (lit "search?q=a")); try reflexivity.
  discriminate.
Defined.

End Page.

(* ================================================================== *)
(** * The sitemap of the icon pages: sitemap.xml.ts                   *)
(* ================================================================== *)

Module Sitemap.
Import JS.

Definition nl : jsstring := [10%N].
Definition quote : jsstring := [34%N].

(** A positive integer in a template literal: its decimal digits. *)
Definition decimal (i : Z) : jsstring :=
  lit (NilZero.string_of_uint (N.to_uint (Z.to_N i))).

Definition itemsPerPage : Z := 30.

(** [Math.ceil(clusters.length / itemsPerPage)]. *)
Definition totalPages {A : Type} (clusters : list A) : Z :=
  ceilDiv (Z.of_nat (List.length clusters)) itemsPerPage.

(** The entry of the root page. *)
Definition rootEntry (site now : jsstring) : jsstring :=
  lit "  <url>" ++ nl
  ++ lit "      <loc>" ++ site ++ lit "/svg_icons/</loc>" ++ nl
  ++ lit "      <lastmod>" ++ now ++ lit "</lastmod>" ++ nl
  ++ lit "      <changefreq>daily</changefreq>" ++ nl
  ++ lit "      <priority>0.9</priority>" ++ nl
  ++ lit "    </url>".

(** The entry of the page [i]. *)
Definition pageEntry (site now : jsstring) (i : Z) : jsstring :=
  lit "  <url>" ++ nl
  ++ lit "        <loc>" ++ site ++ lit "/svg_icons/" ++ decimal i ++ lit "/</loc>" ++ nl
  ++ lit "        <lastmod>" ++ now ++ lit "</lastmod>" ++ nl
  ++ lit "        <changefreq>daily</changefreq>" ++ nl
  ++ lit "        <priority>0.8</priority>" ++ nl
  ++ lit "      </url>".

(** [for (let i = 2; i <= totalPages; i++)]: the values of [i], in the
    order of the loop. *)
Definition loopIndices (totalPages : Z) : list Z :=
  map Z.of_nat (seq 2 (Z.to_nat (totalPages - 1))).

(** The array [urls] when the loop is done. *)
Definition urls {A : Type} (site now : jsstring) (clusters : list A) : list jsstring :=
  rootEntry site now :: map (pageEntry site now) (loopIndices (totalPages clusters)).

Record Response := {
  body : jsstring;
  contentType : jsstring;
  cacheControl : jsstring
}.

(** [GET], with the clock reading [now] and the clusters of the
    database. *)
Definition GET {A : Type} (site now : jsstring) (clusters : list A) : Response :=
  let xml :=
    lit "<?xml version=" ++ quote ++ lit "1.0" ++ quote ++ lit " encoding=" ++ quote
    ++ lit "UTF-8" ++ quote ++ lit "?>" ++ nl
    ++ lit "<?xml-stylesheet type=" ++ quote ++ lit "text/xsl" ++ quote ++ lit " href="
    ++ quote ++ lit "/freedevtools/sitemap.xsl" ++ quote ++ lit "?>" ++ nl
    ++ lit "<urlset xmlns=" ++ quote ++ lit "http://www.sitemaps.org/schemas/sitemap/0.9"
    ++ quote ++ lit ">" ++ nl
    ++ join (urls site now clusters) nl ++ nl
    ++ lit "</urlset>" in
  {| body := xml;
     contentType := lit "application/xml";
     cacheControl := lit "public, max-age=3600" |}.

(** The text of the body before the entries, and after them. *)
Definition xmlHead : jsstring :=
  lit "<?xml version=" ++ quote ++ lit "1.0" ++ quote ++ lit " encoding=" ++ quote
  ++ lit "UTF-8" ++ quote ++ lit "?>" ++ nl
  ++ lit "<?xml-stylesheet type=" ++ quote ++ lit "text/xsl" ++ quote ++ lit " href="
  ++ quote ++ lit "/freedevtools/sitemap.xsl" ++ quote ++ lit "?>" ++ nl
  ++ lit "<urlset xmlns=" ++ quote ++ lit "http://www.sitemaps.org/schemas/sitemap/0.9"
  ++ quote ++ lit ">" ++ nl.

Definition xmlTail : jsstring := nl ++ lit "</urlset>".

(** ** The pages listed *)

Lemma loopIndices_In (totalPages k : Z) :
  In k (loopIndices totalPages) <-> 2 <= k <= totalPages.
Proof.
  unfold loopIndices. rewrite in_map_iff. split.
  - intros (i & <- & Hi). apply in_seq in Hi. lia.
  - intros H. exists (Z.to_nat k). split; [lia|]. apply in_seq. lia.
Qed.

Lemma loopIndices_NoDup (totalPages : Z) : NoDup (loopIndices totalPages).
Proof.
  unfold loopIndices. apply Finite.Injective_map_NoDup; [|apply seq_NoDup].
  intros i j. apply Nat2Z.inj.
Qed.

Lemma to_uint_not_Nil (n : N) : N.to_uint n <> Decimal.Nil.
Proof.
  intros E. pose proof (DecimalN.Unsigned.to_of (N.to_uint n)) as H.
  rewrite DecimalN.Unsigned.of_to, E in H. discriminate H.
Qed.

Lemma lit_inj (s t : string) : lit s = lit t -> s = t.
Proof.
  unfold lit. intros H.
  rewrite <- (string_of_list_ascii_of_string s), <- (string_of_list_ascii_of_string t).
  f_equal. revert H. generalize (list_ascii_of_string s) (list_ascii_of_string t).
  intros l. induction l as [|a l IH]; intros [|b m] H; try discriminate; [reflexivity|].
  cbn [map] in H. injection H as Hab Hlm. f_equal; [|now apply IH].
  rewrite <- (ascii_N_embedding a), <- (ascii_N_embedding b). now rewrite Hab.
Qed.

Lemma decimal_inj (i j : Z) : 0 <= i -> 0 <= j -> decimal i = decimal j -> i = j.
Proof.
  unfold decimal. intros Hi Hj H. apply lit_inj in H.
  apply (f_equal NilZero.uint_of_string) in H.
  rewrite !NilZero.usu in H by apply to_uint_not_Nil.
  injection H as H. apply DecimalN.Unsigned.to_uint_inj in H. lia.
Qed.

(** The digits of a number hold no slash. *)
Lemma decimal_digits (i : Z) : Forall (fun c => (48 <= c <= 57)%N) (decimal i).
Proof.
  unfold decimal, lit. generalize (N.to_uint (Z.to_N i)). intros d.
  assert (H : Forall (fun c => (48 <= c <= 57)%N)
                (map N_of_ascii (list_ascii_of_string (NilEmpty.string_of_uint d)))).
  { induction d; simpl; constructor; try exact IHd; split; apply N.leb_le; reflexivity. }
  destruct d; try exact H. simpl. constructor; [|constructor].
  split; apply N.leb_le; reflexivity.
Qed.


Lemma digits_app_inv (d1 d2 x y : jsstring) :
  Forall (fun c => (48 <= c <= 57)%N) d1 ->
  Forall (fun c => (48 <= c <= 57)%N) d2 ->
  d1 ++ 47%N :: x = d2 ++ 47%N :: y -> d1 = d2.
Proof.
  intros H1. revert d2. induction H1 as [|c d1 Hc Hd1 IH]; intros d2 H2 E.
  - destruct H2 as [|c' d2 Hc' _]; [reflexivity|].
    cbn [app] in E. injection E as E _. lia.
  - destruct H2 as [|c' d2 Hc' Hd2]; cbn [app] in E; injection E as E1 E2; [lia|].
    f_equal; [exact E1 | now apply IH].
Qed.

Lemma pageEntry_inj (site now : jsstring) (i j : Z) :
  0 <= i -> 0 <= j -> pageEntry site now i = pageEntry site now j -> i = j.
Proof.
  intros Hi Hj E. unfold pageEntry in E.
  repeat rewrite app_assoc in E.
  repeat rewrite <- app_assoc in E.
  do 3 apply app_inv_head in E.
  rewrite (app_assoc (lit "/svg_icons/") (decimal i)) in E.
  rewrite (app_assoc (lit "/svg_icons/") (decimal j)) in E.
  change (lit "/svg_icons/") with (lit "/svg_icons" ++ [47%N]) in E.
  rewrite <- !app_assoc in E. apply app_inv_head in E.
  cbn [app] in E. injection E as E.
  apply decimal_inj; try assumption.
  eapply digits_app_inv; [apply decimal_digits | apply decimal_digits | exact E].
Qed.

Lemma rootEntry_not_page (site now : jsstring) (i : Z) :
  rootEntry site now <> pageEntry site now i.
Proof.
  intros E. apply (f_equal (fun l => nth 14 l 0%N)) in E. discriminate E.
Qed.

Lemma loopIndices_sorted (totalPages : Z) : StronglySorted Z.lt (loopIndices totalPages).
Proof.
  unfold loopIndices. generalize (Z.to_nat (totalPages - 1)) 2%nat. intros len.
  induction len as [|len IH]; intros start; cbn [seq map]; constructor.
  - apply IH.
  - apply Forall_forall. intros k Hk. apply in_map_iff in Hk.
    destruct Hk as (i & <- & Hi). apply in_seq in Hi. lia.
Qed.

(** X26. [GET] answers with an XML document of type application/xml whose
    body is the head of the sitemap, the entry of the root page, the
    entries of further pages, one to a line, and the closing tag. The
    further pages are, in ascending order and each once, exactly the pages
    [k] from 2 on with [30 * (k - 1)] below the number of clusters, which
    makes [max 1 (ceil (n / 30))] entries in all, no two of them the
    same; without clusters the root page is the only entry. *)
Theorem sitemap_pages {A : Type} (site now : jsstring) (clusters : list A) :
  let n := Z.of_nat (List.length clusters) in
  exists pages : list Z,
    body (GET site now clusters)
    = xmlHead ++ join (rootEntry site now :: map (pageEntry site now) pages) nl
      ++ xmlTail
    /\ contentType (GET site now clusters) = lit "application/xml"
    /\ StronglySorted Z.lt pages
    /\ (forall k, In k pages <-> 2 <= k /\ 30 * (k - 1) < n)
    /\ Z.of_nat (List.length pages) + 1 = Z.max 1 (ceilDiv n 30)
    /\ NoDup (rootEntry site now :: map (pageEntry site now) pages)
    /\ (clusters = [] -> pages = []).
Proof.
  cbv zeta. exists (loopIndices (totalPages clusters)).
  assert (Hceil : forall k, k <= ceilDiv (Z.of_nat (List.length clusters)) 30
                            <-> 30 * (k - 1) < Z.of_nat (List.length clusters)).
  { intros k. unfold ceilDiv. split; intros H; Z.div_mod_to_equations; lia. }
  split; [|split; [reflexivity|split; [apply loopIndices_sorted|split; [|split; [|split]]]]].
  - unfold GET, urls, xmlHead, xmlTail. cbn [body]. now rewrite <- !app_assoc.
  - intros k. rewrite loopIndices_In. unfold totalPages, itemsPerPage.
    rewrite Hceil. tauto.
  - unfold loopIndices. rewrite length_map, length_seq. unfold totalPages, itemsPerPage.
    assert (0 <= ceilDiv (Z.of_nat (List.length clusters)) 30)
      by (unfold ceilDiv; Z.div_mod_to_equations; lia).
    lia.
  - constructor.
    + intros Hin. apply in_map_iff in Hin. destruct Hin as (i & E & _).
      symmetry in E. now apply rootEntry_not_page in E.
    + apply Finite.Injective_map_NoDup_in; [|apply loopIndices_NoDup].
      intros i j Hi Hj. apply loopIndices_In in Hi, Hj.
      apply pageEntry_inj; lia.
  - intros ->. reflexivity.
Qed.

End Sitemap.
